(** * fp-ts: ReadonlyArray and Task

    A shallow embedding of [es6/ReadonlyArray.js] and of the [Task] module,
    with the algebraic laws, index bookkeeping and frame properties of the
    array combinators and the settlement behaviour of the task combinators. *)

From Stdlib Require String.
From stdpp Require Import gmap list sorting.

Local Open Scope Z_scope.
Set Default Proof Using "Type".

(** ** Host arrays

    A dense JavaScript array is the list of its elements.  Reading a cell
    that was never written yields [undefined], which every element type is
    taken to contain. *)

Class Undefined (A : Type) := undefined : A.

Module Host.
Section array.
Context {A : Type} `{Undefined A}.

(** [Array(n)]: [n] cells, none written yet. *)
Definition Array_ (n : nat) : list A := replicate n undefined.

(** [xs[i]] for a loop counter [i]. *)
Definition get (xs : list A) (i : nat) : A := nth i xs undefined.

(** [xs[i]] for a caller-supplied integer [i]. *)
Definition index (xs : list A) (i : Z) : A :=
  if i <? 0 then undefined else get xs (Z.to_nat i).

(** [r[k] = v]: overwrites inside the array, extends it otherwise. *)
Definition set (r : list A) (k : nat) (v : A) : list A :=
  if (k <? length r)%nat then <[k:=v]> r
  else r ++ replicate (k - length r) undefined ++ [v].

(** [r.push(v)] *)
Definition push (r : list A) (v : A) : list A := r ++ [v].

(** Relative index of [slice] and [splice]: negative counts from the end,
    and the result is clamped to [0 .. len]. *)
Definition rel_index (len k : Z) : Z :=
  if k <? 0 then Z.max (len + k) 0 else Z.min k len.

(** [xs.slice(start, end)]; [end] may be omitted. *)
Definition slice (xs : list A) (start : Z) (end_ : option Z) : list A :=
  let len := Z.of_nat (length xs) in
  let k := rel_index len start in
  let final := match end_ with None => len | Some e => rel_index len e end in
  take (Z.to_nat (final - k)) (drop (Z.to_nat k) xs).

(** Contents of [xs] after [xs.splice(start, deleteCount, ...items)]. *)
Definition spliced (xs : list A) (start deleteCount : Z) (items : list A) : list A :=
  let len := Z.of_nat (length xs) in
  let actualStart := rel_index len start in
  let actualDeleteCount := Z.min (Z.max deleteCount 0) (len - actualStart) in
  take (Z.to_nat actualStart) xs ++ items
    ++ drop (Z.to_nat (actualStart + actualDeleteCount)) xs.
End array.

(** [for (var i = 0; i < n; i++) body], threading the variables the body
    assigns. *)
Definition for_ {S : Type} (n : nat) (body : nat -> S -> S) (s : S) : S :=
  fold_left (fun s i => body i s) (seq 0 n) s.

(** [while (cond) body]; [None] when the loop is still running after
    [fuel] iterations. *)
Fixpoint while_ {S : Type} (fuel : nat) (cond : S -> bool) (body : S -> S) (s : S)
  : option S :=
  match fuel with
  | O => None
  | Datatypes.S k => if cond s then while_ k cond body (body s) else Some s
  end.
End Host.

(** ** The interface of [./Monoid] *)

Module Monoid.
Record Monoid (A : Type) := { concat : A -> A -> A; empty : A }.
Arguments concat {A} _ _ _.
Arguments empty {A} _.
End Monoid.

(** ** [es6/ReadonlyArray.js], on array contents *)

Module ReadonlyArray.
Import Host.

Definition identity {A : Type} (a : A) : A := a.
Definition pipe {A B : Type} (a : A) (ab : A -> B) : B := ab a.

(** [export var empty = []] *)
Definition empty {A : Type} : list A := [].

Section defs.
Context {A : Type} `{Undefined A} `{Undefined (list A)}.

(** The TypeScript helper behind the spread [[...as]]. *)
Definition __spreadArrays (arguments : list (list A)) : list A :=
  let il := length arguments in
  let s := for_ il (fun i s => (s + length (get arguments i))%nat) 0%nat in
  let '(r, _) :=
    for_ il (fun i '(r, k) =>
      let a := get arguments i in
      let jl := length a in
      for_ jl (fun j '(r, k) => (set r k (get a j), (k + 1)%nat)) (r, k))
      (Array_ s, 0%nat) in
  r.

Definition concat (x y : list A) : list A :=
  let lenx := length x in
  if (lenx =? 0)%nat then y
  else
    let leny := length y in
    if (leny =? 0)%nat then x
    else
      let r := Array_ (lenx + leny) in
      let r := for_ lenx (fun i r => set r i (get x i)) r in
      let r := for_ leny (fun i r => set r (i + lenx) (get y i)) r in
      r.

Definition getMonoid : Monoid.Monoid (list A) :=
  {| Monoid.concat := concat; Monoid.empty := empty |}.

Definition flatten (mma : list (list A)) : list A :=
  let rLen := 0%nat in
  let len := length mma in
  let rLen := for_ len (fun i rLen => (rLen + length (get mma i))%nat) rLen in
  let r := Array_ rLen in
  let start := 0%nat in
  let '(r, _) :=
    for_ len (fun i '(r, start) =>
      let arr := get mma i in
      let l := length arr in
      let r := for_ l (fun j r => set r (j + start) (get arr j)) r in
      (r, (start + l)%nat))
      (r, start) in
  r.

Definition isEmpty (as_ : list A) : bool := (length as_ =? 0)%nat.

Definition isNonEmpty (as_ : list A) : bool := (0 <? length as_)%nat.

Definition isOutOfBound (i : Z) (as_ : list A) : bool :=
  (i <? 0) || (i >=? Z.of_nat (length as_)).

Definition lookup (i : Z) (as_ : list A) : option A :=
  if isOutOfBound i as_ then None else Some (index as_ i).

Definition cons (head : A) (tail : list A) : list A :=
  let len := length tail in
  let r := Array_ (len + 1) in
  let r := for_ len (fun i r => set r (i + 1) (get tail i)) r in
  let r := set r 0 head in
  r.

Definition snoc (init : list A) (end_ : A) : list A :=
  let len := length init in
  let r := Array_ (len + 1) in
  let r := for_ len (fun i r => set r i (get init i)) r in
  let r := set r len end_ in
  r.

(** [fuel] bounds the rounds of the [while] loop. *)
Definition chop {B : Type} (fuel : nat) (f : list A -> B * list A) (as_ : list A)
  : option (list B) :=
  let result := [] in
  let cs := as_ in
  match while_ fuel (fun '(_, cs) => isNonEmpty cs)
          (fun '(result, cs) =>
             let '(b, c) := f cs in
             (push result b, c))
          (result, cs) with
  | Some (result, _) => Some result
  | None => None
  end.

Definition splitAt (n : Z) (as_ : list A) : list A * list A :=
  (slice as_ 0 (Some n), slice as_ n None).

Definition chunksOf (fuel : nat) (n : Z) (as_ : list A) : option (list (list A)) :=
  let f := chop fuel (splitAt n) in
  if (length as_ =? 0)%nat then Some empty
  else if isOutOfBound (n - 1) as_ then Some [as_]
  else f as_.

Definition of_ (a : A) : list A := [a].
End defs.

Section defs2.
Context {A B : Type} `{Undefined A} `{Undefined B} `{Undefined (list B)}.

Definition scanLeft (b : B) (f : B -> A -> B) (as_ : list A) : list B :=
  let l := length as_ in
  let r := Array_ (l + 1) in
  let r := set r 0 b in
  let r := for_ l (fun i r => set r (i + 1) (f (get r i) (get as_ i))) r in
  r.

Definition chain (f : A -> list B) (ma : list A) : list B :=
  let outLen := 0%nat in
  let l := length ma in
  let temp := Array_ l in
  let '(outLen, temp) :=
    for_ l (fun i '(outLen, temp) =>
      let e := get ma i in
      let arr := f e in
      ((outLen + length arr)%nat, set temp i arr))
      (outLen, temp) in
  let out := Array_ outLen in
  let start := 0%nat in
  let '(out, _) :=
    for_ l (fun i '(out, start) =>
      let arr := get temp i in
      let l_1 := length arr in
      let out := for_ l_1 (fun j out => set out (j + start) (get arr j)) out in
      (out, (start + l_1)%nat))
      (out, start) in
  out.

(** [fa.map(cb)] of the host is [List.map] on a dense array. *)
Definition map (f : A -> B) (fa : list A) : list B :=
  List.map (fun a => f a) fa.

Definition reduceWithIndex (b : B) (f : nat -> B -> A -> B) (fa : list A) : B :=
  let l := length fa in
  let r := b in
  let r := for_ l (fun i r => f i r (get fa i)) r in
  r.

Definition reduce (b : B) (f : B -> A -> B) : list A -> B :=
  reduceWithIndex b (fun _ b a => f b a).

(** The local function [go] of [comprehension].  [f] and [g] receive the
    scope as their argument list.  The recursion is on [input]: [input0]
    is [input[0]] and [rest] is [input.slice(1)]. *)
Fixpoint comprehension_go (f : list A -> B) (g : list A -> bool)
    (scope : list A) (input : list (list A)) {struct input} : list B :=
  match input with
  | [] => if g scope then [f scope] else empty
  | input0 :: rest =>
      pipe input0 (chain (fun x => comprehension_go f g (snoc scope x) rest))
  end.

(** [g] is optional and defaults to the predicate that accepts everything. *)
Definition comprehension (input : list (list A)) (f : list A -> B)
    (g : option (list A -> bool)) : list B :=
  let g := match g with None => fun _ => true | Some g => g end in
  comprehension_go f g empty input.

(** [fuel] bounds the rounds of the [while (true)] loop. *)
Fixpoint unfold_loop (fuel : nat) (f : B -> option (A * B)) (ret : list A) (bb : B)
  : option (list A) :=
  match fuel with
  | O => None
  | S fuel =>
      let mt := f bb in
      match mt with
      | Some (a, b_1) => unfold_loop fuel f (push ret a) b_1
      | None => Some ret
      end
  end.

Definition unfold (fuel : nat) (b : B) (f : B -> option (A * B)) : option (list A) :=
  unfold_loop fuel f [] b.
End defs2.
End ReadonlyArray.

(** ** The interface of [./Ord] *)

Module Ord.
Record Ord (A : Type) := { equals : A -> A -> bool; compare : A -> A -> Z }.
Arguments equals {A} _ _ _.
Arguments compare {A} _ _ _.
End Ord.

(** ** [es6/ReadonlyArray.js], on array references

    The functions that copy their input and then call a mutating method of
    the host, over a store that maps each array reference to its contents.
    An array created by a function enters the store when its construction
    loop is done. *)

Module ReadonlyArrayStore.
Import Host.

Abbreviation ref := positive (only parsing).
Abbreviation store A := (gmap positive (list A)) (only parsing).

Definition M (A X : Type) : Type := store A -> X * store A.

Definition ret {A X : Type} (x : X) : M A X := fun s => (x, s).

Definition bind {A X Y : Type} (m : M A X) (k : X -> M A Y) : M A Y :=
  fun s => let '(x, s') := m s in k x s'.

Notation "'do' x <- m ;; k" := (bind m (fun x => k))
  (at level 10, x name, m at level 99, k at level 200, only parsing).

Section defs.
Context {A : Type} `{Undefined A} `{Undefined (list A)}.

(** Host's strict equality [===] on elements. *)
Variable strict_eq : A -> A -> bool.

(** Host's sorting algorithm: the contents [xs.sort(compare)] leaves in [xs]. *)
Variable sorted_by : (A -> A -> Z) -> list A -> list A.

(** A new array with the given contents. *)
Definition alloc (xs : list A) : M A ref :=
  fun s => let r := fresh (dom s) in (r, <[r:=xs]> s).

(** The contents of an array. *)
Definition read (r : ref) : M A (list A) :=
  fun s => (default [] (s !! r), s).

(** In-place replacement of the contents of an array. *)
Definition write (r : ref) (xs : list A) : M A unit :=
  fun s => (tt, <[r:=xs]> s).

(** [xs.splice(start, deleteCount, ...items)]: changes [xs] in place. *)
Definition splice (xs : ref) (start deleteCount : Z) (items : list A) : M A unit :=
  do c <- read xs ;; write xs (spliced c start deleteCount items).

(** [xs[i] = a] for a caller-supplied integer [i]; a negative [i] names a
    property, not a cell. *)
Definition assign (xs : ref) (i : Z) (a : A) : M A unit :=
  do c <- read xs ;;
  if i <? 0 then ret tt else write xs (set c (Z.to_nat i) a).

(** [xs.reverse()]: reverses [xs] in place and returns it. *)
Definition Array_reverse (xs : ref) : M A ref :=
  do c <- read xs ;; do _ <- write xs (rev c) ;; ret xs.

(** [xs.sort(compare)]: sorts [xs] in place and returns it. *)
Definition Array_sort (xs : ref) (compare : A -> A -> Z) : M A ref :=
  do c <- read xs ;; do _ <- write xs (sorted_by compare c) ;; ret xs.

Definition __spreadArrays (as_ : ref) : M A ref :=
  do c <- read as_ ;; alloc (ReadonlyArray.__spreadArrays [c]).

Definition cons (head : A) (tail : ref) : M A ref :=
  do c <- read tail ;; alloc (ReadonlyArray.cons head c).

Definition snoc (init : ref) (end_ : A) : M A ref :=
  do c <- read init ;; alloc (ReadonlyArray.snoc c end_).

Definition unsafeInsertAt (i : Z) (a : A) (as_ : ref) : M A ref :=
  do xs <- __spreadArrays as_ ;;
  do _ <- splice xs i 0 [a] ;;
  ret xs.

Definition insertAt (i : Z) (a : A) (as_ : ref) : M A (option ref) :=
  do c <- read as_ ;;
  if (i <? 0) || (i >? Z.of_nat (length c)) then ret None
  else do xs <- unsafeInsertAt i a as_ ;; ret (Some xs).

Definition unsafeUpdateAt (i : Z) (a : A) (as_ : ref) : M A ref :=
  do c <- read as_ ;;
  if strict_eq (index c i) a then ret as_
  else
    do xs <- __spreadArrays as_ ;;
    do _ <- assign xs i a ;;
    ret xs.

Definition updateAt (i : Z) (a : A) (as_ : ref) : M A (option ref) :=
  do c <- read as_ ;;
  if ReadonlyArray.isOutOfBound i c then ret None
  else do xs <- unsafeUpdateAt i a as_ ;; ret (Some xs).

Definition unsafeDeleteAt (i : Z) (as_ : ref) : M A ref :=
  do xs <- __spreadArrays as_ ;;
  do _ <- splice xs i 1 [] ;;
  ret xs.

Definition deleteAt (i : Z) (as_ : ref) : M A (option ref) :=
  do c <- read as_ ;;
  if ReadonlyArray.isOutOfBound i c then ret None
  else do xs <- unsafeDeleteAt i as_ ;; ret (Some xs).

Definition modifyAt (i : Z) (f : A -> A) (as_ : ref) : M A (option ref) :=
  do c <- read as_ ;;
  if ReadonlyArray.isOutOfBound i c then ret None
  else do xs <- unsafeUpdateAt i (f (index c i)) as_ ;; ret (Some xs).

Definition reverse (as_ : ref) : M A ref :=
  do xs <- __spreadArrays as_ ;; Array_reverse xs.

Definition sort (O : Ord.Ord A) (as_ : ref) : M A ref :=
  do xs <- __spreadArrays as_ ;; Array_sort xs (Ord.compare O).
End defs.

(** What a call on the array [as_] of the store [s] may do: every array of
    [s] has the same contents afterwards, and the reference the call
    returns, if any, is [as_] or an array that was not in [s]. *)
Definition preserves {A : Type} (s : store A) (as_ : ref)
    (outcome : option ref * store A) : Prop :=
  let '(result, s') := outcome in
  (forall r c, s !! r = Some c -> s' !! r = Some c)
  /\ match result with
     | Some r => (r = as_ \/ s !! r = None) /\ is_Some (s' !! r)
     | None => True
     end.

(** A function that always returns an array. *)
Definition always {A : Type} (call : M A ref) : M A (option ref) :=
  do r <- call ;; ret (Some r).
End ReadonlyArrayStore.

(** ** Host promises

    What a promise does, as far as the task combinators can tell: whether
    it stays pending, or settles, when, and how.  Instants are ticks of a
    logical clock.  A JavaScript call either returns or throws.

    Two things the host decides are left to it.  A value may itself be a
    promise (a thenable): [Promise.resolve] and the result of a [then]
    callback then follow that promise instead of resolving with it, and
    [Thenable] says which values are promises and how they settle.  The
    value a promise has resolved with is never a promise itself, so what
    [then] hands to its callback is taken as it is.  And settlements of
    one instant are ordered by the host's job queue, which the clock does
    not show: [JobOrder] says which of two comes first. *)

Module Promises.
Inductive Completion (E A : Type) : Type :=
| Returns (a : A)
| Throws (e : E).
Arguments Returns {E A} a.
Arguments Throws {E A} e.

Inductive Settlement (E A : Type) : Type :=
| Resolved (a : A)
| Rejected (e : E).
Arguments Resolved {E A} a.
Arguments Rejected {E A} e.

Inductive Promise (E A : Type) : Type :=
| Pending
| Settled (at_ : nat) (how : Settlement E A).
Arguments Pending {E A}.
Arguments Settled {E A} at_ how.

(** [thenable a] is the promise that the value [a] is, if it is one. *)
Class Thenable (E A : Type) := thenable : A -> option (Promise E A).

(** [first_job p q]: of the two promises, which settle in the same
    instant, [p] settles first in the order of the job queue. *)
Class JobOrder (E : Type) := first_job : forall A B : Type, Promise E A -> Promise E B -> bool.
Arguments first_job {E _ A B} _ _.

Section host.
Context {E : Type} `{JobOrder E}.

(** A promise that follows [q] from the instant [now] on. *)
Definition adopt {A : Type} (now : nat) (q : Promise E A) : Promise E A :=
  match q with
  | Pending => Pending
  | Settled at_ how => Settled (Nat.max now at_) how
  end.

(** [Promise.resolve(a)], called at the instant [now]: the promise [a]
    itself if [a] is one, a promise resolved with [a] otherwise. *)
Definition Promise_resolve {A : Type} `{Thenable E A} (now : nat) (a : A) : Promise E A :=
  match thenable a with
  | Some q => adopt now q
  | None => Settled now (Resolved a)
  end.

(** [p.then(onFulfilled)], called at the instant [now].  The callback runs
    at the instant [p] resolves, or at [now] if [p] had resolved before; the
    new promise follows the promise the callback returns, and rejects if the
    callback throws or [p] rejects. *)
Definition then_ {A B : Type} (now : nat) (p : Promise E A)
    (onFulfilled : nat -> A -> Completion E (Promise E B)) : Promise E B :=
  match adopt now p with
  | Pending => Pending
  | Settled at_ (Rejected e) => Settled at_ (Rejected e)
  | Settled at_ (Resolved a) =>
      match onFulfilled at_ a with
      | Throws e => Settled at_ (Rejected e)
      | Returns q => adopt at_ q
      end
  end.

(** A [then] callback written as a function [f] that returns a value:
    the new promise is resolved with what [f] returns, so it follows that
    value if it is a promise. *)
Definition plain {A B : Type} `{Thenable E B} (f : A -> Completion E B)
  : nat -> A -> Completion E (Promise E B) :=
  fun now a =>
    match f a with
    | Returns b => Returns (Promise_resolve now b)
    | Throws e => Throws e
    end.

(** Of two promises that have settled, at [t1] and at [t2], the first is
    the earlier: by the clock, or by the job queue within one instant. *)
Definition settles_first {A B : Type} (t1 t2 : nat) (p : Promise E A) (q : Promise E B)
  : bool :=
  if (t1 <? t2)%nat then true
  else if (t2 <? t1)%nat then false
  else first_job p q.

(** [Promise.all([p, q])], called at the instant [now]: the pair of the two
    values once both have resolved, the first rejection otherwise. *)
Definition Promise_all {A B : Type} (now : nat) (p : Promise E A) (q : Promise E B)
  : Promise E (A * B) :=
  match adopt now p, adopt now q with
  | Settled t1 (Resolved a), Settled t2 (Resolved b) =>
      Settled (Nat.max t1 t2) (Resolved (a, b))
  | Settled t1 (Rejected e1), Settled t2 (Rejected e2) =>
      if settles_first t1 t2 p q then Settled t1 (Rejected e1) else Settled t2 (Rejected e2)
  | Settled t1 (Rejected e1), _ => Settled t1 (Rejected e1)
  | _, Settled t2 (Rejected e2) => Settled t2 (Rejected e2)
  | _, _ => Pending
  end.

(** [Promise.race([p, q])], called at the instant [now]: whichever settles
    first. *)
Definition Promise_race {A : Type} (now : nat) (p q : Promise E A) : Promise E A :=
  match adopt now p, adopt now q with
  | Settled t1 how1, Settled t2 how2 =>
      if settles_first t1 t2 p q then Settled t1 how1 else Settled t2 how2
  | Settled t1 how1, Pending => Settled t1 how1
  | Pending, q' => q'
  end.

(** [new Promise(resolve => setTimeout(() => { body }, millis))], created
    at [now]: [body] runs at [now + millis] and yields the promise whose
    fulfilment calls [resolve].  An exception of [body] is lost in the
    timer, and nothing ever rejects the new promise. *)
Definition Promise_after_timeout {A : Type} (now millis : nat)
    (body : nat -> Completion E (Promise E A)) : Promise E A :=
  match body (now + millis)%nat with
  | Throws _ => Pending
  | Returns Pending => Pending
  | Returns (Settled _ (Rejected _)) => Pending
  | Returns (Settled at_ (Resolved a)) => Settled (Nat.max (now + millis) at_) (Resolved a)
  end.


(** The promise does not reject. *)
Definition unrejected {A : Type} (p : Promise E A) : Prop :=
  forall at_ e, p <> Settled at_ (Rejected e).

(** The promise resolves with a value. *)
Definition resolved {A : Type} (p : Promise E A) : Prop :=
  exists at_ a, p = Settled at_ (Resolved a).
End host.
End Promises.

(** ** The [Task] module *)

Module Semigroup.
Record Semigroup (E A : Type) := { concat : A -> A -> Promises.Completion E A }.
Arguments concat {E A} _ _ _.
End Semigroup.

Module TaskMonoid.
Record Monoid (E A : Type) :=
  { concat : A -> A -> Promises.Completion E A; empty : A }.
Arguments concat {E A} _ _ _.
Arguments empty {E A} _.
End TaskMonoid.

Module Task.
Import Promises.

Section defs.
Context {E : Type} `{JobOrder E}.

(** [interface Task<A> { (): Promise<A> }]: the promise a call yields,
    given the instant of the call. *)
Definition Task (A : Type) : Type := nat -> Completion E (Promise E A).

(** [interface IO<A> { (): A }] *)
Definition IO (A : Type) : Type := unit -> Completion E A.

Definition never {A : Type} : Task A := fun _ => Returns Pending.

Definition getSemigroup {A : Type} `{Thenable E A} (S : Semigroup.Semigroup E A)
  : Semigroup.Semigroup E (Task A) :=
  {| Semigroup.concat := fun x y => Returns (fun now =>
       match x now with
       | Throws e => Throws e
       | Returns px =>
           Returns (then_ now px (fun now rx =>
             match y now with
             | Throws e => Throws e
             | Returns py =>
                 Returns (then_ now py (plain (fun ry => Semigroup.concat S rx ry)))
             end))
       end) |}.

Definition of_ {A : Type} `{Thenable E A} (a : A) : Task A :=
  fun now => Returns (Promise_resolve now a).

Definition getMonoid {A : Type} `{Thenable E A} (M : TaskMonoid.Monoid E A)
  : TaskMonoid.Monoid E (Task A) :=
  {| TaskMonoid.concat :=
       Semigroup.concat (getSemigroup {| Semigroup.concat := TaskMonoid.concat M |});
     TaskMonoid.empty := of_ (TaskMonoid.empty M) |}.

Definition getRaceMonoid {A : Type} : TaskMonoid.Monoid E (Task A) :=
  {| TaskMonoid.concat := fun x y => Returns (fun now =>
       match x now with
       | Throws e => Throws e
       | Returns px =>
           match y now with
           | Throws e => Throws e
           | Returns py => Returns (Promise_race now px py)
           end
       end);
     TaskMonoid.empty := never |}.

Definition delay {A : Type} (millis : nat) (ma : Task A) : Task A :=
  fun now => Returns (Promise_after_timeout now millis (fun now => ma now)).

Definition fromIO {A : Type} `{Thenable E A} (ma : IO A) : Task A :=
  fun now =>
    match ma tt with
    | Throws e => Throws e
    | Returns a => Returns (Promise_resolve now a)
    end.

Definition ap {A B : Type} `{Thenable E B} (fa : Task A) (fab : Task (A -> Completion E B))
  : Task B :=
  fun now =>
    match fab now with
    | Throws e => Throws e
    | Returns pf =>
        match fa now with
        | Throws e => Throws e
        | Returns pa =>
            Returns (then_ now (Promise_all now pf pa) (plain (fun '(f, a) => f a)))
        end
    end.

Definition chain {A B : Type} (f : A -> Completion E (Task B)) (ma : Task A) : Task B :=
  fun now =>
    match ma now with
    | Throws e => Throws e
    | Returns p =>
        Returns (then_ now p (fun now a =>
          match f a with
          | Throws e => Throws e
          | Returns mb => mb now
          end))
    end.

Definition map {A B : Type} `{Thenable E B} (f : A -> Completion E B) (fa : Task A)
  : Task B :=
  fun now =>
    match fa now with
    | Throws e => Throws e
    | Returns p => Returns (then_ now p (plain f))
    end.

(** ** What the claims say about a task *)

Definition never_throws {A B : Type} (f : A -> Completion E B) : Prop :=
  forall a, exists b, f a = Returns b.

(** Every call yields a promise, and that promise does not reject. *)
Definition never_rejects {A : Type} (x : Task A) : Prop :=
  forall now, exists p, x now = Returns p /\ forall at_ e, p <> Settled at_ (Rejected e).

(** Every call yields a promise that resolves with a value. *)
Definition always_resolves {A : Type} (x : Task A) : Prop :=
  forall now, exists at_ a, x now = Returns (Settled at_ (Resolved a)).

(** What is known of the values that are promises: [a] is no promise, or
    the promise it is satisfies [value]. *)
Definition promised (value : forall A : Type, Promise E A -> Prop)
    {A : Type} `{Thenable E A} (a : A) : Prop :=
  forall q, thenable a = Some q -> value A q.

(** The tasks built with [of], [map], [chain], [ap], [delay] and [fromIO]
    from component tasks that satisfy [component], from functions that
    never throw, and from values (those handed to [of], and those the
    functions and the [IO]s return) whose promises satisfy [value]. *)
Inductive Built (component : forall A : Type, Task A -> Prop)
    (value : forall A : Type, Promise E A -> Prop)
  : forall A : Type, Task A -> Prop :=
| Built_component (A : Type) (x : Task A) :
    component A x -> Built component value A x
| Built_of (A : Type) (T : Thenable E A) (a : A) :
    promised value a -> Built component value A (of_ a)
| Built_map (A B : Type) (T : Thenable E B) (f : A -> Completion E B) (fa : Task A) :
    never_throws f -> (forall a b, f a = Returns b -> promised value b) ->
    Built component value A fa -> Built component value B (map f fa)
| Built_chain (A B : Type) (f : A -> Completion E (Task B)) (g : A -> Task B)
    (ma : Task A) :
    (forall a, f a = Returns (g a)) ->
    (forall a, Built component value B (g a)) ->
    Built component value A ma -> Built component value B (chain f ma)
| Built_ap (A B : Type) (T : Thenable E B) (fa : Task A)
    (fab : Task (A -> Completion E B)) :
    (forall now at_ f, fab now = Returns (Settled at_ (Resolved f)) ->
       never_throws f /\ forall a b, f a = Returns b -> promised value b) ->
    Built component value A fa -> Built component value (A -> Completion E B) fab ->
    Built component value B (ap fa fab)
| Built_delay (A : Type) (millis : nat) (ma : Task A) :
    Built component value A ma -> Built component value A (delay millis ma)
| Built_fromIO (A : Type) (T : Thenable E A) (ma : IO A) :
    (exists a, ma tt = Returns a /\ promised value a) ->
    Built component value A (fromIO ma).
End defs.
End Task.

(** ** Reference functions the theorems compare the code with *)

Module Reference.
(** The running results of a left fold. *)
Fixpoint scan {A B : Type} (f : B -> A -> B) (b : B) (as_ : list A) : list B :=
  b :: match as_ with
       | [] => []
       | a :: as_ => scan f (f b a) as_
       end.

End Reference.

(** ** Sample data for the closed instances of the theorems

    Arrays of integers; a cell that was never written reads as [0], and a
    missing row as the empty row.  No instance below reads either. *)

Module Sample.
#[export] Instance undefined_Z : Undefined Z := 0.
#[export] Instance undefined_row : Undefined (list Z) := [].
#[export] Instance undefined_rows : Undefined (list (list Z)) := [].

(** [ordNumber.compare] *)
Definition ordNumber : Ord.Ord Z :=
  {| Ord.equals := Z.eqb;
     Ord.compare := fun x y => if x <? y then -1 else if y <? x then 1 else 0 |}.

(** A stable sort for the host's [sort]. *)
Definition sorted_by (compare : Z -> Z -> Z) (xs : list Z) : list Z :=
  merge_sort (fun x y => compare x y <= 0) (H := fun x y => Z.le_dec (compare x y) 0) xs.

(** The store with the one array [[3, 1, 2]]. *)
Definition store312 : gmap positive (list Z) := {[ 1%positive := [3; 1; 2] ]}.



(** [unfold] step that counts down to zero. *)
Definition countdown (n : Z) : option (Z * Z) :=
  if 0 <? n then Some (n, n - 1) else None.


(** Numbers with the two zeros of the host: [integer 0] is [+0]. *)
Inductive float : Type :=
| integer (n : Z)
| negative_zero.

#[export] Instance undefined_float : Undefined float := integer 0.
#[export] Instance undefined_floats : Undefined (list float) := [].

(** [===] on these numbers: the two zeros are equal. *)
Definition strict_eq_float (x y : float) : bool :=
  match x, y with
  | integer n, integer m => n =? m
  | integer n, negative_zero => n =? 0
  | negative_zero, integer m => m =? 0
  | negative_zero, negative_zero => true
  end.

(** Numbers are not promises, nor are the functions on numbers. *)
#[export] Instance thenable_Z : Promises.Thenable unit Z := fun _ => None.
#[export] Instance thenable_fun
  : Promises.Thenable unit (Z -> Promises.Completion unit Z) := fun _ => None.

(** A job queue that serves the settlements of one instant in the order in
    which the promises are listed, and one that serves them in the
    opposite order. *)
Definition listed_first : Promises.JobOrder unit := fun _ _ _ _ => true.
Definition listed_last : Promises.JobOrder unit := fun _ _ _ _ => false.
#[export] Existing Instance listed_first.

(** Values that are numbers or promises for such values. *)
#[warnings="-register-all"]
Inductive value : Type :=
| number (n : Z)
| promise (p : Promises.Promise unit value).

#[export] Instance thenable_value : Promises.Thenable unit value :=
  fun v => match v with promise p => Some p | number _ => None end.

(** [Promise.reject(undefined)] as a value. *)
Definition rejected_promise : value :=
  promise (Promises.Settled 0 (Promises.Rejected tt)).

End Sample.

(** ** More of the host: loops that can be left early, downward loops and
    the array methods that pass the index to their callback *)

Module HostMore.
(** [for (var i = from; i < from + rounds; i++) body], where the body
    either goes on with new values of the variables ([inl]) or leaves the
    loop with a result ([inr]: a [return] or a [break]). *)
Fixpoint for_exit {S R : Type} (rounds from : nat) (body : nat -> S -> S + R) (s : S)
  : S + R :=
  match rounds with
  | O => inl s
  | Datatypes.S rounds =>
      match body from s with
      | inl s' => for_exit rounds (Datatypes.S from) body s'
      | inr r => inr r
      end
  end.

(** [for (var i = n - 1; i >= 0; i--) body], with a body that may leave. *)
Fixpoint for_down_exit {S R : Type} (n : nat) (body : nat -> S -> S + R) (s : S)
  : S + R :=
  match n with
  | O => inl s
  | Datatypes.S i =>
      match body i s with
      | inl s' => for_down_exit i body s'
      | inr r => inr r
      end
  end.

(** [for (var i = n - 1; i >= 0; i--) body] *)
Fixpoint for_down {S : Type} (n : nat) (body : nat -> S -> S) (s : S) : S :=
  match n with
  | O => s
  | Datatypes.S i => for_down i body (body i s)
  end.

(** [for (var j = from; j < to; j++) body] *)
Definition for_from {S : Type} (from to : nat) (body : nat -> S -> S) (s : S) : S :=
  fold_left (fun s j => body j s) (seq from (to - from)) s.

(** [xs.map((x, i) => cb(x, i))] *)
Definition Array_map_i {A B : Type} (cb : A -> nat -> B) (xs : list A) : list B :=
  imap (fun i x => cb x i) xs.

(** [xs.filter((x, i) => cb(x, i))] *)
Definition Array_filter_i {A : Type} (cb : A -> nat -> bool) (xs : list A) : list A :=
  List.map snd (List.filter (fun ix => cb ix.2 ix.1) (imap (fun i x => (i, x)) xs)).

(** [xs.every((x, i) => cb(x, i))] *)
Definition Array_every_i {A : Type} (cb : A -> nat -> bool) (xs : list A) : bool :=
  forallb (fun ix => cb ix.2 ix.1) (imap (fun i x => (i, x)) xs).

(** [xs.reduce((b, x, i) => cb(b, x, i), init)] *)
Definition Array_reduce_i {A B : Type} (cb : B -> A -> nat -> B) (init : B) (xs : list A)
  : B :=
  fold_left (fun b ix => cb b ix.2 ix.1) (imap (fun i x => (i, x)) xs) init.

(** [xs.reduceRight((b, x, i) => cb(b, x, i), init)] *)
Definition Array_reduceRight_i {A B : Type} (cb : B -> A -> nat -> B) (init : B)
    (xs : list A) : B :=
  fold_right (fun ix b => cb b ix.2 ix.1) init (imap (fun i x => (i, x)) xs).

(** Host numbers are doubles.  [to_double z] is the integer a number holds
    when the exact result of an addition or subtraction of integers is
    [z]: [z] itself up to [2 ^ 53] in magnitude, and beyond that the
    nearest multiple of the spacing of the doubles of that size, the one
    with the even mantissa when [z] lies half way.  (Overflow to
    [Infinity] is left out.) *)
Definition to_double (z : Z) : Z :=
  let a := Z.abs z in
  if a <=? 2 ^ 53 then z
  else
    let e := Z.log2 a - 52 in
    let q := a / 2 ^ e in
    let r := a mod 2 ^ e in
    let half := 2 ^ (e - 1) in
    let q := if r <? half then q
             else if half <? r then q + 1
             else if Z.even q then q else q + 1 in
    Z.sgn z * (q * 2 ^ e).

(** [len + n] for the length [len] of an array and an integer [n < 0].  A
    sum that is not negative is an index of the array and exact; a
    negative sum is rounded. *)
Definition length_plus (len : nat) (n : Z) : Z :=
  let sum := Z.of_nat len + n in
  if 0 <=? sum then sum else to_double sum.
End HostMore.

(** ** The interfaces of [./Eq] and [./Either], and the records the array
    module returns *)

Module Eq.
Record Eq (A : Type) := { equals : A -> A -> bool }.
Arguments equals {A} _ _ _.
End Eq.

Module Either.
Inductive Either (E A : Type) : Type :=
| Left (left : E)
| Right (right : A).
Arguments Left {E A} left.
Arguments Right {E A} right.
End Either.

Module Span.
Record Span (A : Type) := { init : list A; rest : list A }.
Arguments init {A} _.
Arguments rest {A} _.
End Span.

Module Separated.
Record Separated (A B : Type) := { left : A; right : B }.
Arguments left {A B} _.
Arguments right {A B} _.
End Separated.

(** ** The rest of [es6/ReadonlyArray.js], on array contents *)

Module ReadonlyArrayRest.
Import Host HostMore ReadonlyArray.

Section construct.
Context {A : Type} `{Undefined A}.

Definition fromArray (as_ : list A) : list A :=
  let l := length as_ in
  if (l =? 0)%nat then empty
  else
    let ras := Array_ l in
    let ras := for_ l (fun i ras => set ras i (get as_ i)) ras in
    ras.

Definition toArray (ras : list A) : list A :=
  let l := length ras in
  let as_ := Array_ l in
  let as_ := for_ l (fun i as_ => set as_ i (get ras i)) as_ in
  as_.

(** [n] is an integer: the test [i < n] lets [Z.to_nat n] rounds through. *)
Definition makeBy (n : Z) (f : Z -> A) : list A :=
  let r := [] in
  let r := for_ (Z.to_nat n) (fun i r => push r (f (Z.of_nat i))) r in
  r.

Definition replicate (n : Z) (a : A) : list A :=
  makeBy n (fun _ => a).

Definition foldLeft {B : Type} (onNil : unit -> B) (onCons : A -> list A -> B)
    (as_ : list A) : B :=
  if isEmpty as_ then onNil tt else onCons (get as_ 0) (slice as_ 1 None).

Definition foldRight {B : Type} (onNil : unit -> B) (onCons : list A -> A -> B)
    (as_ : list A) : B :=
  if isEmpty as_ then onNil tt
  else onCons (slice as_ 0 (Some (Z.of_nat (length as_) - 1)))
              (index as_ (Z.of_nat (length as_) - 1)).

Definition head (as_ : list A) : option A :=
  if isEmpty as_ then None else Some (get as_ 0).

Definition last (as_ : list A) : option A :=
  lookup (Z.of_nat (length as_) - 1) as_.

Definition tail (as_ : list A) : option (list A) :=
  if isEmpty as_ then None else Some (slice as_ 1 None).

Definition init (as_ : list A) : option (list A) :=
  let len := length as_ in
  if (len =? 0)%nat then None else Some (slice as_ 0 (Some (Z.of_nat len - 1))).

Definition takeLeft (n : Z) (as_ : list A) : list A :=
  slice as_ 0 (Some n).

Definition takeRight (n : Z) (as_ : list A) : list A :=
  if n =? 0 then empty else slice as_ (- n) None.

Definition spanIndexUncurry (as_ : list A) (predicate : A -> bool) : nat :=
  let l := length as_ in
  match for_exit l 0 (fun i (_ : unit) =>
          if negb (predicate (get as_ i)) then inr i else inl tt) tt with
  | inl _ => l
  | inr i => i
  end.

Definition takeLeftWhile (predicate : A -> bool) (as_ : list A) : list A :=
  let i := spanIndexUncurry as_ predicate in
  let init := Array_ i in
  let init := for_ i (fun j init => set init j (get as_ j)) init in
  init.

Definition spanLeft (predicate : A -> bool) (as_ : list A) : Span.Span A :=
  let i := spanIndexUncurry as_ predicate in
  let init := Array_ i in
  let init := for_ i (fun j init => set init j (get as_ j)) init in
  let l := length as_ in
  let rest := Array_ (l - i) in
  let rest := for_from i l (fun j rest => set rest (j - i) (get as_ j)) rest in
  {| Span.init := init; Span.rest := rest |}.

Definition dropLeft (n : Z) (as_ : list A) : list A :=
  slice as_ n (Some (Z.of_nat (length as_))).

Definition dropRight (n : Z) (as_ : list A) : list A :=
  slice as_ 0 (Some (Z.of_nat (length as_) - n)).

Definition dropLeftWhile (predicate : A -> bool) (as_ : list A) : list A :=
  let i := spanIndexUncurry as_ predicate in
  let l := length as_ in
  let rest := Array_ (l - i) in
  let rest := for_from i l (fun j rest => set rest (j - i) (get as_ j)) rest in
  rest.

Definition findIndex (predicate : A -> bool) (as_ : list A) : option nat :=
  let len := length as_ in
  match for_exit len 0 (fun i (_ : unit) =>
          if predicate (get as_ i) then inr (Some i) else inl tt) tt with
  | inl _ => None
  | inr result => result
  end.

Definition findFirst (predicate : A -> bool) (as_ : list A) : option A :=
  let len := length as_ in
  match for_exit len 0 (fun i (_ : unit) =>
          if predicate (get as_ i) then inr (Some (get as_ i)) else inl tt) tt with
  | inl _ => None
  | inr result => result
  end.

Definition findFirstMap {B : Type} (f : A -> option B) (as_ : list A) : option B :=
  let len := length as_ in
  match for_exit len 0 (fun i (_ : unit) =>
          let v := f (get as_ i) in
          if is_Some_dec v then inr v else inl tt) tt with
  | inl _ => None
  | inr result => result
  end.

Definition findLast (predicate : A -> bool) (as_ : list A) : option A :=
  let len := length as_ in
  match for_down_exit len (fun i (_ : unit) =>
          if predicate (get as_ i) then inr (Some (get as_ i)) else inl tt) tt with
  | inl _ => None
  | inr result => result
  end.

Definition findLastMap {B : Type} (f : A -> option B) (as_ : list A) : option B :=
  let len := length as_ in
  match for_down_exit len (fun i (_ : unit) =>
          let v := f (get as_ i) in
          if is_Some_dec v then inr v else inl tt) tt with
  | inl _ => None
  | inr result => result
  end.

Definition findLastIndex (predicate : A -> bool) (as_ : list A) : option nat :=
  let len := length as_ in
  match for_down_exit len (fun i (_ : unit) =>
          if predicate (get as_ i) then inr (Some i) else inl tt) tt with
  | inl _ => None
  | inr result => result
  end.
End construct.

(** [start], [end] and the index [i] are numbers that hold integers; each
    sum and difference is rounded as the host rounds it. *)
Definition range (start end_ : Z) : list Z :=
  makeBy (to_double (to_double (end_ - start) + 1)) (fun i => to_double (start + i)).

Section scans.
Context {A B : Type} `{Undefined A} `{Undefined B}.

Definition scanRight (b : B) (f : A -> B -> B) (as_ : list A) : list B :=
  let l := length as_ in
  let r := Array_ (l + 1) in
  let r := set r l b in
  let r := for_down l (fun i r => set r i (f (get as_ i) (get r (i + 1)))) r in
  r.

Definition reduceRightWithIndex (b : B) (f : nat -> A -> B -> B) (fa : list A) : B :=
  Array_reduceRight_i (fun b a i => f i a b) b fa.

Definition reduceRight (b : B) (f : A -> B -> B) : list A -> B :=
  reduceRightWithIndex b (fun _ a b => f a b).
End scans.

Section eithers.
Context {E A : Type} `{Undefined (Either.Either E A)}.

Definition rights (as_ : list (Either.Either E A)) : list A :=
  let r := [] in
  let len := length as_ in
  let r := for_ len (fun i r =>
    let a := get as_ i in
    match a with
    | Either.Right right_ => push r right_
    | Either.Left _ => r
    end) r in
  r.

Definition lefts (as_ : list (Either.Either E A)) : list E :=
  let r := [] in
  let len := length as_ in
  let r := for_ len (fun i r =>
    let a := get as_ i in
    match a with
    | Either.Left left_ => push r left_
    | Either.Right _ => r
    end) r in
  r.

Definition separate (fa : list (Either.Either E A))
  : Separated.Separated (list E) (list A) :=
  let left_ := [] in
  let right_ := [] in
  let '(left_, right_) := for_ (length fa) (fun _i '(left_, right_) =>
    let e := get fa _i in
    match e with
    | Either.Left l => (push left_ l, right_)
    | Either.Right r => (left_, push right_ r)
    end) (left_, right_) in
  {| Separated.left := left_; Separated.right := right_ |}.
End eithers.

Section zips.
Context {A B C : Type} `{Undefined A} `{Undefined B} `{Undefined C} `{Undefined (A * B)}.

Definition zipWith (fa : list A) (fb : list B) (f : A -> B -> C) : list C :=
  let fc := [] in
  let len := Nat.min (length fa) (length fb) in
  let fc := for_ len (fun i fc => set fc i (f (get fa i) (get fb i))) fc in
  fc.

(** A pair [[a, b]] is a Rocq pair. *)
Definition unzip (as_ : list (A * B)) : list A * list B :=
  let fa := [] in
  let fb := [] in
  let '(fa, fb) := for_ (length as_) (fun i '(fa, fb) =>
    (set fa i (get as_ i).1, set fb i (get as_ i).2)) (fa, fb) in
  (fa, fb).
End zips.

Definition zip {A B : Type} `{Undefined A} `{Undefined B} `{Undefined (A * B)}
    (fa : list A) (fb : list B) : list (A * B) :=
  zipWith fa fb (fun a b => (a, b)).

Section sets.
Context {A : Type} `{Undefined A}.

(** [fuel] bounds the depth of the recursion on a negative [n].  The sum
    [len + n] is rounded as the host rounds it; the other operations on [n]
    are exact, or hand [slice] an index that it clamps all the same. *)
Fixpoint rotate (fuel : nat) (n : Z) (as_ : list A) : option (list A) :=
  match fuel with
  | O => None
  | S fuel =>
      let len := length as_ in
      if (n =? 0) || (len <=? 1)%nat || (Z.of_nat len =? Z.abs n) then Some as_
      else if n <? 0 then rotate fuel (length_plus len n) as_
      else Some (slice as_ (- n) None ++ slice as_ 0 (Some (Z.of_nat len - n)))
  end.

Definition elem (E : Eq.Eq A) (a : A) (as_ : list A) : bool :=
  let predicate := fun element => Eq.equals E element a in
  let len := length as_ in
  match for_exit len 0 (fun i (_ : unit) =>
          if predicate (get as_ i) then inr true else inl tt) tt with
  | inl _ => false
  | inr result => result
  end.

Definition uniq (E : Eq.Eq A) (as_ : list A) : list A :=
  let elemS := elem E in
  let r := [] in
  let len := length as_ in
  let r := for_ len (fun i r =>
    let a := get as_ i in
    if negb (elemS a r) then push r a else r) r in
  if (len =? length r)%nat then as_ else r.

(** [fa.filter(predicate)] of the host is [List.filter] on a dense array. *)
Definition filter (predicate : A -> bool) (fa : list A) : list A :=
  List.filter predicate fa.

Definition union (E : Eq.Eq A) (xs ys : list A) : list A :=
  let elemE := elem E in
  concat xs (List.filter (fun a => negb (elemE a xs)) ys).

Definition intersection (E : Eq.Eq A) (xs ys : list A) : list A :=
  let elemE := elem E in
  List.filter (fun a => elemE a ys) xs.

Definition difference (E : Eq.Eq A) (xs ys : list A) : list A :=
  let elemE := elem E in
  List.filter (fun a => negb (elemE a ys)) xs.

Definition partitionWithIndex_ (predicateWithIndex : nat -> A -> bool) (fa : list A)
  : Separated.Separated (list A) (list A) :=
  let left_ := [] in
  let right_ := [] in
  let '(left_, right_) := for_ (length fa) (fun i '(left_, right_) =>
    let a := get fa i in
    if predicateWithIndex i a then (left_, push right_ a) else (push left_ a, right_))
    (left_, right_) in
  {| Separated.left := left_; Separated.right := right_ |}.

Definition zero_ (_ : unit) : list A := empty.

Definition filterWithIndex_ (fa : list A) (predicateWithIndex : nat -> A -> bool)
  : list A :=
  Array_filter_i (fun a i => predicateWithIndex i a) fa.

Definition alt (that : unit -> list A) (fa : list A) : list A :=
  concat fa (that tt).

Definition partition (predicate : A -> bool) (fa : list A)
  : Separated.Separated (list A) (list A) :=
  pipe fa (partitionWithIndex_ (fun _ a => predicate a)).

Definition partitionWithIndex (predicateWithIndex : nat -> A -> bool) (fa : list A)
  : Separated.Separated (list A) (list A) :=
  pipe fa (partitionWithIndex_ predicateWithIndex).

Definition filterWithIndex (predicateWithIndex : nat -> A -> bool) (fa : list A)
  : list A :=
  filterWithIndex_ fa predicateWithIndex.
End sets.

Section maps.
Context {A B : Type} `{Undefined A} `{Undefined B} `{Undefined (list B)}.

Definition partitionMapWithIndex_ {E : Type} (fa : list A)
    (f : nat -> A -> Either.Either E B) : Separated.Separated (list E) (list B) :=
  let left_ := [] in
  let right_ := [] in
  let '(left_, right_) := for_ (length fa) (fun i '(left_, right_) =>
    let e := f i (get fa i) in
    match e with
    | Either.Left l => (push left_ l, right_)
    | Either.Right r => (left_, push right_ r)
    end) (left_, right_) in
  {| Separated.left := left_; Separated.right := right_ |}.

Definition filterMapWithIndex_ (f : nat -> A -> option B) (fa : list A) : list B :=
  let result := [] in
  let result := for_ (length fa) (fun i result =>
    let optionB := f i (get fa i) in
    match optionB with
    | Some value => push result value
    | None => result
    end) result in
  result.

Definition ap (fa : list A) (fab : list (A -> B)) : list B :=
  flatten (pipe fab (map (fun f => pipe fa (map f)))).

Definition mapWithIndex (f : nat -> A -> B) (fa : list A) : list B :=
  Array_map_i (fun a i => f i a) fa.

Definition filterMap (f : A -> option B) : list A -> list B :=
  filterMapWithIndex_ (fun _ a => f a).

Definition partitionMap {E : Type} (f : A -> Either.Either E B) (fa : list A)
  : Separated.Separated (list E) (list B) :=
  partitionMapWithIndex_ fa (fun _ a => f a).

Definition partitionMapWithIndex {E : Type} (f : nat -> A -> Either.Either E B)
    (fa : list A) : Separated.Separated (list E) (list B) :=
  partitionMapWithIndex_ fa f.

Definition filterMapWithIndex : (nat -> A -> option B) -> list A -> list B :=
  filterMapWithIndex_.

Definition extend (f : list A -> B) (wa : list A) : list B :=
  Array_map_i (fun _ i => f (slice wa (Z.of_nat i) None)) wa.

Definition foldMapWithIndex (M : Monoid.Monoid B) (f : nat -> A -> B) (fa : list A) : B :=
  Array_reduce_i (fun b a i => Monoid.concat M b (f i a)) (Monoid.empty M) fa.

Definition foldMap (M : Monoid.Monoid B) (f : A -> B) : list A -> B :=
  let foldMapWithIndexM := foldMapWithIndex M in
  foldMapWithIndexM (fun _ a => f a).
End maps.

Definition compact {A : Type} `{Undefined (option A)} : list (option A) -> list A :=
  filterMap identity.

Definition duplicate {A : Type} : list A -> list (list A) :=
  extend identity.

Section applys.
Context {A B : Type} `{Undefined A} `{Undefined B} `{Undefined (list A)}
  `{Undefined (list B)}.

Definition apFirst (fb : list B) (fa : list A) : list A :=
  pipe (pipe fa (map (fun a => fun _ : B => a))) (ap fb).

Definition apSecond (fb : list B) (fa : list A) : list B :=
  pipe (pipe fa (map (fun _ => fun b : B => b))) (ap fb).

Definition chainFirst (f : A -> list B) : list A -> list A :=
  chain (fun a => pipe (f a) (map (fun _ => a))).
End applys.
End ReadonlyArrayRest.

(** ** The interfaces of [./Show] and [./Applicative] *)

Module Show.
Record Show (A : Type) := { show : A -> String.string }.
Arguments show {A} _ _.
End Show.

Module Applicative.
Record Applicative (F : Type -> Type) :=
  { of_ : forall A : Type, A -> F A;
    map : forall A B : Type, (A -> B) -> F A -> F B;
    ap : forall A B : Type, F A -> F (A -> B) -> F B }.
Arguments of_ {F} _ {A} _.
Arguments map {F} _ {A B} _ _.
Arguments ap {F} _ {A B} _ _.
End Applicative.

(** ** The functions of [es6/ReadonlyArray.js] that take an instance of
    [Show], [Ord] or [Applicative] *)

Module ReadonlyArrayClasses.
Import Host HostMore ReadonlyArray.

Section shows.
Context {A : Type}.
Import String.
Local Open Scope string_scope.

Definition getShow (S : Show.Show A) : Show.Show (list A) :=
  {| Show.show := fun as_ =>
       String.append "["
         (String.append (String.concat ", " (List.map (Show.show S) as_)) "]") |}.
End shows.

Section ords.
Context {A : Type} `{Undefined A}.

(** [fromCompare] and [ordNumber], imported from [./Ord]. *)
Variable fromCompare : (list A -> list A -> Z) -> Ord.Ord (list A).
Variable ordNumber : Ord.Ord Z.

Definition getOrd (O : Ord.Ord A) : Ord.Ord (list A) :=
  fromCompare (fun a b =>
    let aLen := length a in
    let bLen := length b in
    let len := Nat.min aLen bLen in
    match for_exit len 0 (fun i (_ : unit) =>
            let ordering := Ord.compare O (get a i) (get b i) in
            if negb (ordering =? 0) then inr ordering else inl tt) tt with
    | inr ordering => ordering
    | inl _ => Ord.compare ordNumber (Z.of_nat aLen) (Z.of_nat bLen)
    end).
End ords.

Section traversals.
Context {F : Type -> Type} (AF : Applicative.Applicative F).
Context {A B C : Type} `{Undefined A} `{Undefined B} `{Undefined (F A)}
  `{Undefined (option B)} `{Undefined (Either.Either B C)}.

Definition traverseWithIndex (f : nat -> A -> F B) (ta : list A) : F (list B) :=
  pipe ta (reduceWithIndex (Applicative.of_ AF (ReadonlyArrayRest.zero_ tt))
    (fun i fbs a =>
       pipe (pipe fbs (Applicative.map AF (fun bs => fun b => snoc bs b)))
         (Applicative.ap AF (f i a)))).

Definition traverse (f : A -> F B) : list A -> F (list B) :=
  let traverseWithIndexF := traverseWithIndex in
  traverseWithIndexF (fun _ a => f a).

Definition sequence (ta : list (F A)) : F (list A) :=
  pipe ta (reduce (Applicative.of_ AF (ReadonlyArrayRest.zero_ tt))
    (fun fas fa =>
       pipe (pipe fas (Applicative.map AF (fun as_ => fun a => snoc as_ a)))
         (Applicative.ap AF fa))).
End traversals.

Section withers.
Context {F : Type -> Type} (AF : Applicative.Applicative F).
Context {A B C : Type} `{Undefined A} `{Undefined B} `{Undefined (option B)}
  `{Undefined (Either.Either B C)}.

Definition wither (f : A -> F (option B)) (wa : list A) : F (list B) :=
  let traverseF := traverse AF in
  pipe (pipe wa (traverseF f)) (Applicative.map AF ReadonlyArrayRest.compact).

Definition wilt (f : A -> F (Either.Either B C)) (wa : list A)
  : F (Separated.Separated (list B) (list C)) :=
  let traverseF := traverse AF in
  pipe (pipe wa (traverseF f)) (Applicative.map AF ReadonlyArrayRest.separate).
End withers.
End ReadonlyArrayClasses.

(** ** More of [es6/ReadonlyArray.js], on array references *)

Module ReadonlyArrayStoreRest.
Import Host HostMore ReadonlyArrayStore.

Section sorting.
Context {A : Type} `{Undefined A} `{Undefined (list A)}.

(** Host's sorting algorithm, and [getMonoid] of [./Ord]. *)
Variable sorted_by : (A -> A -> Z) -> list A -> list A.
Variable getOrdMonoid : Monoid.Monoid (Ord.Ord A).

Definition sortBy (ords : list (Ord.Ord A)) : ref -> M A ref :=
  let M := getOrdMonoid in
  sort sorted_by (fold_left (Monoid.concat M) ords (Monoid.empty M)).
End sorting.

Section defs.
Context {A : Type} `{Undefined A}.

(** [getEq(E).equals(xs, ys)]; [xs === ys] compares the references. *)
Definition getEq (E : Eq.Eq A) (xs ys : ref) : M A bool :=
  do cx <- read xs ;;
  do cy <- read ys ;;
  ret ((xs =? ys)%positive
       || ((length cx =? length cy)%nat
           && Array_every_i (fun x i => Eq.equals E x (get cy i)) cx)).
End defs.
End ReadonlyArrayStoreRest.

(** ** The rest of the [Task] module *)

Module TaskRest.
Import Promises Task.

Section defs.
Context {E : Type} `{JobOrder E}.

Definition fromIOK {A B : Type} `{Thenable E B} (f : A -> Completion E (IO (E:=E) B))
  : A -> Completion E (Task (E:=E) B) :=
  fun a =>
    match f a with
    | Throws e => Throws e
    | Returns io => Returns (fromIO io)
    end.

Definition chainIOK {A B : Type} `{Thenable E B} (f : A -> Completion E (IO (E:=E) B))
  : Task A -> Task B :=
  chain (fromIOK f).

Definition apFirst {A B : Type} `{Thenable E A} `{Thenable E (B -> Completion E A)}
    (fb : Task (E:=E) B) (fa : Task A) : Task A :=
  ap fb (map (fun a => Returns (fun _ : B => Returns a)) fa).

Definition apSecond {A B : Type} `{Thenable E B} `{Thenable E (B -> Completion E B)}
    (fb : Task (E:=E) B) (fa : Task A) : Task B :=
  ap fb (map (fun _ : A => Returns (fun b : B => Returns b)) fa).

Definition chainFirst {A B : Type} `{Thenable E A} (f : A -> Completion E (Task (E:=E) B))
  : Task A -> Task A :=
  chain (fun a =>
    match f a with
    | Throws e => Throws e
    | Returns mb => Returns (map (fun _ => Returns a) mb)
    end).

Definition flatten {A : Type} : Task (E:=E) (Task (E:=E) A) -> Task A :=
  chain (fun mma => Returns mma).

(** [monadTaskSeq.ap] *)
Definition monadTaskSeq_ap {A B : Type} `{Thenable E B} (fa : Task (E:=E) A)
    (fab : Task (A -> Completion E B)) : Task B :=
  fun now =>
    match fab now with
    | Throws e => Throws e
    | Returns pf =>
        Returns (then_ now pf (fun now f =>
          match fa now with
          | Throws e => Throws e
          | Returns pa => Returns (then_ now pa (plain f))
          end))
    end.
End defs.
End TaskRest.

(** ** More reference functions *)

Module ReferenceRest.
(** The running results of a right fold, the fold of the whole list first. *)
Fixpoint scanr {A B : Type} (f : A -> B -> B) (b : B) (as_ : list A) : list B :=
  match as_ with
  | [] => [b]
  | a :: as_ => f a (fold_right f b as_) :: scanr f b as_
  end.

(** The non-empty suffixes of a list, longest first. *)
Fixpoint suffixes {A : Type} (as_ : list A) : list (list A) :=
  match as_ with
  | [] => []
  | a :: as' => (a :: as') :: suffixes as'
  end.

(** No element of the list is related to a later one. *)
Fixpoint distinct {A : Type} (equals : A -> A -> bool) (as_ : list A) : Prop :=
  match as_ with
  | [] => True
  | a :: as' => (forall x, x ∈ as' -> equals a x = false) /\ distinct equals as'
  end.
End ReferenceRest.

(** ** More sample data *)

Module SampleRest.
#[export] Instance undefined_pair : Undefined (Z * Z) := (0, 0).
#[export] Instance undefined_either : Undefined (Either.Either Z Z) := Either.Left 0.
#[export] Instance undefined_option : Undefined (option Z) := None.

(** [eqNumber] *)
Definition eqNumber : Eq.Eq Z := {| Eq.equals := Z.eqb |}.

#[export] Instance undefined_options : Undefined (option (list Z)) := None.
#[export] Instance undefined_option_Z : Undefined (option (option Z)) := None.

Section strings.
Import String.
Local Open Scope string_scope.

(** [showBoolean] *)
Definition showBoolean : Show.Show bool :=
  {| Show.show := fun b : bool => if b then "true" else "false" |}.

(** What [getShow(showBoolean)] shows for [[true, false]]. *)
Definition shown_true_false : string := "[true, false]".
End strings.

(** An [Ord] made of its [compare], for [fromCompare]. *)
Definition fromCompare (compare : list Z -> list Z -> Z) : Ord.Ord (list Z) :=
  {| Ord.equals := fun x y => compare x y =? 0; Ord.compare := compare |}.

(** The applicative of [Option]. *)
Definition applicativeOption : Applicative.Applicative option :=
  {| Applicative.of_ := fun (A : Type) (a : A) => Some a;
     Applicative.map := fun (A B : Type) (f : A -> B) (fa : option A) => option_map f fa;
     Applicative.ap := fun (A B : Type) (fa : option A) (fab : option (A -> B)) =>
       match fab, fa with
       | Some f, Some a => Some (f a)
       | _, _ => None
       end |}.
End SampleRest.

Module ReadonlyArrayFacts.
Import Host HostMore ReadonlyArray Reference.

Section facts.
Context {A : Type} `{Undefined A} `{Undefined (list A)}.

Lemma for_S {S : Type} n (body : nat -> S -> S) s :
  for_ (Datatypes.S n) body s = body n (for_ n body s).
Proof. unfold for_. by rewrite seq_S, fold_left_app. Qed.

Lemma insert_middle (l1 l2 l3 : list A) (v : A) (k : nat) :
  k = (length l1 + length l2)%nat -> (0 < length l3)%nat ->
  <[k:=v]> (l1 ++ l2 ++ l3) = l1 ++ (l2 ++ [v]) ++ drop 1 l3.
Proof.
  intros -> Hl3. destruct l3 as [|d ds]; [simpl in Hl3; lia|].
  rewrite app_assoc, insert_app_r_alt by (rewrite length_app; lia).
  rewrite length_app, Nat.sub_diag. simpl. rewrite drop_0.
  by rewrite <- !app_assoc.
Qed.

Lemma for_ext {S : Type} n (f g : nat -> S -> S) s :
  (forall i s, (i < n)%nat -> f i s = g i s) -> for_ n f s = for_ n g s.
Proof.
  intros Hfg. induction n as [|n IH]; [done|].
  rewrite !for_S, IH by (intros; apply Hfg; lia). apply Hfg. lia.
Qed.

Lemma get_lookup (x : list A) (i : nat) (a : A) : x !! i = Some a -> get x i = a.
Proof. apply nth_lookup_Some. Qed.

(** Copying loop: after [n] rounds of [r[i + off] = x[i]] the cells
    [off .. off + n) of [r] hold the first [n] elements of [x]. *)
Lemma for_copy (x r : list A) (off n : nat) :
  (n <= length x)%nat -> (off + n <= length r)%nat ->
  for_ n (fun i r => set r (i + off) (get x i)) r
  = take off r ++ take n x ++ drop (off + n) r.
Proof.
  intros Hx Hr. induction n as [|n IH].
  - simpl. by rewrite Nat.add_0_r, take_drop.
  - rewrite for_S, IH by lia. unfold set.
    assert (Hlen : length (take off r ++ take n x ++ drop (off + n) r) = length r).
    { rewrite !length_app, !length_take, length_drop. lia. }
    rewrite Hlen.
    destruct (Nat.ltb_spec (n + off) (length r)) as [_|?]; [|lia].
    rewrite insert_middle.
    + destruct (lookup_lt_is_Some_2 x n ltac:(lia)) as [a Ha].
      rewrite (take_S_r x n a Ha), (get_lookup x n a Ha).
      rewrite drop_drop. do 3 f_equal. lia.
    + rewrite !length_take. lia.
    + rewrite length_drop. lia.
Qed.

Lemma for_copy0 (x r : list A) (n : nat) :
  (n <= length x)%nat -> (n <= length r)%nat ->
  for_ n (fun i r => set r i (get x i)) r = take n x ++ drop n r.
Proof.
  intros Hx Hr.
  rewrite (for_ext _ _ (fun i r => set r (i + 0) (get x i)))
    by (intros; by rewrite Nat.add_0_r).
  by rewrite for_copy, take_0.
Qed.

Lemma length_Array_ (n : nat) : length (Array_ (A:=A) n) = n.
Proof. apply length_replicate. Qed.

Lemma concat_spec (x y : list A) : concat x y = x ++ y.
Proof.
  unfold concat.
  destruct (Nat.eqb_spec (length x) 0) as [Hx|Hx].
  { by destruct x. }
  destruct (Nat.eqb_spec (length y) 0) as [Hy|Hy].
  { destruct y; [by rewrite app_nil_r|done]. }
  cbv zeta.
  rewrite for_copy0 by (rewrite ?length_Array_; lia).
  rewrite for_copy.
  - rewrite !firstn_all, take_app_length.
    rewrite drop_ge; [by rewrite app_nil_r|].
    rewrite length_app, length_drop, length_Array_. lia.
  - lia.
  - rewrite firstn_all, length_app, length_drop, length_Array_. lia.
Qed.

Lemma cons_spec (head : A) (tail : list A) : cons head tail = head :: tail.
Proof.
  unfold cons. cbv zeta.
  rewrite for_copy by (rewrite ?length_Array_; lia).
  rewrite firstn_all, drop_ge by (rewrite length_Array_; lia).
  rewrite app_nil_r. unfold Array_. by rewrite Nat.add_1_r.
Qed.

Lemma snoc_spec (init : list A) (end_ : A) : snoc init end_ = init ++ [end_].
Proof.
  unfold snoc. cbv zeta.
  rewrite for_copy0 by (rewrite ?length_Array_; lia).
  rewrite firstn_all. unfold set.
  rewrite length_app, length_drop, length_Array_.
  destruct (Nat.ltb_spec (length init) (length init + (length init + 1 - length init))) as [_|?];
    [|lia].
  rewrite insert_app_r_alt, Nat.sub_diag by lia.
  unfold Array_. rewrite Nat.add_1_r.
  rewrite (drop_replicate (length init) (Datatypes.S (length init))).
  by replace (Datatypes.S (length init) - length init)%nat with 1%nat by lia.
Qed.

Lemma length_concat_take (mma : list (list A)) (n : nat) :
  (length (List.concat (take n mma)) <= length (List.concat mma))%nat.
Proof.
  rewrite <- (take_drop n mma) at 2. rewrite List.concat_app, length_app. lia.
Qed.

Lemma for_sum_lengths (mma : list (list A)) (n : nat) :
  (n <= length mma)%nat ->
  for_ n (fun i rLen => (rLen + length (get mma i))%nat) 0%nat
  = length (List.concat (take n mma)).
Proof.
  induction n as [|n IH]; intros Hn; [done|].
  rewrite for_S, IH by lia.
  destruct (lookup_lt_is_Some_2 mma n ltac:(lia)) as [arr Harr].
  rewrite (take_S_r mma n arr Harr), List.concat_app, length_app. simpl.
  rewrite app_nil_r. f_equal. f_equal. by apply nth_lookup_Some.
Qed.

(** The copying phase shared by [flatten] and [chain]. *)
Lemma for_flatten (mma : list (list A)) (r0 : list A) (n : nat) :
  (n <= length mma)%nat -> length r0 = length (List.concat mma) ->
  for_ n (fun i '(r, start) =>
      let arr := get mma i in
      let l := length arr in
      let r := for_ l (fun j r => set r (j + start) (get arr j)) r in
      (r, (start + l)%nat)) (r0, 0%nat)
  = (List.concat (take n mma) ++ drop (length (List.concat (take n mma))) r0,
     length (List.concat (take n mma))).
Proof.
  intros Hn Hr0. induction n as [|n IH]; [by rewrite drop_0|].
  rewrite for_S, IH by lia. cbv zeta.
  destruct (lookup_lt_is_Some_2 mma n ltac:(lia)) as [arr Harr].
  assert (Hget : get mma n = arr) by (by apply nth_lookup_Some).
  rewrite Hget.
  pose proof (length_concat_take mma (Datatypes.S n)) as Hle.
  pose proof (length_concat_take mma n) as Hle'.
  rewrite (take_S_r mma n arr Harr), List.concat_app, length_app in *.
  simpl in *. rewrite app_nil_r in *.
  f_equal.
  rewrite for_copy by (rewrite ?length_app, ?length_drop; lia).
  by rewrite take_app_length, firstn_all, drop_app_add, drop_drop, app_assoc.
Qed.

Lemma flatten_spec (mma : list (list A)) : flatten mma = List.concat mma.
Proof.
  unfold flatten. cbv zeta.
  rewrite for_sum_lengths, firstn_all by lia.
  rewrite for_flatten by (rewrite ?length_Array_; lia).
  rewrite firstn_all, drop_ge by (rewrite length_Array_; lia).
  apply app_nil_r.
Qed.

Lemma for_spread_inner (a r : list A) (k n : nat) :
  for_ n (fun j '(r, k) => (set r k (get a j), (k + 1)%nat)) (r, k)
  = (for_ n (fun j r => set r (j + k) (get a j)) r, (k + n)%nat).
Proof.
  induction n as [|n IH]; [by rewrite Nat.add_0_r|].
  rewrite !for_S, IH. f_equal; [|lia]. f_equal. lia.
Qed.

Lemma __spreadArrays_spec (arguments : list (list A)) :
  __spreadArrays arguments = List.concat arguments.
Proof.
  unfold __spreadArrays. cbv zeta.
  rewrite for_sum_lengths, firstn_all by lia.
  rewrite (for_ext _ _ (fun i '(r, start) =>
      let arr := get arguments i in
      let l := length arr in
      let r := for_ l (fun j r => set r (j + start) (get arr j)) r in
      (r, (start + l)%nat))).
  2:{ intros i [r k] _. apply for_spread_inner. }
  rewrite for_flatten by (rewrite ?length_Array_; lia).
  rewrite firstn_all, drop_ge by (rewrite length_Array_; lia).
  apply app_nil_r.
Qed.

(** Total correctness of a [while] loop: an invariant [I] and a measure
    [m] that every round decreases. *)
Lemma while_total {S : Type} (cond : S -> bool) (body : S -> S)
    (I : S -> Prop) (m : S -> nat) :
  (forall s, I s -> cond s = true -> I (body s) /\ (m (body s) < m s)%nat) ->
  forall fuel s, I s -> (m s < fuel)%nat ->
  exists s', while_ fuel cond body s = Some s' /\ I s' /\ cond s' = false.
Proof.
  intros Hstep fuel. induction fuel as [|fuel IH]; intros s Hs Hm; [lia|].
  simpl. destruct (cond s) eqn:Hc; [|by exists s].
  destruct (Hstep s Hs Hc) as [HI Hlt]. apply IH; [done|lia].
Qed.

Lemma slice_prefix (as_ : list A) (n : Z) :
  0 <= n -> slice as_ 0 (Some n) = take (Z.to_nat n) as_.
Proof.
  intros Hn. unfold slice, rel_index. cbv zeta.
  destruct (Z.ltb_spec n 0) as [?|_]; [lia|].
  change (0 <? 0) with false. cbv iota.
  rewrite (Z.min_l 0) by lia. simpl. rewrite drop_0, Z.sub_0_r.
  destruct (Z.le_ge_cases n (Z.of_nat (length as_))).
  - by rewrite Z.min_l.
  - rewrite Z.min_r, Nat2Z.id, firstn_all by lia. by rewrite take_ge by lia.
Qed.

Lemma slice_suffix (as_ : list A) (n : Z) :
  0 <= n -> slice as_ n None = drop (Z.to_nat n) as_.
Proof.
  intros Hn. unfold slice, rel_index. cbv zeta.
  destruct (Z.ltb_spec n 0) as [?|_]; [lia|].
  destruct (Z.le_ge_cases n (Z.of_nat (length as_))).
  - rewrite Z.min_l by lia. apply take_ge. rewrite length_drop. lia.
  - rewrite Z.min_r, Nat2Z.id by lia. rewrite !drop_ge by lia. by rewrite take_nil.
Qed.

(** [input.slice(1)] is the tail that [comprehension] recurses on. *)
Lemma slice_tail (a : A) (as_ : list A) : slice (a :: as_) 1 None = as_.
Proof. by rewrite slice_suffix by lia. Qed.

Lemma splitAt_spec (n : Z) (as_ : list A) :
  0 <= n -> splitAt n as_ = (take (Z.to_nat n) as_, drop (Z.to_nat n) as_).
Proof. intros Hn. unfold splitAt. by rewrite slice_prefix, slice_suffix. Qed.

Lemma isNonEmpty_true (cs : list A) : isNonEmpty cs = true <-> cs <> [].
Proof.
  unfold isNonEmpty. destruct cs; simpl; [|done].
  split; [done|]. by intros [].
Qed.


(** The chunks computed by [chunksOf(n)]. *)
Lemma chunksOf_chop (n : Z) (as_ : list A) (fuel : nat) :
  1 <= n -> (length as_ < fuel)%nat ->
  exists chunks, chop fuel (splitAt n) as_ = Some chunks
    /\ List.concat chunks = as_
    /\ Forall (fun c => c <> []) chunks
    /\ Forall (fun c => Z.of_nat (length c) = n) (take (length chunks - 1) chunks).
Proof.
  intros Hn Hfuel. unfold chop. cbv zeta.
  destruct (while_total
    (fun '(_, cs) => isNonEmpty cs)
    (fun '(result, cs) => let '(b, c) := splitAt n cs in (push result b, c))
    (fun '(result, cs) =>
       List.concat result ++ cs = as_
       /\ Forall (fun c => c <> []) result
       /\ Forall (fun c => Z.of_nat (length c) = n) (take (length result - 1) result)
       /\ (cs <> [] -> Forall (fun c => Z.of_nat (length c) = n) result))
    (fun s : list (list A) * list A => length s.2)) with (fuel := fuel)
    (s := (@nil (list A), as_)) as ([result cs] & Hw & HI & Hc); [| |done|].
  - intros [result cs] (Hcat & Hne & Hinit & Hall) Hc.
    apply isNonEmpty_true in Hc. specialize (Hall Hc).
    rewrite splitAt_spec by lia. unfold push. simpl.
    assert (Htake : take (Z.to_nat n) cs <> []).
    { destruct cs as [|c cs]; [done|].
      replace (Z.to_nat n) with (Datatypes.S (Z.to_nat (n - 1))) by lia. done. }
    repeat split.
    + rewrite List.concat_app. simpl. rewrite app_nil_r, <- app_assoc.
      by rewrite take_drop.
    + apply Forall_app. split; [done|]. by constructor.
    + rewrite length_app. simpl.
      replace (length result + 1 - 1)%nat with (length result) by lia.
      by rewrite take_app_length.
    + intros Hrest. apply Forall_app. split; [done|]. constructor; [|done].
      rewrite length_take.
      assert (Z.to_nat n < length cs)%nat; [|lia].
      destruct (Nat.lt_ge_cases (Z.to_nat n) (length cs)); [done|].
      by rewrite drop_ge in Hrest.
    + rewrite length_drop.
      assert (0 < length cs)%nat by (destruct cs; [done|simpl; lia]). lia.
  - by repeat split.
  - rewrite Hw. exists result.
    destruct HI as (Hcat & Hne & Hinit & _).
    assert (cs = []) as ->.
    { destruct cs; [done|]. simpl in Hc. done. }
    rewrite app_nil_r in Hcat. done.
Qed.

(** C9. Chunking round-trips with flattening: for [n >= 1],
    [flatten(chunksOf(n)(as))] is [as], no chunk is empty, and every
    chunk but the last has exactly [n] elements. *)
Theorem chunksOf_flatten (n : Z) (as_ : list A) (fuel : nat)
    (Hn : 1 <= n) (Hfuel : (length as_ < fuel)%nat) :
  exists chunks : list (list A),
    chunksOf fuel n as_ = Some chunks
    /\ flatten chunks = as_
    /\ (forall c, c ∈ chunks -> c <> [])
    /\ (forall (i : nat) c,
          (i + 1 < length chunks)%nat -> chunks !! i = Some c ->
          Z.of_nat (length c) = n).
Proof.
  unfold chunksOf. cbv zeta.
  destruct (Nat.eqb_spec (length as_) 0) as [Hlen|Hlen].
  { exists []. destruct as_; [|done]. repeat split.
    - by intros c Hc%elem_of_nil.
    - intros i c Hi. simpl in Hi. lia. }
  destruct (isOutOfBound (n - 1) as_) eqn:Hout.
  { exists [as_]. rewrite flatten_spec. simpl. rewrite app_nil_r.
    repeat split.
    - intros c ->%list_elem_of_singleton. by destruct as_.
    - intros i c Hi. simpl in Hi. lia. }
  destruct (chunksOf_chop n as_ fuel Hn Hfuel) as (chunks & Hchop & Hcat & Hne & Hinit).
  exists chunks. rewrite flatten_spec. repeat split; try done.
  - intros c Hc. by apply (proj1 (Forall_forall _ _) Hne).
  - intros i c Hi Hc.
    apply (Forall_lookup_1 _ _ i c Hinit).
    rewrite lookup_take_lt by lia. done.
Qed.



(** C6. The ReadonlyArray monoid is lawful: [concat] of [getMonoid] is
    associative and [empty] is its identity on both sides. *)
Theorem getMonoid_laws (xs ys zs : list A) :
  let M := getMonoid in
  Monoid.concat M (Monoid.concat M xs ys) zs
    = Monoid.concat M xs (Monoid.concat M ys zs)
  /\ Monoid.concat M xs (Monoid.empty M) = xs
  /\ Monoid.concat M (Monoid.empty M) xs = xs.
Proof.
  simpl. rewrite !concat_spec. unfold empty.
  by rewrite app_assoc, app_nil_r.
Qed.
End facts.

Section facts2.
Context {A B : Type} `{Undefined A} `{Undefined B} `{Undefined (list B)}.

Lemma for_chain_collect (f : A -> list B) (ma : list A) (n : nat) :
  (n <= length ma)%nat ->
  for_ n (fun i '(outLen, temp) =>
      let e := get ma i in
      let arr := f e in
      ((outLen + length arr)%nat, set temp i arr))
    (0%nat, Array_ (length ma))
  = (length (List.concat (List.map f (take n ma))),
     List.map f (take n ma) ++ replicate (length ma - n) undefined).
Proof.
  induction n as [|n IH]; intros Hn.
  - simpl. by rewrite Nat.sub_0_r.
  - rewrite for_S, IH by lia. cbv zeta.
    destruct (lookup_lt_is_Some_2 ma n ltac:(lia)) as [e He].
    rewrite (get_lookup ma n e He), (take_S_r ma n e He).
    rewrite map_app, List.concat_app, length_app. simpl. rewrite app_nil_r.
    f_equal. unfold set.
    rewrite length_app, length_map, length_take, length_replicate.
    destruct (Nat.ltb_spec n (n `min` length ma + (length ma - n))) as [_|?]; [|lia].
    rewrite insert_app_r_alt by (rewrite length_map, length_take; lia).
    rewrite length_map, length_take.
    replace (n - n `min` length ma)%nat with 0%nat by lia.
    replace (length ma - n)%nat with (Datatypes.S (length ma - Datatypes.S n)) by lia.
    simpl. by rewrite <- app_assoc.
Qed.

Lemma chain_spec (f : A -> list B) (ma : list A) :
  chain f ma = List.concat (List.map f ma).
Proof.
  unfold chain. cbv zeta.
  rewrite for_chain_collect, firstn_all, Nat.sub_diag, app_nil_r by lia.
  pose proof (for_flatten (List.map f ma)
    (Array_ (length (List.concat (List.map f ma)))) (length ma)) as Hfl.
  rewrite length_map in Hfl. cbv zeta in Hfl. rewrite Hfl.
  - rewrite <- (length_map f ma), firstn_all, drop_ge by (rewrite length_Array_; lia).
    apply app_nil_r.
  - lia.
  - apply length_Array_.
Qed.

Lemma for_reduce (f : nat -> B -> A -> B) (b : B) (fa : list A) (n : nat) :
  (n <= length fa)%nat ->
  for_ n (fun i r => f i r (get fa i)) b
  = fold_left (fun r '(i, a) => f i r a) (zip (seq 0 n) (take n fa)) b.
Proof.
  induction n as [|n IH]; intros Hn; [done|].
  rewrite for_S, IH by lia.
  destruct (lookup_lt_is_Some_2 fa n ltac:(lia)) as [a Ha].
  rewrite (get_lookup fa n a Ha), (take_S_r fa n a Ha), seq_S.
  rewrite zip_with_app by (by rewrite length_seq, length_take, Nat.min_l by lia).
  by rewrite fold_left_app.
Qed.

Lemma reduce_spec (f : B -> A -> B) (b : B) (fa : list A) :
  reduce b f fa = fold_left f fa b.
Proof.
  unfold reduce, reduceWithIndex. cbv zeta.
  rewrite for_reduce, firstn_all by lia.
  generalize 0%nat. revert b.
  induction fa as [|a fa IH]; intros b k; [done|]. simpl. apply IH.
Qed.

Lemma length_scan (f : B -> A -> B) b as_ :
  length (scan f b as_) = Datatypes.S (length as_).
Proof. revert b. induction as_ as [|a as_ IH]; intros b; simpl; [done|]. by rewrite IH. Qed.

Lemma scan_snoc (f : B -> A -> B) b as_ a :
  scan f b (as_ ++ [a]) = scan f b as_ ++ [f (fold_left f as_ b) a].
Proof.
  revert b. induction as_ as [|a' as_ IH]; intros b; simpl; [done|]. by rewrite IH.
Qed.

Lemma get_scan (f : B -> A -> B) b as_ (i : nat) :
  (i <= length as_)%nat -> get (scan f b as_) i = fold_left f (take i as_) b.
Proof.
  revert b i. induction as_ as [|a as_ IH]; intros b [|i] Hi; simpl in *; try done; try lia.
  apply (IH (f b a) i). lia.
Qed.

Lemma for_scanLeft (f : B -> A -> B) (b : B) (as_ : list A) (n : nat) :
  (n <= length as_)%nat ->
  for_ n (fun i r => set r (i + 1) (f (get r i) (get as_ i)))
    (set (Array_ (length as_ + 1)) 0 b)
  = scan f b (take n as_) ++ replicate (length as_ - n) undefined.
Proof.
  induction n as [|n IH]; intros Hn.
  - simpl. rewrite Nat.sub_0_r. unfold set, Array_. rewrite length_replicate, Nat.add_1_r.
    done.
  - rewrite for_S, IH by lia.
    destruct (lookup_lt_is_Some_2 as_ n ltac:(lia)) as [a Ha].
    rewrite (get_lookup as_ n a Ha), (take_S_r as_ n a Ha), scan_snoc.
    assert (Hn' : length (take n as_) = n) by (rewrite length_take; lia).
    assert (Hget : get (scan f b (take n as_) ++ replicate (length as_ - n) undefined) n
                   = fold_left f (take n as_) b).
    { unfold get. rewrite app_nth1 by (rewrite length_scan; lia).
      rewrite <- (firstn_all (take n as_)) at 2. rewrite Hn'.
      apply get_scan. lia. }
    rewrite Hget. unfold set.
    rewrite length_app, length_scan, length_replicate, Hn'.
    destruct (Nat.ltb_spec (n + 1) (Datatypes.S n + (length as_ - n))) as [_|?]; [|lia].
    rewrite insert_app_r_alt by (rewrite length_scan; lia).
    rewrite length_scan, Hn'.
    replace (n + 1 - Datatypes.S n)%nat with 0%nat by lia.
    replace (length as_ - n)%nat with (Datatypes.S (length as_ - Datatypes.S n)) by lia.
    simpl. by rewrite <- app_assoc.
Qed.

Lemma scanLeft_spec (f : B -> A -> B) (b : B) (as_ : list A) :
  scanLeft b f as_ = scan f b as_.
Proof.
  unfold scanLeft. cbv zeta.
  by rewrite for_scanLeft, firstn_all, Nat.sub_diag, app_nil_r.
Qed.

(** C10. [scanLeft(b, f)(as)] has one element more than [as]; it starts
    with [b], each later element is [f] of its predecessor and of the
    element of [as] at the predecessor's index, and the last element is
    [reduce(b, f)(as)]. *)
Theorem scanLeft_steps (b : B) (f : B -> A -> B) (as_ : list A) :
  let r := scanLeft b f as_ in
  length r = (length as_ + 1)%nat
  /\ get r 0 = b
  /\ (forall i : nat, (i < length as_)%nat -> get r (i + 1) = f (get r i) (get as_ i))
  /\ get r (length as_) = reduce b f as_.
Proof.
  cbv zeta. rewrite scanLeft_spec, reduce_spec, length_scan.
  rewrite !get_scan by lia.
  split; [lia|]. split; [done|]. split.
  - intros i Hi. rewrite !get_scan by lia.
    destruct (lookup_lt_is_Some_2 as_ i Hi) as [a Ha].
    rewrite Nat.add_1_r, (take_S_r as_ i a Ha), fold_left_app. simpl.
    by rewrite (get_lookup as_ i a Ha).
  - by rewrite firstn_all.
Qed.




(** Mapping the identity leaves the array as it is. *)
Lemma map_identity (fa : list A) : map identity fa = fa.
Proof. unfold map, identity. apply map_id. Qed.
End facts2.

Section laws.
Context {A B C : Type} `{Undefined A} `{Undefined B} `{Undefined (list B)}
  `{Undefined (list A)}.

(** C7. Monad identities of ReadonlyArray: [chain(f)(of(a))] is [f(a)],
    and [chain(of)(ma)] is [ma]. *)
Theorem chain_identities (a : A) (f : A -> list B) (ma : list A) :
  chain f (of_ a) = f a /\ chain of_ ma = ma.
Proof.
  rewrite !chain_spec. split.
  - simpl. apply app_nil_r.
  - induction ma as [|x ma IH]; [done|]. simpl. by rewrite IH.
Qed.

(** C8. Functor laws of ReadonlyArray: [map(identity)] is the identity,
    and mapping a composition is composing the maps. *)
Theorem map_functor_laws (f : A -> B) (g : B -> C) (fa : list A) :
  map identity fa = fa
  /\ map (fun a => g (f a)) fa = map g (map f fa).
Proof.
  split; [apply map_identity|].
  unfold map. by rewrite List.map_map.
Qed.

End laws.

Section totality.
Context {A B C : Type} `{Undefined A} `{Undefined B} `{Undefined (list B)}
  `{Undefined (list A)}.

Lemma to_double_safe (z : Z) : Z.abs z <= 2 ^ 53 -> to_double z = z.
Proof. intros Hz. unfold to_double. by destruct (Z.leb_spec (Z.abs z) (2 ^ 53)); [|lia]. Qed.

(** Rounding keeps the sign. *)
Lemma to_double_negative (z : Z) : z < 0 -> to_double z < 0.
Proof.
  intros Hz. unfold to_double.
  destruct (Z.leb_spec (Z.abs z) (2 ^ 53)) as [_|Hbig]; [done|]. cbv zeta.
  set (a := Z.abs z) in *. set (e := Z.log2 a - 52).
  assert (H53 : 2 ^ 53 = 9007199254740992) by reflexivity.
  assert (Ha : 0 < a) by lia.
  assert (Hlog : 53 <= Z.log2 a).
  { apply Z.log2_le_pow2; [done|]. lia. }
  assert (He : 0 < 2 ^ e) by (apply Z.pow_pos_nonneg; lia).
  assert (Hq : 1 <= a / 2 ^ e).
  { apply Z.div_le_lower_bound; [done|]. rewrite Z.mul_1_r.
    transitivity (2 ^ Z.log2 a); [|by apply Z.log2_spec].
    apply Z.pow_le_mono_r; lia. }
  assert (Hq' : 1 <= (if a mod 2 ^ e <? 2 ^ (e - 1) then a / 2 ^ e
                      else if 2 ^ (e - 1) <? a mod 2 ^ e then a / 2 ^ e + 1
                      else if Z.even (a / 2 ^ e) then a / 2 ^ e else a / 2 ^ e + 1)).
  { repeat case_match; lia. }
  rewrite (Z.sgn_neg z Hz). nia.
Qed.



(** For an array that a host can hold, [length_plus] is the rounded sum. *)
Lemma length_plus_rounded (len : nat) (n : Z) :
  Z.of_nat len <= 2 ^ 53 -> n < 0 ->
  length_plus len n = to_double (Z.of_nat len + n).
Proof.
  intros Hlen Hn. unfold length_plus. cbv zeta.
  destruct (Z.leb_spec 0 (Z.of_nat len + n)) as [Hpos|_]; [|done].
  by rewrite to_double_safe by lia.
Qed.




End totality.
End ReadonlyArrayFacts.

(** ** Arrays are never changed in place *)

Module ReadonlyArrayStoreFacts.
Import Host ReadonlyArrayStore ReadonlyArrayFacts.

Section facts.
Context {A : Type} `{Undefined A} `{Undefined (list A)}.
Variable strict_eq : A -> A -> bool.
Variable sorted_by : (A -> A -> Z) -> list A -> list A.

Lemma fresh_None (s : store A) : s !! fresh (dom s) = None.
Proof. apply not_elem_of_dom, is_fresh. Qed.

Lemma fresh_ne (s : store A) (r : ref) (c : list A) :
  s !! r = Some c -> fresh (dom s) <> r.
Proof. intros Hr Heq. rewrite <- Heq, fresh_None in Hr. done. Qed.

(** The copy [__spreadArrays(as)] makes: a new array with the contents
    of [as], every other array as before. *)
Lemma __spreadArrays_run (s : store A) (as_ : ref) (c : list A) :
  s !! as_ = Some c ->
  __spreadArrays as_ s = (fresh (dom s), <[fresh (dom s) := c]> s).
Proof.
  intros Hc. unfold __spreadArrays, bind, read, alloc. rewrite Hc. simpl.
  rewrite __spreadArrays_spec. simpl. by rewrite app_nil_r.
Qed.

Lemma preserves_unchanged (s : store A) (as_ : ref) (c : list A) (o : option ref) :
  s !! as_ = Some c -> (o = None \/ o = Some as_) -> preserves s as_ (o, s).
Proof.
  intros Hc Ho. split; [done|].
  destruct Ho as [-> | ->]; [done|]. split; [by left|by eexists].
Qed.

Lemma preserves_copy (s : store A) (as_ : ref) (c1 c2 : list A) :
  preserves s as_
    (Some (fresh (dom s)), <[fresh (dom s) := c2]> (<[fresh (dom s) := c1]> s)).
Proof.
  split.
  - intros r c Hr. rewrite !lookup_insert_ne by (by eapply fresh_ne). done.
  - split; [right; apply fresh_None|]. rewrite lookup_insert_eq. by eexists.
Qed.

Lemma preserves_alloc (s : store A) (as_ : ref) (c1 : list A) :
  preserves s as_ (Some (fresh (dom s)), <[fresh (dom s) := c1]> s).
Proof.
  split.
  - intros r c Hr. rewrite !lookup_insert_ne by (by eapply fresh_ne). done.
  - split; [right; apply fresh_None|]. rewrite lookup_insert_eq. by eexists.
Qed.

Lemma reverse_run (s : store A) (as_ : ref) (c : list A) :
  s !! as_ = Some c ->
  reverse as_ s
  = (fresh (dom s), <[fresh (dom s) := rev c]> (<[fresh (dom s) := c]> s)).
Proof.
  intros Hc. unfold reverse, bind. rewrite (__spreadArrays_run s as_ c Hc).
  unfold Array_reverse, bind, read, write, ret. by rewrite lookup_insert_eq.
Qed.

Lemma sort_run (O : Ord.Ord A) (s : store A) (as_ : ref) (c : list A) :
  s !! as_ = Some c ->
  sort sorted_by O as_ s
  = (fresh (dom s),
     <[fresh (dom s) := sorted_by (Ord.compare O) c]> (<[fresh (dom s) := c]> s)).
Proof.
  intros Hc. unfold sort, bind. rewrite (__spreadArrays_run s as_ c Hc).
  unfold Array_sort, bind, read, write, ret. by rewrite lookup_insert_eq.
Qed.

Lemma unsafeInsertAt_run (i : Z) (a : A) (s : store A) (as_ : ref) (c : list A) :
  s !! as_ = Some c ->
  unsafeInsertAt i a as_ s
  = (fresh (dom s), <[fresh (dom s) := spliced c i 0 [a]]> (<[fresh (dom s) := c]> s)).
Proof.
  intros Hc. unfold unsafeInsertAt, bind. rewrite (__spreadArrays_run s as_ c Hc).
  unfold splice, bind, read, write, ret. by rewrite lookup_insert_eq.
Qed.

Lemma unsafeDeleteAt_run (i : Z) (s : store A) (as_ : ref) (c : list A) :
  s !! as_ = Some c ->
  unsafeDeleteAt i as_ s
  = (fresh (dom s), <[fresh (dom s) := spliced c i 1 []]> (<[fresh (dom s) := c]> s)).
Proof.
  intros Hc. unfold unsafeDeleteAt, bind. rewrite (__spreadArrays_run s as_ c Hc).
  unfold splice, bind, read, write, ret. by rewrite lookup_insert_eq.
Qed.

Lemma unsafeUpdateAt_run (i : Z) (a : A) (s : store A) (as_ : ref) (c : list A) :
  s !! as_ = Some c ->
  unsafeUpdateAt strict_eq i a as_ s
  = if strict_eq (index c i) a then (as_, s)
    else (fresh (dom s),
          <[fresh (dom s) := if i <? 0 then c else set c (Z.to_nat i) a]>
            (<[fresh (dom s) := c]> s)).
Proof.
  intros Hc. unfold unsafeUpdateAt. unfold bind at 1. unfold read at 1.
  rewrite Hc. change (default [] (Some c)) with c.
  destruct (strict_eq (index c i) a); [done|].
  unfold bind at 1. rewrite (__spreadArrays_run s as_ c Hc).
  unfold assign, bind, read, write, ret. rewrite lookup_insert_eq.
  change (default [] (Some c)) with c.
  destruct (i <? 0); [|done]. by rewrite insert_insert_eq.
Qed.

Lemma preserves_unsafeUpdateAt (i : Z) (a : A) (s : store A) (as_ : ref) (c : list A) :
  s !! as_ = Some c ->
  preserves s as_
    (let '(r, s') := unsafeUpdateAt strict_eq i a as_ s in (Some r, s')).
Proof.
  intros Hc. rewrite (unsafeUpdateAt_run i a s as_ c Hc).
  destruct (strict_eq (index c i) a).
  - apply (preserves_unchanged s as_ c); auto.
  - apply preserves_copy.
Qed.

Lemma preserves_input (s : store A) (as_ : ref) (c : list A)
    (outcome : option ref * store A) :
  s !! as_ = Some c -> preserves s as_ outcome ->
  preserves s as_ outcome /\ outcome.2 !! as_ = Some c.
Proof. intros Hc Hp. split; [done|]. destruct outcome as [o s']. by apply Hp. Qed.

(** C5. No array operation changes its input in place: after [sort],
    [reverse], [insertAt], [deleteAt], [updateAt], [modifyAt], [cons]
    or [snoc] on the array [as_], [as_] and every other array of the
    store hold the elements they held before, and the array returned is
    a new one or [as_] itself. *)
Theorem operations_preserve_input (O : Ord.Ord A) (i : Z) (a : A) (f : A -> A)
    (s : store A) (as_ : ref) (c : list A) (Hc : s !! as_ = Some c) :
  Forall (fun call : M A (option ref) =>
            preserves s as_ (call s) /\ (call s).2 !! as_ = Some c)
    [ always (sort sorted_by O as_); always (reverse as_);
      insertAt i a as_; deleteAt i as_;
      updateAt strict_eq i a as_; modifyAt strict_eq i f as_;
      always (cons a as_); always (snoc as_ a) ].
Proof.
  repeat apply Forall_cons_2; [..|apply Forall_nil_2];
    apply (preserves_input s as_ c _ Hc).
  - unfold always, bind. rewrite (sort_run O s as_ c Hc). apply preserves_copy.
  - unfold always, bind. rewrite (reverse_run s as_ c Hc). apply preserves_copy.
  - unfold insertAt. unfold bind at 1. unfold read. rewrite Hc.
    change (default [] (Some c)) with c.
    destruct ((i <? 0) || (i >? Z.of_nat (length c))).
    + apply (preserves_unchanged s as_ c); auto.
    + unfold bind. rewrite (unsafeInsertAt_run i a s as_ c Hc). apply preserves_copy.
  - unfold deleteAt. unfold bind at 1. unfold read. rewrite Hc.
    change (default [] (Some c)) with c.
    destruct (ReadonlyArray.isOutOfBound i c).
    + apply (preserves_unchanged s as_ c); auto.
    + unfold bind. rewrite (unsafeDeleteAt_run i s as_ c Hc). apply preserves_copy.
  - unfold updateAt. unfold bind at 1. unfold read. rewrite Hc.
    change (default [] (Some c)) with c.
    destruct (ReadonlyArray.isOutOfBound i c).
    + apply (preserves_unchanged s as_ c); auto.
    + apply (preserves_unsafeUpdateAt i a s as_ c Hc).
  - unfold modifyAt. unfold bind at 1. unfold read. rewrite Hc.
    change (default [] (Some c)) with c.
    destruct (ReadonlyArray.isOutOfBound i c).
    + apply (preserves_unchanged s as_ c); auto.
    + apply (preserves_unsafeUpdateAt i (f (index c i)) s as_ c Hc).
  - unfold always, cons, bind, read, alloc, ret. apply preserves_alloc.
  - unfold always, snoc, bind, read, alloc, ret. apply preserves_alloc.
Qed.

Lemma spliced_insert (c : list A) (i : Z) (a : A) :
  0 <= i <= Z.of_nat (length c) ->
  spliced c i 0 [a] = take (Z.to_nat i) c ++ a :: drop (Z.to_nat i) c.
Proof.
  intros Hi. unfold spliced, rel_index. cbv zeta.
  destruct (Z.ltb_spec i 0) as [?|_]; [lia|].
  rewrite (Z.min_l i) by lia.
  replace (Z.min (Z.max 0 0) (Z.of_nat (length c) - i)) with 0 by lia.
  by rewrite Z.add_0_r.
Qed.

Lemma isOutOfBound_spec (i : Z) (c : list A) :
  ReadonlyArray.isOutOfBound i c = true <-> i < 0 \/ i >= Z.of_nat (length c).
Proof.
  unfold ReadonlyArray.isOutOfBound.
  rewrite orb_true_iff, Z.ltb_lt, Z.geb_le. lia.
Qed.

Lemma index_lookup (i : Z) (c : list A) (x : A) :
  0 <= i -> c !! Z.to_nat i = Some x -> index c i = x.
Proof.
  intros Hi Hx. unfold index. destruct (Z.ltb_spec i 0) as [?|_]; [lia|].
  by apply nth_lookup_Some.
Qed.

(** C2 (amended). The index-based operations answer with an optional
    value and never fail: [lookup(i, as)] and [updateAt(i, a)(as)] are
    [none] exactly when [i < 0] or [i >= as.length], [insertAt(i, a)(as)]
    exactly when [i < 0] or [i > as.length]; otherwise they are [some] of
    the element at [i], of an array like [as] with [a] at [i], and of an
    array like [as] with [a] inserted before position [i]; except that
    [updateAt] answers with [as] itself, left as it is, when the element at
    [i] is already [===] to [a].  That is the array with [a] at [i] if
    [===] holds of equal values only. *)
Theorem index_operations_optional (i : Z) (a : A)
    (s : store A) (as_ : ref) (c : list A)
    (Hc : s !! as_ = Some c) :
  (ReadonlyArray.lookup i c = None <-> i < 0 \/ i >= Z.of_nat (length c))
  /\ (forall x, ReadonlyArray.lookup i c = Some x <->
                0 <= i < Z.of_nat (length c) /\ c !! Z.to_nat i = Some x)
  /\ ((updateAt strict_eq i a as_ s).1 = None <-> i < 0 \/ i >= Z.of_nat (length c))
  /\ (forall r, (updateAt strict_eq i a as_ s).1 = Some r ->
        (strict_eq (index c i) a = false ->
           (updateAt strict_eq i a as_ s).2 !! r = Some (<[Z.to_nat i := a]> c))
        /\ (strict_eq (index c i) a = true ->
             r = as_ /\ (updateAt strict_eq i a as_ s).2 = s)
        /\ ((forall x y, strict_eq x y = true -> x = y) ->
             (updateAt strict_eq i a as_ s).2 !! r = Some (<[Z.to_nat i := a]> c)))
  /\ ((insertAt i a as_ s).1 = None <-> i < 0 \/ i > Z.of_nat (length c))
  /\ (forall r, (insertAt i a as_ s).1 = Some r ->
                (insertAt i a as_ s).2 !! r
                = Some (take (Z.to_nat i) c ++ a :: drop (Z.to_nat i) c)).
Proof.
  pose proof (isOutOfBound_spec i c) as Hout.
  assert (Hupd : updateAt strict_eq i a as_ s
                 = if ReadonlyArray.isOutOfBound i c then (None, s)
                   else let '(r, s') := unsafeUpdateAt strict_eq i a as_ s in
                        (Some r, s')).
  { unfold updateAt. unfold bind at 1. unfold read. rewrite Hc.
    change (default [] (Some c)) with c.
    by destruct (ReadonlyArray.isOutOfBound i c). }
  assert (Hins : insertAt i a as_ s
                 = if (i <? 0) || (i >? Z.of_nat (length c)) then (None, s)
                   else let '(r, s') := unsafeInsertAt i a as_ s in (Some r, s')).
  { unfold insertAt. unfold bind at 1. unfold read. rewrite Hc.
    change (default [] (Some c)) with c.
    by destruct ((i <? 0) || (i >? Z.of_nat (length c))). }
  rewrite Hupd, Hins, (unsafeUpdateAt_run i a s as_ c Hc),
    (unsafeInsertAt_run i a s as_ c Hc).
  unfold ReadonlyArray.lookup.
  destruct (ReadonlyArray.isOutOfBound i c) eqn:Hb.
  - assert (Hi : i < 0 \/ i >= Z.of_nat (length c)) by (by apply Hout).
    split; [done|]. split.
    { intros x. split; [done|]. intros [Hr _]. lia. }
    split; [done|]. split; [done|].
    destruct ((i <? 0) || (i >? Z.of_nat (length c))) eqn:Hb'.
    + split; [|done]. split; [|done]. intros _.
      apply orb_true_iff in Hb'. rewrite Z.ltb_lt, Z.gtb_lt in Hb'. lia.
    + apply orb_false_iff in Hb'. rewrite Z.ltb_ge, Z.gtb_ltb, Z.ltb_ge in Hb'.
      split; [split; [done|lia]|].
      intros r [= <-]. simpl. rewrite lookup_insert_eq, spliced_insert by lia. done.
  - assert (Hi : 0 <= i < Z.of_nat (length c)).
    { assert (~ (i < 0 \/ i >= Z.of_nat (length c))) by (by intros X%Hout). lia. }
    destruct (lookup_lt_is_Some_2 c (Z.to_nat i) ltac:(lia)) as [x Hx].
    rewrite (index_lookup i c x (proj1 Hi) Hx).
    split; [split; [done|lia]|]. split.
    { intros y. split; [intros [= <-]; done|]. intros [_ Hy]. congruence. }
    split.
    { destruct (strict_eq x a); (split; [done|lia]). }
    split.
    { destruct (strict_eq x a) eqn:Hxa.
      - intros r [= <-]. simpl. split; [done|]. split; [done|].
        intros Heq. apply Heq in Hxa. subst a.
        rewrite list_insert_id by done. exact Hc.
      - intros r [= <-]. simpl.
        assert (Hset : <[fresh (dom s) := if i <? 0 then c else set c (Z.to_nat i) a]>
                         (<[fresh (dom s) := c]> s) !! fresh (dom s)
                       = Some (<[Z.to_nat i := a]> c)); [|by repeat split].
        rewrite lookup_insert_eq.
        destruct (Z.ltb_spec i 0) as [?|_]; [lia|]. unfold set.
        destruct (Nat.ltb_spec (Z.to_nat i) (length c)) as [_|?]; [done|lia]. }
    assert (Hb' : (i <? 0) || (i >? Z.of_nat (length c)) = false).
    { apply orb_false_iff. rewrite Z.ltb_ge, Z.gtb_ltb, Z.ltb_ge. lia. }
    rewrite Hb'. split; [split; [done|lia]|].
    intros r [= <-]. simpl. rewrite lookup_insert_eq, spliced_insert by lia. done.
Qed.
End facts.
End ReadonlyArrayStoreFacts.

(** ** Tasks: settlement, sequencing and racing *)

Module TaskFacts.
Import Promises Task.

Section facts.
Context {E : Type} `{JobOrder E}.

Lemma adopt_adopt {A : Type} (now now' : nat) (q : Promise E A) :
  adopt now (adopt now' q) = adopt (Nat.max now now') q.
Proof. destruct q as [|t how]; simpl; [done|]. f_equal. lia. Qed.

Lemma adopt_unrejected {A : Type} (now : nat) (q : Promise E A) :
  unrejected q -> unrejected (adopt now q).
Proof.
  intros Hq at_ e. destruct q as [|t [a|e']]; simpl; try done.
  by destruct (Hq t e').
Qed.

Lemma adopt_resolved {A : Type} (now : nat) (q : Promise E A) :
  resolved q -> resolved (adopt now q).
Proof. intros (t & a & ->). simpl. by do 2 eexists. Qed.

Lemma Promise_resolve_plain {A : Type} `{Thenable E A} (now : nat) (a : A) :
  thenable a = None -> Promise_resolve now a = Settled now (Resolved a).
Proof. intros Ha. unfold Promise_resolve. by rewrite Ha. Qed.


Lemma Promise_resolve_unrejected {A : Type} `{Thenable E A} (now : nat) (a : A) :
  (forall q, thenable a = Some q -> unrejected q) -> unrejected (Promise_resolve now a).
Proof.
  intros Ha. unfold Promise_resolve. destruct (thenable a) as [q|]; [|done].
  by apply adopt_unrejected, Ha.
Qed.

Lemma Promise_resolve_resolved {A : Type} `{Thenable E A} (now : nat) (a : A) :
  (forall q, thenable a = Some q -> resolved q) -> resolved (Promise_resolve now a).
Proof.
  intros Ha. unfold Promise_resolve. destruct (thenable a) as [q|].
  - by apply adopt_resolved, Ha.
  - by do 2 eexists.
Qed.

(** [then] rejects only if the promise does, or the callback throws or
    returns a promise that rejects. *)
Lemma then_unrejected {A B : Type} (now : nat) (p : Promise E A)
    (k : nat -> A -> Completion E (Promise E B)) :
  unrejected p ->
  (forall t a, p = Settled t (Resolved a) ->
     forall now', exists q, k now' a = Returns q /\ unrejected q) ->
  unrejected (then_ now p k).
Proof.
  intros Hp Hk. unfold then_. destruct p as [|t [a|e']]; simpl; [done| |].
  - destruct (Hk t a eq_refl (Nat.max now t)) as (q & -> & Hq). by apply adopt_unrejected.
  - by destruct (Hp t e').
Qed.

Lemma plain_unrejected {A B : Type} `{Thenable E B} (f : A -> Completion E B) (a : A) :
  (exists b, f a = Returns b) ->
  (forall b q, f a = Returns b -> thenable b = Some q -> unrejected q) ->
  forall now, exists q, plain f now a = Returns q /\ unrejected q.
Proof.
  intros [b Hb] Hf now. unfold plain. rewrite Hb.
  eexists. split; [done|]. apply Promise_resolve_unrejected. intros q. by apply Hf.
Qed.

Lemma after_timeout_unrejected {A : Type} (now millis : nat)
    (body : nat -> Completion E (Promise E A)) :
  unrejected (Promise_after_timeout now millis body).
Proof.
  intros at_ e. unfold Promise_after_timeout.
  by destruct (body (now + millis)%nat) as [[|t [a|e']]|e'].
Qed.

(** [Promise.all] resolves with a pair only when both promises have
    resolved, and rejects only if one of them does. *)
Lemma Promise_all_resolved {A B : Type} (now : nat) (p : Promise E A) (q : Promise E B)
    (t : nat) (a : A) (b : B) :
  Promise_all now p q = Settled t (Resolved (a, b)) ->
  exists t1 t2, p = Settled t1 (Resolved a) /\ q = Settled t2 (Resolved b).
Proof.
  unfold Promise_all. destruct p as [|t1 [a'|e1]], q as [|t2 [b'|e2]]; simpl; try done.
  - intros [= _ <- <-]. by do 2 eexists.
  - by destruct (settles_first _ _ _ _).
Qed.

Lemma Promise_all_unrejected {A B : Type} (now : nat) (p : Promise E A) (q : Promise E B) :
  unrejected p -> unrejected q -> unrejected (Promise_all now p q).
Proof.
  intros Hp Hq. unfold Promise_all.
  destruct p as [|t1 [a|e1]], q as [|t2 [b|e2]]; simpl; try done;
    try (by destruct (Hp t1 e1)); by destruct (Hq t2 e2).
Qed.

(** Combinators keep rejection out, whether the parts resolve or stay
    pending. *)
Lemma Built_never_rejects (component : forall A : Type, Task A -> Prop)
    (value : forall A : Type, Promise E A -> Prop) (A : Type) (x : Task (E:=E) A) :
  (forall A y, component A y -> never_rejects y) ->
  (forall A q, value A q -> unrejected q) ->
  Built component value A x -> never_rejects x.
Proof.
  intros Hc Hv Hx.
  induction Hx as [A x Hx|A T a Ha|A B T f fa Hf Hfv _ IH|A B f g ma Hfg _ IHg _ IH
                  |A B T fa fab Hf _ IHa _ IHf|A millis ma _ IH|A T ma (a & Ha & Hav)].
  - by apply Hc.
  - intros now. eexists. split; [done|].
    apply Promise_resolve_unrejected. intros q Hq. by apply Hv, Ha.
  - intros now. unfold map. destruct (IH now) as (p & -> & Hp).
    eexists. split; [done|]. apply then_unrejected; [done|].
    intros t a _ now'. apply plain_unrejected; [apply Hf|].
    intros b q Hb Hq. by apply Hv, (Hfv a b Hb).
  - intros now. unfold chain. destruct (IH now) as (p & -> & Hp).
    eexists. split; [done|]. apply then_unrejected; [done|].
    intros t a _ now'. rewrite Hfg. destruct (IHg a now') as (q & -> & Hq). by exists q.
  - intros now. unfold ap.
    destruct (IHf now) as (pf & Hpf & Hpf'). destruct (IHa now) as (pa & -> & Hpa).
    rewrite Hpf. eexists. split; [done|].
    apply then_unrejected; [by apply Promise_all_unrejected|].
    intros t [f a] Hall now'.
    apply Promise_all_resolved in Hall as (t1 & t2 & -> & ->).
    destruct (Hf now t1 f Hpf) as [Hthrow Hval].
    apply (plain_unrejected (fun '(f, a) => f a) (f, a)); [apply Hthrow|].
    intros b q Hb Hq. by apply Hv, (Hval a b Hb).
  - intros now. unfold delay. eexists. split; [done|].
    apply after_timeout_unrejected.
  - intros now. unfold fromIO. rewrite Ha. eexists. split; [done|].
    apply Promise_resolve_unrejected. intros q Hq. by apply Hv, Hav.
Qed.

(** Combinators resolve when their parts do. *)
Lemma Built_always_resolves (component : forall A : Type, Task A -> Prop)
    (value : forall A : Type, Promise E A -> Prop) (A : Type) (x : Task (E:=E) A) :
  (forall A y, component A y -> always_resolves y) ->
  (forall A q, value A q -> resolved q) ->
  Built component value A x -> always_resolves x.
Proof.
  intros Hc Hv Hx.
  induction Hx as [A x Hx|A T a Ha|A B T f fa Hf Hfv _ IH|A B f g ma Hfg _ IHg _ IH
                  |A B T fa fab Hf _ IHa _ IHf|A millis ma _ IH|A T ma (a & Ha & Hav)].
  - by apply Hc.
  - intros now. unfold of_.
    destruct (Promise_resolve_resolved now a) as (t & v & ->); [|by do 2 eexists].
    intros q Hq. by apply Hv, Ha.
  - intros now. unfold map. destruct (IH now) as (t & a & ->).
    unfold then_, plain. simpl. destruct (Hf a) as [b Hb]. rewrite Hb.
    destruct (adopt_resolved (Nat.max now t) (Promise_resolve (Nat.max now t) b))
      as (t' & v & ->); [|by do 2 eexists].
    apply Promise_resolve_resolved. intros q Hq. by apply Hv, (Hfv a b Hb).
  - intros now. unfold chain. destruct (IH now) as (t & a & ->).
    unfold then_. simpl. rewrite Hfg.
    destruct (IHg a (Nat.max now t)) as (t' & b & ->). simpl. by do 2 eexists.
  - intros now. unfold ap.
    destruct (IHf now) as (t1 & f & Hpf). destruct (IHa now) as (t2 & a & ->).
    rewrite Hpf. destruct (Hf now t1 f Hpf) as [Hthrow Hval].
    unfold then_, plain, Promise_all. simpl. destruct (Hthrow a) as [b Hb]. rewrite Hb.
    match goal with |- context [adopt ?t (Promise_resolve ?t' b)] =>
      destruct (adopt_resolved t (Promise_resolve t' b)) as (t'' & v & ->)
    end; [|by do 2 eexists].
    apply Promise_resolve_resolved. intros q Hq. by apply Hv, (Hval a b Hb).
  - intros now. unfold delay, Promise_after_timeout.
    destruct (IH (now + millis)%nat) as (t & a & ->). by do 2 eexists.
  - intros now. unfold fromIO. rewrite Ha.
    destruct (Promise_resolve_resolved now a) as (t & v & ->); [|by do 2 eexists].
    intros q Hq. by apply Hv, Hav.
Qed.

(** C3 (amended). A task built with [of], [map], [chain], [ap], [delay]
    and [fromIO] from component tasks that never reject, from functions
    that never throw and from values that are not promises that reject
    yields a promise that never rejects; it resolves with a value when
    every component task resolves and every value that is a promise
    resolves. *)
Theorem built_task_never_fails (component : forall A : Type, Task A -> Prop)
    (value : forall A : Type, Promise E A -> Prop)
    (A : Type) (x : Task (E:=E) A)
    (Hx : Built component value A x)
    (Hc : forall A y, component A y -> never_rejects y)
    (Hv : forall A q, value A q -> unrejected q) :
  never_rejects x
  /\ ((forall A y, component A y -> always_resolves y) ->
      (forall A q, value A q -> resolved q) ->
      always_resolves x).
Proof.
  split; [by apply (Built_never_rejects component value)|].
  intros Hr Hvr. by apply (Built_always_resolves component value).
Qed.


End facts.
End TaskFacts.

(** ** The examples of the documentation, and closed instances *)

Module Examples.
Import Host Promises Sample.

Example concat_doc : Monoid.concat ReadonlyArray.getMonoid [1; 2] [3; 4] = [1; 2; 3; 4].
Proof. reflexivity. Qed.

Example flatten_doc : ReadonlyArray.flatten [[1]; [2]; [3]] = [1; 2; 3].
Proof. reflexivity. Qed.

Example scanLeft_doc : ReadonlyArray.scanLeft 10 (fun b a => b - a) [1; 2; 3] = [10; 9; 7; 4].
Proof. reflexivity. Qed.

Example lookup_doc :
  ReadonlyArray.lookup 1 [1; 2; 3] = Some 2 /\ ReadonlyArray.lookup 3 [1; 2; 3] = None.
Proof. split; reflexivity. Qed.

Example cons_doc : ReadonlyArray.cons 0 [1; 2; 3] = [0; 1; 2; 3].
Proof. reflexivity. Qed.

Example snoc_doc : ReadonlyArray.snoc [1; 2; 3] 4 = [1; 2; 3; 4].
Proof. reflexivity. Qed.

Example splitAt_doc : ReadonlyArray.splitAt 2 [1; 2; 3; 4; 5] = ([1; 2], [3; 4; 5]).
Proof. reflexivity. Qed.

Example chunksOf_doc :
  ReadonlyArray.chunksOf 6 2 [1; 2; 3; 4; 5] = Some [[1; 2]; [3; 4]; [5]].
Proof. reflexivity. Qed.

Example comprehension_doc :
  ReadonlyArray.comprehension [[1; 2; 3]; [10; 20]] (fun scope => scope)
    (Some (fun scope => match scope with [a; b] => Z.even (a + b) | _ => false end))
  = [[2; 10]; [2; 20]].
Proof. reflexivity. Qed.

Example unfold_countdown : ReadonlyArray.unfold 6 5 countdown = Some [5; 4; 3; 2; 1].
Proof. reflexivity. Qed.

Example insertAt_doc :
  let '(r, s) := ReadonlyArrayStore.insertAt 2 5 1%positive {[ 1%positive := [1; 2; 3; 4] ]} in
  (r ≫= fun r => s !! r) = Some [1; 2; 5; 3; 4] /\ s !! 1%positive = Some [1; 2; 3; 4].
Proof. vm_compute. done. Qed.

Example updateAt_doc :
  let '(r, s) := ReadonlyArrayStore.updateAt Z.eqb 1 1 1%positive {[ 1%positive := [1; 2; 3] ]} in
  (r ≫= fun r => s !! r) = Some [1; 1; 3] /\ s !! 1%positive = Some [1; 2; 3].
Proof. vm_compute. done. Qed.

Example updateAt_empty_doc :
  (ReadonlyArrayStore.updateAt Z.eqb 1 1 1%positive {[ 1%positive := [] ]}).1 = None.
Proof. vm_compute. done. Qed.

Example deleteAt_doc :
  let '(r, s) := ReadonlyArrayStore.deleteAt 0 1%positive {[ 1%positive := [1; 2; 3] ]} in
  (r ≫= fun r => s !! r) = Some [2; 3] /\ s !! 1%positive = Some [1; 2; 3].
Proof. vm_compute. done. Qed.

Example reverse_doc :
  let '(r, s) := ReadonlyArrayStore.reverse 1%positive {[ 1%positive := [1; 2; 3] ]} in
  s !! r = Some [3; 2; 1] /\ s !! 1%positive = Some [1; 2; 3].
Proof. vm_compute. done. Qed.

Example sort_doc :
  let '(r, s) := ReadonlyArrayStore.sort sorted_by ordNumber 1%positive store312 in
  s !! r = Some [1; 2; 3] /\ s !! 1%positive = Some [3; 1; 2].
Proof. vm_compute. done. Qed.

Example task_map_of :
  Task.map (E:=unit) (fun n : Z => Returns (n * 2)) (Task.of_ 1) 0%nat
  = Returns (Settled 0 (Resolved 2)).
Proof. reflexivity. Qed.

Example task_delay_of :
  Task.delay (E:=unit) 5 (Task.of_ 1) 2%nat = Returns (Settled 7 (Resolved 1)).
Proof. reflexivity. Qed.

(** A function that throws makes the task reject. *)
Example task_map_throws :
  Task.map (fun _ : Z => Throws (A:=Z) tt) (Task.of_ 1) 0%nat
  = Returns (Settled 0 (Rejected tt)).
Proof. reflexivity. Qed.

(** An [IO] that throws makes the call of the task throw. *)
Example task_fromIO_throws :
  Task.fromIO (fun _ => Throws (A:=Z) tt) 0%nat = Throws tt.
Proof. reflexivity. Qed.

(** [delay] does not pass a rejection on: its promise stays pending. *)
Example task_delay_rejected :
  Task.delay 5 (Task.map (fun _ : Z => Throws (A:=Z) tt) (Task.of_ 1)) 0%nat
  = Returns Pending.
Proof. reflexivity. Qed.



Lemma index_operations_optional_witness :
  ReadonlyArray.lookup 1 [3; 1; 2] = Some 1
  /\ ((ReadonlyArrayStore.updateAt Z.eqb 1 99 1%positive store312).1 = None
      <-> 1 < 0 \/ 1 >= Z.of_nat (length [3; 1; 2]))
  /\ ((ReadonlyArrayStore.insertAt 3 99 1%positive store312).1 = None
      <-> 3 < 0 \/ 3 > Z.of_nat (length [3; 1; 2])).
Proof.
  assert (Hc : store312 !! 1%positive = Some [3; 1; 2]) by reflexivity.
  pose proof (ReadonlyArrayStoreFacts.index_operations_optional Z.eqb 1 99 store312
                1%positive [3; 1; 2] Hc) as (_ & Hlookup & Hupdate & _).
  pose proof (ReadonlyArrayStoreFacts.index_operations_optional Z.eqb 3 99 store312
                1%positive [3; 1; 2] Hc) as (_ & _ & _ & _ & Hinsert & _).
  split; [|split; [exact Hupdate|exact Hinsert]].
  apply Hlookup. split; [simpl; lia|reflexivity].
Defined.

(** C2, as stated, fails: [updateAt(0, -0)([0])], with an index in
    bounds, is [some] of the input array, whose element at [0] is still
    [+0]: not the array with [-0] at [0]. *)
Lemma updateAt_negative_zero :
  let s : gmap positive (list float) := {[ 1%positive := [integer 0] ]} in
  ReadonlyArray.isOutOfBound 0 [integer 0] = false
  /\ ReadonlyArrayStore.updateAt strict_eq_float 0 negative_zero 1%positive s
     = (Some 1%positive, s)
  /\ s !! 1%positive = Some [integer 0]
  /\ [integer 0] <> <[0%nat := negative_zero]> [integer 0].
Proof. cbv zeta. split; [reflexivity|]. split; [by vm_compute|]. split; done. Qed.

Lemma operations_preserve_input_witness :
  Forall (fun call : ReadonlyArrayStore.M Z (option positive) =>
            ReadonlyArrayStore.preserves store312 1%positive (call store312)
            /\ (call store312).2 !! 1%positive = Some [3; 1; 2])
    [ ReadonlyArrayStore.always (ReadonlyArrayStore.sort sorted_by ordNumber 1%positive);
      ReadonlyArrayStore.always (ReadonlyArrayStore.reverse 1%positive);
      ReadonlyArrayStore.insertAt 1 7 1%positive;
      ReadonlyArrayStore.deleteAt 1 1%positive;
      ReadonlyArrayStore.updateAt Z.eqb 1 7 1%positive;
      ReadonlyArrayStore.modifyAt Z.eqb 1 Z.succ 1%positive;
      ReadonlyArrayStore.always (ReadonlyArrayStore.cons 7 1%positive);
      ReadonlyArrayStore.always (ReadonlyArrayStore.snoc 1%positive 7) ].
Proof.
  apply (ReadonlyArrayStoreFacts.operations_preserve_input Z.eqb sorted_by ordNumber
           1 7 Z.succ store312 1%positive [3; 1; 2]).
  reflexivity.
Defined.

Lemma chunksOf_flatten_witness :
  exists chunks : list (list Z),
    ReadonlyArray.chunksOf 6 2 [1; 2; 3; 4; 5] = Some chunks
    /\ ReadonlyArray.flatten chunks = [1; 2; 3; 4; 5]
    /\ (forall c, c ∈ chunks -> c <> [])
    /\ (forall (i : nat) c,
          (i + 1 < length chunks)%nat -> chunks !! i = Some c -> Z.of_nat (length c) = 2).
Proof.
  apply (ReadonlyArrayFacts.chunksOf_flatten 2 [1; 2; 3; 4; 5] 6).
  - lia.
  - simpl. lia.
Defined.

Lemma scanLeft_steps_witness :
  let r := ReadonlyArray.scanLeft 10 (fun b a => b - a) [1; 2; 3] in
  length r = (length [1; 2; 3] + 1)%nat
  /\ get r 0 = 10
  /\ get r (1 + 1) = get r 1 - get [1; 2; 3] 1
  /\ get r (length [1; 2; 3]) = ReadonlyArray.reduce 10 (fun b a => b - a) [1; 2; 3].
Proof.
  destruct (ReadonlyArrayFacts.scanLeft_steps 10 (fun b a => b - a) [1; 2; 3])
    as (Hlen & Hfirst & Hstep & Hlast).
  split; [exact Hlen|]. split; [exact Hfirst|]. split; [|exact Hlast].
  apply (Hstep 1%nat). simpl. lia.
Defined.

(** On the empty array [scanLeft(b, f)] is the array of [b] alone. *)
Example scanLeft_empty : ReadonlyArray.scanLeft 10 (fun b a => b - a) [] = [10].
Proof. reflexivity. Qed.

(** The race of two tasks that settle in the same instant goes to the one
    the job queue serves first: [concat(map(n => n + 10)(of(1)), of(2))]
    resolves with [2] when the promise of [of(2)], settled when it is
    made, is served before the promise [then] made. *)
Example race_same_instant :
  match TaskMonoid.concat (Task.getRaceMonoid (H:=listed_last))
          (Task.map (fun n : Z => Returns (n + 10)) (Task.of_ 1)) (Task.of_ 2) with
  | Returns race => race 0%nat = Returns (Settled 0 (Resolved 2))
  | Throws _ => False
  end
  /\ match TaskMonoid.concat (Task.getRaceMonoid (H:=listed_first))
             (Task.map (fun n : Z => Returns (n + 10)) (Task.of_ 1)) (Task.of_ 2) with
     | Returns race => race 0%nat = Returns (Settled 0 (Resolved 11))
     | Throws _ => False
     end.
Proof. split; reflexivity. Qed.

(** [of] of a value that is a rejected promise rejects, and a function
    that returns one makes [map] reject. *)
Example task_of_rejected_promise :
  Task.of_ rejected_promise 0%nat = Returns (Settled 0 (Rejected tt))
  /\ Task.map (fun _ : Z => Returns rejected_promise) (Task.of_ 1) 0%nat
     = Returns (Settled 0 (Rejected tt)).
Proof. split; reflexivity. Qed.

(** C3, as stated, fails twice.  [never] is a component task that never
    rejects, yet a task built from it with a function that never throws
    never resolves.  And [of] of a rejected promise, built from no
    component task and no function at all, rejects. *)
Lemma built_task_fails :
  (let x : Task.Task (E:=unit) Z := Task.map (fun a : Z => Returns (a + 1)) Task.never in
   Task.Built (fun A y => Task.never_rejects y) (fun A q => True) Z x
   /\ Task.never_throws (E:=unit) (fun a : Z => Returns (a + 1))
   /\ ~ Task.always_resolves x)
  /\ (let x : Task.Task (E:=unit) value := Task.of_ rejected_promise in
      Task.Built (fun A y => False) (fun A q => True) value x
      /\ ~ Task.never_rejects x).
Proof.
  cbv zeta. split; [split; [|split]|split].
  - apply Task.Built_map.
    + intros a. by eexists.
    + by intros a b _ q _.
    + apply Task.Built_component. intros now. eexists. split; [done|]. done.
  - intros a. by eexists.
  - intros Hres. by destruct (Hres 0%nat) as (t & a & Ha).
  - apply Task.Built_of. by intros q _.
  - intros Hrej. destruct (Hrej 0%nat) as (p & Hp & Hun).
    injection Hp as <-. by apply (Hun 0%nat tt).
Qed.

Lemma built_task_never_fails_witness :
  let c : Task.Task (E:=unit) Z := fun now => Returns (Settled (now + 2) (Resolved 1)) in
  let x : Task.Task (E:=unit) Z :=
    Task.delay 5 (Task.map (fun a : Z => Returns (a + 1)) c) in
  Task.never_rejects x /\ Task.always_resolves x.
Proof.
  cbv zeta.
  pose proof (TaskFacts.built_task_never_fails
                (fun A y => Task.always_resolves y) (fun A q => False) Z
                (Task.delay 5 (Task.map (fun a : Z => Returns (a + 1))
                   (fun now => Returns (Settled (now + 2) (Resolved 1)))))) as Hbuilt.
  destruct Hbuilt as [Hrej Hres].
  - apply Task.Built_delay, Task.Built_map.
    + intros a. by eexists.
    + by intros a b _ q.
    + apply Task.Built_component. intros now. by do 2 eexists.
  - intros A y Hy now. destruct (Hy now) as (t & a & ->).
    eexists. split; [reflexivity|]. intros at_ e. discriminate.
  - intros A q [].
  - split; [exact Hrej|]. apply Hres.
    + intros A y Hy. exact Hy.
    + intros A q [].
Defined.


End Examples.

(** ** The rest of the array module: construction, access and slicing *)

Module ReadonlyArrayRestFacts.
Import Host HostMore ReadonlyArray Reference ReferenceRest ReadonlyArrayFacts.

Section slicing.
Context {A : Type} `{Undefined A}.

Lemma for_push {B : Type} (g : nat -> B) (n : nat) (r : list B) :
  for_ n (fun i r => push r (g i)) r = r ++ List.map g (seq 0 n).
Proof.
  induction n as [|n IH]; [by rewrite app_nil_r|].
  rewrite for_S, IH, seq_S, map_app. unfold push. by rewrite <- app_assoc.
Qed.

Lemma makeBy_spec (n : Z) (f : Z -> A) :
  ReadonlyArrayRest.makeBy n f = List.map (fun i => f (Z.of_nat i)) (seq 0 (Z.to_nat n)).
Proof. unfold ReadonlyArrayRest.makeBy. cbv zeta. by rewrite for_push. Qed.

Lemma lookup_in_bounds (i : Z) (as_ : list A) (x : A) :
  0 <= i -> as_ !! Z.to_nat i = Some x -> lookup i as_ = Some x.
Proof.
  intros Hi Hx. unfold lookup, isOutOfBound, index.
  pose proof (lookup_lt_Some _ _ _ Hx).
  destruct (Z.ltb_spec i 0) as [?|_]; [lia|].
  destruct (Z.geb_spec i (Z.of_nat (length as_))) as [?|_]; [lia|]. simpl.
  by rewrite (get_lookup as_ _ x Hx).
Qed.

(** [makeBy(n, f)] has [n] elements (none for [n <= 0]) and [f(i)] is the
    one at index [i]. *)
Theorem makeBy_length_lookup (n : Z) (f : Z -> A) :
  length (ReadonlyArrayRest.makeBy n f) = Z.to_nat n
  /\ forall i, 0 <= i < n -> lookup i (ReadonlyArrayRest.makeBy n f) = Some (f i).
Proof.
  rewrite makeBy_spec. split; [by rewrite length_map, length_seq|].
  intros i Hi. apply lookup_in_bounds; [lia|].
  rewrite list_lookup_fmap, lookup_seq_lt by lia. simpl. f_equal. f_equal. lia.
Qed.

Lemma get_app_l (l1 l2 : list A) (i : nat) :
  (i < length l1)%nat -> get (l1 ++ l2) i = get l1 i.
Proof. intros Hi. unfold get. by rewrite app_nth1. Qed.

(** A loop over the indices of an array is a fold over its elements. *)
Lemma for_each {S : Type} (as_ : list A) (step : A -> S -> S) (s : S) :
  for_ (length as_) (fun i s => step (get as_ i) s) s
  = fold_left (fun s a => step a s) as_ s.
Proof.
  induction as_ as [|a as_ IH] using rev_ind; [done|].
  rewrite length_app, Nat.add_1_r, for_S, fold_left_app. simpl.
  rewrite <- IH. f_equal.
  - unfold get. by rewrite app_nth2, Nat.sub_diag by lia.
  - apply for_ext. intros i s' Hi. by rewrite get_app_l.
Qed.

Lemma slice_general (as_ : list A) (start : Z) (end_ : option Z) :
  slice as_ start end_
  = take (Z.to_nat (match end_ with
                    | None => Z.of_nat (length as_)
                    | Some e => rel_index (Z.of_nat (length as_)) e
                    end - rel_index (Z.of_nat (length as_)) start))
      (drop (Z.to_nat (rel_index (Z.of_nat (length as_)) start)) as_).
Proof. done. Qed.

Lemma rel_index_range (len k : Z) : 0 <= len -> 0 <= rel_index len k <= len.
Proof. intros Hlen. unfold rel_index. destruct (Z.ltb_spec k 0); lia. Qed.

(** [takeLeft(n)] and [dropLeft(n)] cut the array at the same place,
    whatever the integer [n]: together they give the array back. *)
Theorem takeLeft_dropLeft (n : Z) (as_ : list A) :
  concat (ReadonlyArrayRest.takeLeft n as_) (ReadonlyArrayRest.dropLeft n as_) = as_.
Proof.
  rewrite concat_spec. unfold ReadonlyArrayRest.takeLeft, ReadonlyArrayRest.dropLeft.
  rewrite !slice_general.
  pose proof (rel_index_range (Z.of_nat (length as_)) n ltac:(lia)) as Hk.
  set (k := rel_index (Z.of_nat (length as_)) n) in *.
  assert (H0 : rel_index (Z.of_nat (length as_)) 0 = 0) by (unfold rel_index; simpl; lia).
  assert (Hl : rel_index (Z.of_nat (length as_)) (Z.of_nat (length as_))
               = Z.of_nat (length as_)).
  { unfold rel_index. destruct (Z.ltb_spec (Z.of_nat (length as_)) 0); lia. }
  rewrite H0, Hl. simpl. rewrite drop_0, Z.sub_0_r.
  rewrite (take_ge (drop _ _)) by (rewrite length_drop; lia).
  apply take_drop.
Qed.

Lemma takeRight_spec (n : Z) (as_ : list A) :
  0 <= n <= Z.of_nat (length as_) ->
  ReadonlyArrayRest.takeRight n as_ = drop (length as_ - Z.to_nat n) as_.
Proof.
  intros Hn. unfold ReadonlyArrayRest.takeRight.
  destruct (Z.eqb_spec n 0) as [->|Hn0].
  { simpl. by rewrite Nat.sub_0_r, drop_all. }
  rewrite slice_general. unfold rel_index.
  destruct (Z.ltb_spec (- n) 0) as [_|?]; [|lia].
  rewrite Z.max_l by lia.
  replace (Z.to_nat (Z.of_nat (length as_) + - n)) with (length as_ - Z.to_nat n)%nat by lia.
  apply take_ge. rewrite length_drop. lia.
Qed.

Lemma dropRight_spec (n : Z) (as_ : list A) :
  0 <= n <= Z.of_nat (length as_) ->
  ReadonlyArrayRest.dropRight n as_ = take (length as_ - Z.to_nat n) as_.
Proof.
  intros Hn. unfold ReadonlyArrayRest.dropRight.
  rewrite slice_prefix by lia. f_equal. lia.
Qed.

(** For [0 <= n <= as.length], [takeRight(n)] is the last [n] elements and
    [dropRight(n)] the others: together they give the array back. *)
Theorem dropRight_takeRight (n : Z) (as_ : list A)
    (Hn : 0 <= n <= Z.of_nat (length as_)) :
  concat (ReadonlyArrayRest.dropRight n as_) (ReadonlyArrayRest.takeRight n as_) = as_
  /\ length (ReadonlyArrayRest.takeRight n as_) = Z.to_nat n.
Proof.
  rewrite concat_spec, takeRight_spec, dropRight_spec by done.
  split; [apply take_drop|]. rewrite length_drop. lia.
Qed.

(** Past the length, [dropRight(n)] does not stay empty: the negative end
    it hands to [slice] counts from the end, so for [as.length < n] the
    result is the first [2 * as.length - n] elements. *)
Theorem dropRight_past_length (n : Z) (as_ : list A)
    (Hn : Z.of_nat (length as_) < n) :
  ReadonlyArrayRest.dropRight n as_ = take (Z.to_nat (2 * Z.of_nat (length as_) - n)) as_.
Proof.
  unfold ReadonlyArrayRest.dropRight. rewrite slice_general.
  assert (H0 : rel_index (Z.of_nat (length as_)) 0 = 0) by (unfold rel_index; simpl; lia).
  rewrite H0. simpl. rewrite drop_0, Z.sub_0_r. f_equal. unfold rel_index.
  destruct (Z.ltb_spec (Z.of_nat (length as_) - n) 0); lia.
Qed.

(** [head] with [tail], and [init] with [last], take a non-empty array
    apart so that [cons] and [snoc] put it together again; all four are
    [none] on the empty array and only there. *)
Theorem head_tail_init_last (as_ : list A) :
  match ReadonlyArrayRest.head as_, ReadonlyArrayRest.tail as_ with
  | Some h, Some t => cons h t = as_
  | None, None => as_ = []
  | _, _ => False
  end
  /\ match ReadonlyArrayRest.init as_, ReadonlyArrayRest.last as_ with
     | Some i, Some l => snoc i l = as_
     | None, None => as_ = []
     | _, _ => False
     end.
Proof.
  split.
  - unfold ReadonlyArrayRest.head, ReadonlyArrayRest.tail, isEmpty.
    destruct as_ as [|a as_]; [done|]. simpl Nat.eqb. cbv iota.
    by rewrite slice_tail, cons_spec.
  - unfold ReadonlyArrayRest.init, ReadonlyArrayRest.last.
    destruct as_ as [|a as_] using rev_ind; [done|]. clear IHas_.
    cbv zeta. rewrite length_app, Nat.add_1_r. simpl Nat.eqb. cbv iota.
    rewrite slice_prefix by lia.
    replace (Z.to_nat (Z.of_nat (Datatypes.S (length as_)) - 1)) with (length as_) by lia.
    rewrite take_app_length.
    rewrite (lookup_in_bounds _ (as_ ++ [a]) a); [by rewrite snoc_spec|lia|].
    replace (Z.to_nat (Z.of_nat (Datatypes.S (length as_)) - 1)) with (length as_) by lia.
    by rewrite lookup_app_r, Nat.sub_diag.
Qed.
End slicing.

Section ranges.
Context `{Undefined Z}.

(** Within the integers that doubles hold exactly, [range(start, end)] is
    computed without rounding. *)
Lemma range_spec (start end_ : Z) :
  Z.abs start <= 2 ^ 53 -> Z.abs end_ <= 2 ^ 53 -> end_ - start < 2 ^ 53 ->
  ReadonlyArrayRest.range start end_
  = List.map (fun i => start + Z.of_nat i) (seq 0 (Z.to_nat (end_ - start + 1))).
Proof.
  intros Hstart Hend Hlen. unfold ReadonlyArrayRest.range. rewrite makeBy_spec.
  assert (H53 : 2 ^ 53 = 9007199254740992) by reflexivity.
  assert (Hn : Z.to_nat (to_double (to_double (end_ - start) + 1))
               = Z.to_nat (end_ - start + 1)).
  { destruct (Z.le_gt_cases start end_) as [Hle|Hgt].
    - rewrite (to_double_safe (end_ - start)) by lia. by rewrite to_double_safe by lia.
    - assert (Hd : to_double (end_ - start) < 0) by (apply to_double_negative; lia).
      destruct (decide (to_double (end_ - start) + 1 = 0)) as [->|Hne].
      + rewrite to_double_safe by lia. lia.
      + pose proof (to_double_negative (to_double (end_ - start) + 1)). lia. }
  rewrite Hn. apply map_ext_in. intros i Hi%in_seq.
  apply to_double_safe. lia.
Qed.

(** [range(start, end)], for integers [start] and [end] that doubles hold
    exactly and that are less than [2 ^ 53] apart, is empty when
    [end < start]; otherwise it holds the [end - start + 1] integers from
    [start] to [end], both included. *)
Theorem range_endpoints (start end_ : Z)
    (Hstart : Z.abs start <= 2 ^ 53) (Hend : Z.abs end_ <= 2 ^ 53)
    (Hlen : end_ - start < 2 ^ 53) :
  (end_ < start -> ReadonlyArrayRest.range start end_ = [])
  /\ (start <= end_ ->
      length (ReadonlyArrayRest.range start end_) = Z.to_nat (end_ - start + 1)
      /\ ReadonlyArrayRest.head (ReadonlyArrayRest.range start end_) = Some start
      /\ ReadonlyArrayRest.last (ReadonlyArrayRest.range start end_) = Some end_
      /\ forall i, 0 <= i <= end_ - start ->
           lookup i (ReadonlyArrayRest.range start end_) = Some (start + i)).
Proof.
  rewrite (range_spec start end_ Hstart Hend Hlen). split.
  - intros Hlt. by replace (Z.to_nat (end_ - start + 1)) with 0%nat by lia.
  - intros Hle.
    assert (Hlook : forall i, 0 <= i <= end_ - start ->
              List.map (fun i => start + Z.of_nat i) (seq 0 (Z.to_nat (end_ - start + 1)))
                !! Z.to_nat i = Some (start + i)).
    { intros i Hi. rewrite list_lookup_fmap, lookup_seq_lt by lia. simpl.
      f_equal. lia. }
    split; [by rewrite length_map, length_seq|]. split; [|split].
    + unfold ReadonlyArrayRest.head, isEmpty.
      rewrite length_map, length_seq.
      destruct (Nat.eqb_spec (Z.to_nat (end_ - start + 1)) 0) as [?|_]; [lia|].
      f_equal. rewrite (get_lookup _ 0 (start + 0)); [lia|]. apply (Hlook 0). lia.
    + unfold ReadonlyArrayRest.last. rewrite length_map, length_seq.
      rewrite (lookup_in_bounds _ _ (start + (end_ - start))).
      * f_equal. lia.
      * lia.
      * replace (Z.of_nat (Z.to_nat (end_ - start + 1)) - 1) with (end_ - start) by lia.
        apply Hlook. lia.
    + intros i Hi. apply lookup_in_bounds; [lia|]. by apply Hlook.
Qed.
End ranges.

Section searching.
Context {A : Type} `{Undefined A}.

Lemma for_exit_find {R : Type} (test : nat -> bool) (res : nat -> R) (rounds from : nat) :
  match for_exit rounds from (fun i (_ : unit) => if test i then inr (res i) else inl tt) tt
  with
  | inl _ => forall i, (from <= i < from + rounds)%nat -> test i = false
  | inr r => exists k, (from <= k < from + rounds)%nat /\ test k = true /\ r = res k
                       /\ forall i, (from <= i < k)%nat -> test i = false
  end.
Proof.
  revert from. induction rounds as [|rounds IH]; intros from; simpl.
  { intros i Hi. lia. }
  destruct (test from) eqn:Hfrom.
  { exists from. repeat split; try done; try lia; intros i Hi; lia. }
  specialize (IH (Datatypes.S from)).
  destruct (for_exit rounds (Datatypes.S from) _ tt) as [[]|r].
  - intros i Hi. destruct (decide (i = from)) as [->|Hne]; [done|]. apply IH. lia.
  - destruct IH as (k & Hk & Htest & -> & Hleast). exists k.
    split; [lia|]. split; [done|]. split; [done|].
    intros i Hi. destruct (decide (i = from)) as [->|Hne]; [done|]. apply Hleast. lia.
Qed.

Lemma for_exit_map {R R' : Type} (g : R -> R') (test : nat -> bool) (res : nat -> R)
    (rounds from : nat) :
  for_exit rounds from (fun i (_ : unit) => if test i then inr (g (res i)) else inl tt) tt
  = match for_exit rounds from
            (fun i (_ : unit) => if test i then inr (res i) else inl tt) tt with
    | inl u => inl u
    | inr r => inr (g r)
    end.
Proof.
  revert from. induction rounds as [|rounds IH]; intros from; simpl; [done|].
  destruct (test from); [done|]. apply IH.
Qed.

Lemma for_down_exit_find {R : Type} (test : nat -> bool) (res : nat -> R) (n : nat) :
  match for_down_exit n (fun i (_ : unit) => if test i then inr (res i) else inl tt) tt with
  | inl _ => forall i, (i < n)%nat -> test i = false
  | inr r => exists k, (k < n)%nat /\ test k = true /\ r = res k
                       /\ forall i, (k < i < n)%nat -> test i = false
  end.
Proof.
  induction n as [|n IH]; simpl.
  { intros i Hi. lia. }
  destruct (test n) eqn:Hn.
  { exists n. repeat split; try done; try lia; intros i Hi; lia. }
  destruct (for_down_exit n _ tt) as [[]|r].
  - intros i Hi. destruct (decide (i = n)) as [->|Hne]; [done|]. apply IH. lia.
  - destruct IH as (k & Hk & Htest & -> & Hlast). exists k.
    split; [lia|]. split; [done|]. split; [done|].
    intros i Hi. destruct (decide (i = n)) as [->|Hne]; [done|]. apply Hlast. lia.
Qed.

Lemma for_down_exit_map {R R' : Type} (g : R -> R') (test : nat -> bool) (res : nat -> R)
    (n : nat) :
  for_down_exit n (fun i (_ : unit) => if test i then inr (g (res i)) else inl tt) tt
  = match for_down_exit n (fun i (_ : unit) => if test i then inr (res i) else inl tt) tt
    with
    | inl u => inl u
    | inr r => inr (g r)
    end.
Proof.
  induction n as [|n IH]; simpl; [done|]. destruct (test n); [done|]. apply IH.
Qed.

Lemma lookup_get (as_ : list A) (i : nat) :
  (i < length as_)%nat -> as_ !! i = Some (get as_ i).
Proof.
  intros Hi. destruct (lookup_lt_is_Some_2 as_ i Hi) as [x Hx].
  by rewrite (get_lookup as_ i x Hx).
Qed.

(** [findIndex(p)(as)] is the least index whose element satisfies [p], and
    [none] exactly when no element does. *)
Theorem findIndex_least (predicate : A -> bool) (as_ : list A) :
  match ReadonlyArrayRest.findIndex predicate as_ with
  | Some i =>
      (exists x, as_ !! i = Some x /\ predicate x = true)
      /\ forall j y, (j < i)%nat -> as_ !! j = Some y -> predicate y = false
  | None => forall x, x ∈ as_ -> predicate x = false
  end.
Proof.
  unfold ReadonlyArrayRest.findIndex. cbv zeta.
  pose proof (for_exit_find (fun i => predicate (get as_ i)) Some (length as_) 0) as Hf.
  destruct (for_exit (length as_) 0 _ tt) as [[]|r].
  - intros x [i Hi]%list_elem_of_lookup.
    rewrite <- (get_lookup as_ i x Hi). apply Hf. apply lookup_lt_Some in Hi. lia.
  - destruct Hf as (k & Hk & Htest & -> & Hleast). split.
    + exists (get as_ k). split; [apply lookup_get; lia|done].
    + intros j y Hj Hy. rewrite <- (get_lookup as_ j y Hy). apply Hleast. lia.
Qed.

(** [findLastIndex(p)(as)] is the greatest index whose element satisfies
    [p], and [none] exactly when no element does. *)
Theorem findLastIndex_greatest (predicate : A -> bool) (as_ : list A) :
  match ReadonlyArrayRest.findLastIndex predicate as_ with
  | Some i =>
      (exists x, as_ !! i = Some x /\ predicate x = true)
      /\ forall j y, (i < j)%nat -> as_ !! j = Some y -> predicate y = false
  | None => forall x, x ∈ as_ -> predicate x = false
  end.
Proof.
  unfold ReadonlyArrayRest.findLastIndex. cbv zeta.
  pose proof (for_down_exit_find (fun i => predicate (get as_ i)) Some (length as_)) as Hf.
  destruct (for_down_exit (length as_) _ tt) as [[]|r].
  - intros x [i Hi]%list_elem_of_lookup.
    rewrite <- (get_lookup as_ i x Hi). apply Hf. by apply lookup_lt_Some in Hi.
  - destruct Hf as (k & Hk & Htest & -> & Hlast). split.
    + exists (get as_ k). split; [by apply lookup_get|done].
    + intros j y Hj Hy. rewrite <- (get_lookup as_ j y Hy). apply Hlast.
      apply lookup_lt_Some in Hy. lia.
Qed.

(** [findFirst] and [findLast] return the elements at the indices that
    [findIndex] and [findLastIndex] return. *)
Theorem find_element_at_index (predicate : A -> bool) (as_ : list A) :
  ReadonlyArrayRest.findFirst predicate as_
  = ReadonlyArrayRest.findIndex predicate as_ ≫= (fun i => lookup (Z.of_nat i) as_)
  /\ ReadonlyArrayRest.findLast predicate as_
    = ReadonlyArrayRest.findLastIndex predicate as_ ≫= (fun i => lookup (Z.of_nat i) as_).
Proof.
  split.
  - unfold ReadonlyArrayRest.findFirst, ReadonlyArrayRest.findIndex. cbv zeta.
    rewrite (for_exit_map (fun k => Some (get as_ k)) (fun i => predicate (get as_ i))
               (fun k => k)).
    rewrite (for_exit_map Some (fun i => predicate (get as_ i)) (fun k => k)).
    pose proof (for_exit_find (fun i => predicate (get as_ i)) (fun k => k)
                  (length as_) 0) as Hf.
    destruct (for_exit (length as_) 0 _ tt) as [[]|r]; [done|].
    destruct Hf as (k & Hk & _ & -> & _). simpl. symmetry.
    apply lookup_in_bounds; [lia|]. rewrite Nat2Z.id. apply lookup_get. lia.
  - unfold ReadonlyArrayRest.findLast, ReadonlyArrayRest.findLastIndex. cbv zeta.
    rewrite (for_down_exit_map (fun k => Some (get as_ k))
               (fun i => predicate (get as_ i)) (fun k => k)).
    rewrite (for_down_exit_map Some (fun i => predicate (get as_ i)) (fun k => k)).
    pose proof (for_down_exit_find (fun i => predicate (get as_ i)) (fun k => k)
                  (length as_)) as Hf.
    destruct (for_down_exit (length as_) _ tt) as [[]|r]; [done|].
    destruct Hf as (k & Hk & _ & -> & _). simpl. symmetry.
    apply lookup_in_bounds; [lia|]. rewrite Nat2Z.id. by apply lookup_get.
Qed.

Lemma spanIndexUncurry_spec (predicate : A -> bool) (as_ : list A) :
  let i := ReadonlyArrayRest.spanIndexUncurry as_ predicate in
  (i <= length as_)%nat
  /\ (forall j, (j < i)%nat -> predicate (get as_ j) = true)
  /\ ((i < length as_)%nat -> predicate (get as_ i) = false).
Proof.
  unfold ReadonlyArrayRest.spanIndexUncurry. cbv zeta.
  pose proof (for_exit_find (fun i => negb (predicate (get as_ i))) (fun k => k)
                (length as_) 0) as Hf.
  destruct (for_exit (length as_) 0 _ tt) as [[]|r].
  - split; [done|]. split; [|lia].
    intros j Hj. apply negb_false_iff, Hf. lia.
  - destruct Hf as (k & Hk & Htest & -> & Hleast). split; [lia|]. split.
    + intros j Hj. apply negb_false_iff, Hleast. lia.
    + intros _. by apply negb_true_iff.
Qed.

Lemma for_from_shift {S : Type} (from to : nat) (body : nat -> S -> S) (s : S) :
  for_from from to body s = for_ (to - from) (fun k s => body (from + k)%nat s) s.
Proof.
  unfold for_from, for_. generalize (to - from)%nat as n. intros n.
  induction n as [|n IH]; [done|].
  by rewrite !seq_S, !fold_left_app, IH.
Qed.

Lemma get_drop (as_ : list A) (i k : nat) : get (drop i as_) k = get as_ (i + k).
Proof. unfold get. by rewrite nth_skipn. Qed.

Lemma for_copy_rest (as_ : list A) (i : nat) :
  (i <= length as_)%nat ->
  for_from i (length as_) (fun j rest => set rest (j - i) (get as_ j))
    (Array_ (length as_ - i))
  = drop i as_.
Proof.
  intros Hi. rewrite for_from_shift.
  rewrite (for_ext _ _ (fun k rest => set rest k (get (drop i as_) k))).
  2:{ intros k rest _. rewrite get_drop. f_equal. lia. }
  rewrite for_copy0 by (rewrite ?length_drop, ?length_Array_; lia).
  rewrite <- (length_drop as_ i) at 1. rewrite firstn_all.
  rewrite (drop_ge (Array_ _)) by (rewrite length_Array_; lia). apply app_nil_r.
Qed.

Lemma for_copy_init (as_ : list A) (i : nat) :
  (i <= length as_)%nat ->
  for_ i (fun j init => set init j (get as_ j)) (Array_ i) = take i as_.
Proof.
  intros Hi. rewrite for_copy0 by (rewrite ?length_Array_; lia).
  rewrite (drop_ge (Array_ _)) by (rewrite length_Array_; lia). apply app_nil_r.
Qed.

(** [spanLeft(p)(as)] cuts [as] in two: [init] is the longest prefix whose
    elements all satisfy [p], and [rest], the remainder, is empty or starts
    with an element that does not.  [takeLeftWhile] returns that [init] and
    [dropLeftWhile] that [rest]. *)
Theorem spanLeft_longest_prefix (predicate : A -> bool) (as_ : list A) :
  let s := ReadonlyArrayRest.spanLeft predicate as_ in
  concat (Span.init s) (Span.rest s) = as_
  /\ (forall x, x ∈ Span.init s -> predicate x = true)
  /\ match Span.rest s with
     | [] => True
     | x :: _ => predicate x = false
     end
  /\ ReadonlyArrayRest.takeLeftWhile predicate as_ = Span.init s
  /\ ReadonlyArrayRest.dropLeftWhile predicate as_ = Span.rest s.
Proof.
  unfold ReadonlyArrayRest.spanLeft, ReadonlyArrayRest.takeLeftWhile,
    ReadonlyArrayRest.dropLeftWhile. cbv zeta. simpl.
  destruct (spanIndexUncurry_spec predicate as_) as (Hle & Hall & Hstop).
  set (i := ReadonlyArrayRest.spanIndexUncurry as_ predicate) in *.
  rewrite for_copy_init, for_copy_rest by done.
  split; [rewrite concat_spec; apply take_drop|].
  split; [|split; [|done]].
  - intros x [j Hj]%list_elem_of_lookup.
    pose proof (lookup_lt_Some _ _ _ Hj) as Hlt. rewrite length_take in Hlt.
    rewrite lookup_take_lt in Hj by lia.
    rewrite <- (get_lookup as_ j x Hj). apply Hall. lia.
  - destruct (drop i as_) as [|x rest] eqn:Hd; [done|].
    assert (Hi : (i < length as_)%nat).
    { apply (f_equal length) in Hd. rewrite length_drop in Hd. simpl in Hd. lia. }
    rewrite <- (Hstop Hi). f_equal.
    assert (Hx : drop i as_ !! 0%nat = Some x) by (by rewrite Hd).
    rewrite lookup_drop, Nat.add_0_r in Hx. by rewrite (get_lookup as_ i x Hx).
Qed.

(** [findFirstMap(f)] and [findLastMap(f)] return [f] of the first and of
    the last element on which [f] is not [none]. *)
Theorem findMap_is_find_then_map {B : Type} (f : A -> option B) (as_ : list A) :
  ReadonlyArrayRest.findFirstMap f as_
  = ReadonlyArrayRest.findFirst (fun a => bool_decide (is_Some (f a))) as_ ≫= f
  /\ ReadonlyArrayRest.findLastMap f as_
    = ReadonlyArrayRest.findLast (fun a => bool_decide (is_Some (f a))) as_ ≫= f.
Proof.
  split.
  - unfold ReadonlyArrayRest.findFirstMap, ReadonlyArrayRest.findFirst. cbv zeta.
    assert (Hext : forall rounds from,
      for_exit rounds from (fun i (_ : unit) =>
          let v := f (get as_ i) in if is_Some_dec v then inr v else inl tt) tt
      = for_exit rounds from (fun i (_ : unit) =>
          if bool_decide (is_Some (f (get as_ i))) then inr (f (get as_ i)) else inl tt) tt).
    { induction rounds as [|rounds IH]; intros from; simpl; [done|].
      destruct (is_Some_dec (f (get as_ from))) as [Hs|Hn].
      - by rewrite bool_decide_eq_true_2.
      - rewrite bool_decide_eq_false_2 by done. apply IH. }
    rewrite Hext.
    rewrite (for_exit_map (fun k => f (get as_ k))
               (fun i => bool_decide (is_Some (f (get as_ i)))) (fun k => k)).
    rewrite (for_exit_map (fun k => Some (get as_ k))
               (fun i => bool_decide (is_Some (f (get as_ i)))) (fun k => k)).
    by destruct (for_exit (length as_) 0 _ tt) as [[]|r].
  - unfold ReadonlyArrayRest.findLastMap, ReadonlyArrayRest.findLast. cbv zeta.
    assert (Hext : forall n,
      for_down_exit n (fun i (_ : unit) =>
          let v := f (get as_ i) in if is_Some_dec v then inr v else inl tt) tt
      = for_down_exit n (fun i (_ : unit) =>
          if bool_decide (is_Some (f (get as_ i))) then inr (f (get as_ i)) else inl tt) tt).
    { induction n as [|n IH]; simpl; [done|].
      destruct (is_Some_dec (f (get as_ n))) as [Hs|Hn].
      - by rewrite bool_decide_eq_true_2.
      - rewrite bool_decide_eq_false_2 by done. apply IH. }
    rewrite Hext.
    rewrite (for_down_exit_map (fun k => f (get as_ k))
               (fun i => bool_decide (is_Some (f (get as_ i)))) (fun k => k)).
    rewrite (for_down_exit_map (fun k => Some (get as_ k))
               (fun i => bool_decide (is_Some (f (get as_ i)))) (fun k => k)).
    by destruct (for_down_exit (length as_) _ tt) as [[]|r].
Qed.
End searching.

Section scanning.
Context {A B : Type} `{Undefined A} `{Undefined B}.

Lemma length_scanr (f : A -> B -> B) (b : B) (as_ : list A) :
  length (scanr f b as_) = Datatypes.S (length as_).
Proof. induction as_ as [|a as_ IH]; simpl; [done|]. by rewrite IH. Qed.

Lemma get_scanr (f : A -> B -> B) (b : B) (as_ : list A) (i : nat) :
  (i <= length as_)%nat -> get (scanr f b as_) i = fold_right f b (drop i as_).
Proof.
  revert i. induction as_ as [|a as_ IH]; intros [|i] Hi; simpl in *; try done; try lia.
  apply IH. lia.
Qed.

Lemma for_down_S {S : Type} (i : nat) (body : nat -> S -> S) (s : S) :
  for_down (Datatypes.S i) body s = for_down i body (body i s).
Proof. done. Qed.

Lemma for_down_scanRight (f : A -> B -> B) (b : B) (as_ : list A) (k : nat) :
  (k <= length as_)%nat ->
  for_down k (fun i r => set r i (f (get as_ i) (get r (i + 1))))
    (replicate k undefined ++ scanr f b (drop k as_))
  = scanr f b as_.
Proof.
  induction k as [|k IH]; intros Hk; [done|].
  rewrite for_down_S, <- IH by lia. f_equal.
  destruct (lookup_lt_is_Some_2 as_ k ltac:(lia)) as [a Ha].
  rewrite (get_lookup as_ k a Ha).
  assert (Hget : get (replicate (Datatypes.S k) undefined ++ scanr f b (drop (Datatypes.S k) as_))
                   (k + 1) = fold_right f b (drop (Datatypes.S k) as_)).
  { unfold get. rewrite app_nth2 by (rewrite length_replicate; lia).
    rewrite length_replicate. replace (k + 1 - Datatypes.S k)%nat with 0%nat by lia.
    apply (get_scanr f b (drop (Datatypes.S k) as_) 0). lia. }
  rewrite Hget. unfold set.
  rewrite length_app, length_replicate.
  destruct (Nat.ltb_spec k (Datatypes.S k + length (scanr f b (drop (Datatypes.S k) as_))))
    as [_|?]; [|lia].
  rewrite replicate_S_end, <- app_assoc.
  rewrite insert_app_r_alt by (rewrite length_replicate; lia).
  rewrite length_replicate, Nat.sub_diag. simpl.
  by rewrite (drop_S as_ a k Ha).
Qed.

Lemma scanRight_spec (f : A -> B -> B) (b : B) (as_ : list A) :
  ReadonlyArrayRest.scanRight b f as_ = scanr f b as_.
Proof.
  unfold ReadonlyArrayRest.scanRight. cbv zeta.
  rewrite <- (for_down_scanRight f b as_ (length as_)) by lia. f_equal.
  unfold set, Array_. rewrite length_replicate.
  destruct (Nat.ltb_spec (length as_) (length as_ + 1)) as [_|?]; [|lia].
  rewrite drop_all. simpl.
  rewrite Nat.add_1_r, replicate_S_end.
  rewrite insert_app_r_alt by (rewrite length_replicate; lia).
  by rewrite length_replicate, Nat.sub_diag.
Qed.

Lemma pair_imap_fold_right {S : Type} (g : A -> S -> S) (s : S) (as_ : list A) (k : nat) :
  fold_right (fun (ix : nat * A) b => g ix.2 b) s (imap (fun i x => (k + i, x)%nat) as_)
  = fold_right g s as_.
Proof.
  revert k. induction as_ as [|a as_ IH]; intros k; [done|].
  simpl. f_equal. rewrite <- (IH (Datatypes.S k)). f_equal.
  apply imap_ext. intros i x _. simpl. f_equal. lia.
Qed.

Lemma reduceRight_spec (f : A -> B -> B) (b : B) (as_ : list A) :
  ReadonlyArrayRest.reduceRight b f as_ = fold_right f b as_.
Proof.
  unfold ReadonlyArrayRest.reduceRight, ReadonlyArrayRest.reduceRightWithIndex,
    Array_reduceRight_i.
  apply (pair_imap_fold_right f b as_ 0).
Qed.

(** [scanRight(b, f)(as)] has one element more than [as]; it ends with
    [b], each earlier element is [f] of the element of [as] at its index
    and of its successor, and the first element is [reduceRight(b, f)(as)]. *)
Theorem scanRight_steps (b : B) (f : A -> B -> B) (as_ : list A) :
  let r := ReadonlyArrayRest.scanRight b f as_ in
  length r = (length as_ + 1)%nat
  /\ get r (length as_) = b
  /\ (forall i : nat, (i < length as_)%nat -> get r i = f (get as_ i) (get r (i + 1)))
  /\ get r 0 = ReadonlyArrayRest.reduceRight b f as_.
Proof.
  cbv zeta. rewrite scanRight_spec, reduceRight_spec, length_scanr.
  rewrite !get_scanr by lia.
  split; [lia|]. split; [by rewrite drop_all|]. split; [|done].
  intros i Hi. rewrite !get_scanr by lia.
  destruct (lookup_lt_is_Some_2 as_ i Hi) as [a Ha].
  rewrite (drop_S as_ a i Ha), (get_lookup as_ i a Ha). simpl.
  by rewrite Nat.add_1_r.
Qed.
End scanning.

Section separating.
Context {E A : Type} `{Undefined (Either.Either E A)}.

Lemma fold_lefts (as_ : list (Either.Either E A)) (r : list E) :
  fold_left (fun r a => match a with
                        | Either.Left left_ => push r left_
                        | Either.Right _ => r
                        end) as_ r
  = r ++ omap (fun a => match a with Either.Left l => Some l | Either.Right _ => None end)
              as_.
Proof.
  revert r. induction as_ as [|[l|x] as_ IH]; intros r; simpl.
  - by rewrite app_nil_r.
  - rewrite IH. unfold push. by rewrite <- app_assoc.
  - apply IH.
Qed.

Lemma fold_rights (as_ : list (Either.Either E A)) (r : list A) :
  fold_left (fun r a => match a with
                        | Either.Right right_ => push r right_
                        | Either.Left _ => r
                        end) as_ r
  = r ++ omap (fun a => match a with Either.Right x => Some x | Either.Left _ => None end)
              as_.
Proof.
  revert r. induction as_ as [|[l|x] as_ IH]; intros r; simpl.
  - by rewrite app_nil_r.
  - apply IH.
  - rewrite IH. unfold push. by rewrite <- app_assoc.
Qed.

Lemma fold_separate (as_ : list (Either.Either E A)) (ls : list E) (rs : list A) :
  fold_left (fun (s : list E * list A) e =>
               let '(left_, right_) := s in
               match e with
               | Either.Left l => (push left_ l, right_)
               | Either.Right r => (left_, push right_ r)
               end) as_ (ls, rs)
  = (ls ++ omap (fun a => match a with Either.Left l => Some l | Either.Right _ => None end)
             as_,
     rs ++ omap (fun a => match a with Either.Right x => Some x | Either.Left _ => None end)
             as_).
Proof.
  revert ls rs. induction as_ as [|[l|x] as_ IH]; intros ls rs; simpl.
  - by rewrite !app_nil_r.
  - rewrite IH. unfold push. by rewrite <- app_assoc.
  - rewrite IH. unfold push. by rewrite <- app_assoc.
Qed.

(** [separate] returns what [lefts] and [rights] return, and between them
    the two arrays hold as many elements as the input. *)
Theorem separate_lefts_rights (fa : list (Either.Either E A)) :
  ReadonlyArrayRest.separate fa
  = {| Separated.left := ReadonlyArrayRest.lefts fa;
       Separated.right := ReadonlyArrayRest.rights fa |}
  /\ (length (ReadonlyArrayRest.lefts fa) + length (ReadonlyArrayRest.rights fa))%nat
    = length fa.
Proof.
  unfold ReadonlyArrayRest.separate, ReadonlyArrayRest.lefts, ReadonlyArrayRest.rights.
  cbv zeta.
  rewrite (for_each fa (fun e (s : list E * list A) =>
             let '(left_, right_) := s in
             match e with
             | Either.Left l => (push left_ l, right_)
             | Either.Right r => (left_, push right_ r)
             end)).
  rewrite (for_each fa (fun a r => match a with
                                   | Either.Left left_ => push r left_
                                   | Either.Right _ => r
                                   end)).
  rewrite (for_each fa (fun a r => match a with
                                   | Either.Right right_ => push r right_
                                   | Either.Left _ => r
                                   end)).
  rewrite fold_separate, fold_lefts, fold_rights. split; [done|]. simpl.
  induction fa as [|[l|x] fa IH]; cbn in *; [done|lia|lia].
Qed.
End separating.

Section zipping.
Context {A B C : Type} `{Undefined A} `{Undefined B} `{Undefined C} `{Undefined (A * B)}.

Lemma for_set_grow {D : Type} `{Undefined D} (g : nat -> D) (n : nat) :
  for_ n (fun i fc => set fc i (g i)) [] = List.map g (seq 0 n).
Proof.
  induction n as [|n IH]; [done|].
  rewrite for_S, IH, seq_S, map_app. unfold set.
  rewrite length_map, length_seq, Nat.ltb_irrefl, Nat.sub_diag. done.
Qed.

Lemma for_set_grow2 {D D' : Type} `{Undefined D} `{Undefined D'}
    (g : nat -> D) (h : nat -> D') (n : nat) :
  for_ n (fun i '(fa, fb) => (set fa i (g i), set fb i (h i))) ([], [])
  = (List.map g (seq 0 n), List.map h (seq 0 n)).
Proof.
  induction n as [|n IH]; [done|].
  rewrite for_S, IH, seq_S, !map_app. unfold set.
  rewrite !length_map, !length_seq, Nat.ltb_irrefl, Nat.sub_diag. done.
Qed.

Lemma map_get_seq {D D' : Type} `{Undefined D} (k : D -> D') (as_ : list D) (n : nat) :
  (n <= length as_)%nat ->
  List.map (fun i => k (get as_ i)) (seq 0 n) = List.map k (take n as_).
Proof.
  induction n as [|n IH]; intros Hn; [done|].
  destruct (lookup_lt_is_Some_2 as_ n ltac:(lia)) as [a Ha].
  rewrite seq_S, map_app, IH, (take_S_r as_ n a Ha), map_app by lia. simpl.
  by rewrite (get_lookup as_ n a Ha).
Qed.

Lemma zipWith_spec (fa : list A) (fb : list B) (f : A -> B -> C) :
  ReadonlyArrayRest.zipWith fa fb f
  = List.map (fun i => f (get fa i) (get fb i)) (seq 0 (Nat.min (length fa) (length fb))).
Proof. unfold ReadonlyArrayRest.zipWith. cbv zeta. apply for_set_grow. Qed.

(** [zipWith(fa, fb, f)] is as long as the shorter of [fa] and [fb], and
    its element at [i] is [f(fa[i], fb[i])]. *)
Theorem zipWith_length_lookup (fa : list A) (fb : list B) (f : A -> B -> C) :
  length (ReadonlyArrayRest.zipWith fa fb f) = Nat.min (length fa) (length fb)
  /\ forall i a b, fa !! i = Some a -> fb !! i = Some b ->
       ReadonlyArrayRest.zipWith fa fb f !! i = Some (f a b).
Proof.
  rewrite zipWith_spec. split; [by rewrite length_map, length_seq|].
  intros i a b Ha Hb.
  pose proof (lookup_lt_Some _ _ _ Ha). pose proof (lookup_lt_Some _ _ _ Hb).
  rewrite list_lookup_fmap, lookup_seq_lt by lia. simpl.
  by rewrite (get_lookup fa i a Ha), (get_lookup fb i b Hb).
Qed.

Lemma unzip_spec (as_ : list (A * B)) :
  ReadonlyArrayRest.unzip as_ = (List.map fst as_, List.map snd as_).
Proof.
  unfold ReadonlyArrayRest.unzip. cbv zeta.
  rewrite (for_set_grow2 (fun i => (get as_ i).1) (fun i => (get as_ i).2)).
  by rewrite !map_get_seq, firstn_all by lia.
Qed.

End zipping.

Section unzipping.
Context {A B : Type} `{Undefined A} `{Undefined B} `{Undefined (A * B)}.

(** [unzip] undoes [zip] up to the length of the shorter array, and [zip]
    undoes [unzip]. *)
Theorem zip_unzip (fa : list A) (fb : list B) (as_ : list (A * B)) :
  ReadonlyArrayRest.unzip (ReadonlyArrayRest.zip fa fb)
  = (take (Nat.min (length fa) (length fb)) fa, take (Nat.min (length fa) (length fb)) fb)
  /\ ReadonlyArrayRest.zip (ReadonlyArrayRest.unzip as_).1 (ReadonlyArrayRest.unzip as_).2
    = as_.
Proof.
  split.
  - rewrite unzip_spec. unfold ReadonlyArrayRest.zip. rewrite zipWith_spec.
    rewrite !List.map_map. simpl.
    rewrite (map_get_seq (fun a => a) fa), (map_get_seq (fun b => b) fb) by lia.
    by rewrite !map_id.
  - rewrite unzip_spec. unfold ReadonlyArrayRest.zip. rewrite zipWith_spec. simpl.
    rewrite !length_map, Nat.min_id.
    induction as_ as [|[a b] as_ IH] using rev_ind; [done|].
    rewrite length_app, Nat.add_1_r, seq_S, !map_app. simpl.
    f_equal.
    + etransitivity; [|exact IH]. apply map_ext_in. intros i Hi%in_seq.
      unfold get. by rewrite !app_nth1 by (rewrite length_map; lia).
    + unfold get. rewrite !app_nth2 by (rewrite length_map; lia).
      by rewrite !length_map, Nat.sub_diag.
Qed.
End unzipping.

Section rotating.
Context {A : Type} `{Undefined A}.

Lemma slice_from_end (n : Z) (as_ : list A) :
  0 < n -> slice as_ (- n) None = drop (Z.to_nat (Z.of_nat (length as_) - n)) as_.
Proof.
  intros Hn. rewrite slice_general. unfold rel_index.
  destruct (Z.ltb_spec (- n) 0) as [_|?]; [|lia].
  assert (Heq : Z.to_nat (Z.max (Z.of_nat (length as_) + - n) 0)
                = Z.to_nat (Z.of_nat (length as_) - n)) by lia.
  rewrite Heq. apply take_ge. rewrite length_drop. lia.
Qed.

Lemma rotate_step (fuel : nat) (n : Z) (as_ : list A) :
  0 <= n <= Z.of_nat (length as_) ->
  ReadonlyArrayRest.rotate (Datatypes.S fuel) n as_
  = Some (drop (length as_ - Z.to_nat n) as_ ++ take (length as_ - Z.to_nat n) as_).
Proof.
  intros Hn. simpl.
  destruct (Z.eqb_spec n 0) as [->|Hn0].
  { simpl. by rewrite Nat.sub_0_r, drop_all, firstn_all. }
  destruct (Nat.leb_spec (length as_) 1) as [Hlen|Hlen].
  { simpl. assert (n = 1) as -> by lia. assert (length as_ = 1%nat) as -> by lia.
    simpl. by rewrite drop_0, take_0, app_nil_r. }
  destruct (Z.eqb_spec (Z.of_nat (length as_)) (Z.abs n)) as [Habs|Habs].
  { simpl. assert (Z.to_nat n = length as_) as -> by lia.
    by rewrite Nat.sub_diag, drop_0, take_0, app_nil_r. }
  simpl. destruct (Z.ltb_spec n 0) as [?|_]; [lia|].
  rewrite slice_from_end, slice_prefix by lia.
  do 2 f_equal; f_equal; lia.
Qed.

(** For [0 <= n <= as.length], [rotate(n)(as)] moves the last [n] elements
    to the front and keeps the order otherwise. *)
Theorem rotate_moves_last_to_front (fuel : nat) (n : Z) (as_ : list A)
    (Hn : 0 <= n <= Z.of_nat (length as_)) (Hfuel : (0 < fuel)%nat) :
  ReadonlyArrayRest.rotate fuel n as_
  = Some (concat (ReadonlyArrayRest.takeRight n as_) (ReadonlyArrayRest.dropRight n as_)).
Proof.
  destruct fuel as [|fuel]; [lia|].
  by rewrite rotate_step, concat_spec, takeRight_spec, dropRight_spec.
Qed.

Lemma rotate_negative (fuel : nat) (n : Z) (as_ : list A) :
  0 < n < Z.of_nat (length as_) ->
  ReadonlyArrayRest.rotate (Datatypes.S (Datatypes.S fuel)) (- n) as_
  = Some (drop (Z.to_nat n) as_ ++ take (Z.to_nat n) as_).
Proof.
  intros Hn.
  change (ReadonlyArrayRest.rotate (Datatypes.S (Datatypes.S fuel)) (- n) as_)
    with (let len := length as_ in
          if ((- n =? 0) || (len <=? 1)%nat || (Z.of_nat len =? Z.abs (- n)))%bool
          then Some as_
          else if - n <? 0
               then ReadonlyArrayRest.rotate (Datatypes.S fuel) (length_plus len (- n)) as_
               else Some (slice as_ (- - n) None
                          ++ slice as_ 0 (Some (Z.of_nat len - - n)))).
  cbv zeta.
  destruct (Z.eqb_spec (- n) 0) as [?|_]; [lia|].
  destruct (Nat.leb_spec (length as_) 1) as [?|_]; [lia|].
  destruct (Z.eqb_spec (Z.of_nat (length as_)) (Z.abs (- n))) as [?|_]; [lia|].
  simpl orb. cbv iota.
  destruct (Z.ltb_spec (- n) 0) as [_|?]; [|lia].
  unfold length_plus. cbv zeta.
  destruct (Z.leb_spec 0 (Z.of_nat (length as_) + - n)) as [_|?]; [|lia].
  rewrite rotate_step by lia. do 2 f_equal; f_equal; lia.
Qed.

(** Rotating by [-n] undoes rotating by [n], for [0 <= n <= as.length]. *)
Theorem rotate_back (fuel : nat) (n : Z) (as_ rotated : list A)
    (Hn : 0 <= n <= Z.of_nat (length as_)) (Hfuel : (1 < fuel)%nat)
    (Hrot : ReadonlyArrayRest.rotate fuel n as_ = Some rotated) :
  ReadonlyArrayRest.rotate fuel (- n) rotated = Some as_.
Proof.
  destruct fuel as [|[|fuel]]; [lia|lia|].
  rewrite rotate_step in Hrot by done. injection Hrot as <-.
  set (r := drop (length as_ - Z.to_nat n) as_ ++ take (length as_ - Z.to_nat n) as_).
  assert (Hlen : length r = length as_).
  { unfold r. rewrite length_app, length_drop, length_take. lia. }
  destruct (decide (n = 0)) as [->|Hn0].
  { rewrite rotate_step by lia. unfold r. simpl.
    rewrite !Nat.sub_0_r, drop_all, firstn_all. simpl.
    by rewrite drop_all, firstn_all. }
  destruct (decide (n = Z.of_nat (length as_))) as [->|Hnl].
  { unfold r. rewrite Nat2Z.id, Nat.sub_diag, drop_0, take_0, app_nil_r.
    simpl.
    destruct (Z.eqb_spec (- Z.of_nat (length as_)) 0); [done|].
    destruct (Nat.leb_spec (length as_) 1); [done|].
    destruct (Z.eqb_spec (Z.of_nat (length as_)) (Z.abs (- Z.of_nat (length as_))));
      [done|lia]. }
  rewrite rotate_negative by lia. f_equal. unfold r.
  assert (Hd : length (drop (length as_ - Z.to_nat n) as_) = Z.to_nat n).
  { rewrite length_drop. lia. }
  rewrite <- Hd at 1. rewrite drop_app_length.
  rewrite <- Hd at 2. rewrite take_app_length.
  apply take_drop.
Qed.

(** Past the length, [rotate(n)] does not rotate: for [as.length < n] (and
    at least two elements) the result is [as] followed by its first
    [2 * as.length - n] elements. *)
Theorem rotate_past_length (fuel : nat) (n : Z) (as_ : list A)
    (Hn : Z.of_nat (length as_) < n) (Hlen : (1 < length as_)%nat)
    (Hfuel : (0 < fuel)%nat) :
  ReadonlyArrayRest.rotate fuel n as_
  = Some (as_ ++ take (Z.to_nat (2 * Z.of_nat (length as_) - n)) as_).
Proof.
  destruct fuel as [|fuel]; [lia|]. simpl.
  destruct (Z.eqb_spec n 0) as [?|_]; [lia|].
  destruct (Nat.leb_spec (length as_) 1) as [?|_]; [lia|].
  destruct (Z.eqb_spec (Z.of_nat (length as_)) (Z.abs n)) as [?|_]; [lia|].
  simpl. destruct (Z.ltb_spec n 0) as [?|_]; [lia|].
  rewrite slice_from_end by lia.
  replace (Z.to_nat (Z.of_nat (length as_) - n)) with 0%nat by lia.
  rewrite drop_0. do 2 f_equal.
  apply (dropRight_past_length n as_ Hn).
Qed.
End rotating.

Section membership.
Context {A : Type} `{Undefined A}.

(** [elem(E)(a, as)] holds exactly when [E.equals(x, a)] holds for some
    element [x] of [as]. *)
Theorem elem_exists (E : Eq.Eq A) (a : A) (as_ : list A) :
  ReadonlyArrayRest.elem E a as_ = true
  <-> exists x, x ∈ as_ /\ Eq.equals E x a = true.
Proof.
  unfold ReadonlyArrayRest.elem. cbv zeta.
  pose proof (for_exit_find (fun i => Eq.equals E (get as_ i) a) (fun _ => true)
                (length as_) 0) as Hf.
  destruct (for_exit (length as_) 0 _ tt) as [[]|r].
  - split; [done|]. intros (x & [i Hi]%list_elem_of_lookup & Hx).
    rewrite <- (get_lookup as_ i x Hi), Hf in Hx; [done|].
    apply lookup_lt_Some in Hi. lia.
  - destruct Hf as (k & Hk & Htest & -> & _). split; [|done]. intros _.
    exists (get as_ k). split; [|done].
    apply list_elem_of_lookup. exists k. apply lookup_get. lia.
Qed.

Lemma elem_false (E : Eq.Eq A) (a : A) (as_ : list A) :
  ReadonlyArrayRest.elem E a as_ = false
  <-> forall x, x ∈ as_ -> Eq.equals E x a = false.
Proof.
  split.
  - intros He x Hx. destruct (Eq.equals E x a) eqn:Hxa; [|done].
    assert (ReadonlyArrayRest.elem E a as_ = true) by (apply elem_exists; eauto).
    congruence.
  - intros Hall. destruct (ReadonlyArrayRest.elem E a as_) eqn:He; [|done].
    apply elem_exists in He as (x & Hx & Hxa). rewrite Hall in Hxa; done.
Qed.

Lemma uniq_loop (E : Eq.Eq A) (as_ : list A) :
  for_ (length as_) (fun i r =>
    let a := get as_ i in
    if negb (ReadonlyArrayRest.elem E a r) then push r a else r) []
  = fold_left (fun r a => if negb (ReadonlyArrayRest.elem E a r) then push r a else r)
      as_ [].
Proof.
  apply (for_each as_ (fun a r => if negb (ReadonlyArrayRest.elem E a r)
                                  then push r a else r)).
Qed.

Lemma distinct_snoc (E : Eq.Eq A) (r : list A) (a : A) :
  distinct (Eq.equals E) r -> (forall x, x ∈ r -> Eq.equals E x a = false) ->
  distinct (Eq.equals E) (r ++ [a]).
Proof.
  induction r as [|x r IH]; intros Hd Ha; simpl.
  { split; [|done]. by intros y Hy%elem_of_nil. }
  destruct Hd as [Hx Hd]. split.
  - intros y [Hy| ->%list_elem_of_singleton]%elem_of_app; [by apply Hx|].
    apply Ha. by left.
  - apply IH; [done|]. intros y Hy. apply Ha. by right.
Qed.

Lemma uniq_fold (E : Eq.Eq A) (as_ r : list A) :
  distinct (Eq.equals E) r ->
  let r' := fold_left (fun r a => if negb (ReadonlyArrayRest.elem E a r)
                                  then push r a else r) as_ r in
  distinct (Eq.equals E) r'
  /\ (exists u, r' = r ++ u /\ u `sublist_of` as_)
  /\ (forall a, a ∈ as_ -> a ∈ r' \/ ReadonlyArrayRest.elem E a r' = true)
  /\ (forall a, a ∈ r -> a ∈ r')
  /\ (forall a, ReadonlyArrayRest.elem E a r = true ->
                ReadonlyArrayRest.elem E a r' = true).
Proof.
  revert r. induction as_ as [|a as_ IH]; intros r Hd; cbv zeta.
  { simpl. split; [done|]. split; [exists []; by rewrite app_nil_r|].
    split; [by intros a Ha%elem_of_nil|]. done. }
  simpl. destruct (ReadonlyArrayRest.elem E a r) eqn:He; simpl.
  - destruct (IH r Hd) as (Hd' & (u & Hu & Hsub) & Hin & Hkeep & Hmono).
    split; [done|]. split; [exists u; split; [done|by apply sublist_cons]|].
    split; [|done].
    intros x [->|Hx]%elem_of_cons; [right; by apply Hmono|by apply Hin].
  - assert (Hd1 : distinct (Eq.equals E) (push r a)).
    { apply distinct_snoc; [done|]. by apply elem_false. }
    destruct (IH (push r a) Hd1) as (Hd' & (u & Hu & Hsub) & Hin & Hkeep & Hmono).
    split; [done|]. split.
    { exists (a :: u). split; [|by apply sublist_skip].
      rewrite Hu. unfold push. by rewrite <- app_assoc. }
    split; [|split].
    + intros x [->|Hx]%elem_of_cons; [|by apply Hin].
      left. apply Hkeep. unfold push. apply elem_of_app. right. by left.
    + intros x Hx. apply Hkeep. unfold push. apply elem_of_app. by left.
    + intros x Hx. apply Hmono. apply elem_exists in Hx as (y & Hy & Hyx).
      apply elem_exists. exists y. split; [|done]. unfold push.
      apply elem_of_app. by left.
Qed.

Lemma sublist_same_length (l k : list A) :
  l `sublist_of` k -> length l = length k -> l = k.
Proof.
  induction 1 as [|x l k Hs IH|x l k Hs IH]; intros Hlen; simpl in *.
  - done.
  - f_equal. apply IH. lia.
  - apply sublist_length in Hs. lia.
Qed.

Lemma uniq_spec (E : Eq.Eq A) (as_ : list A) :
  ReadonlyArrayRest.uniq E as_
  = fold_left (fun r a => if negb (ReadonlyArrayRest.elem E a r) then push r a else r)
      as_ [].
Proof.
  unfold ReadonlyArrayRest.uniq. cbv zeta. rewrite uniq_loop.
  destruct (uniq_fold E as_ [] I) as (_ & (u & Hu & Hsub) & _).
  cbv zeta in Hu. simpl in Hu.
  destruct (Nat.eqb_spec (length as_)
              (length (fold_left (fun r a => if negb (ReadonlyArrayRest.elem E a r)
                                             then push r a else r) as_ [])))
    as [Hlen|_]; [|done].
  rewrite Hu in *. symmetry. by apply sublist_same_length.
Qed.

Lemma uniq_fixpoint (E : Eq.Eq A) (r done_ : list A) :
  distinct (Eq.equals E) (done_ ++ r) ->
  fold_left (fun r a => if negb (ReadonlyArrayRest.elem E a r) then push r a else r)
    r done_
  = done_ ++ r.
Proof.
  revert done_. induction r as [|a r IH]; intros done_ Hd; simpl.
  { by rewrite app_nil_r. }
  assert (He : ReadonlyArrayRest.elem E a done_ = false).
  { apply elem_false. intros x Hx.
    clear IH. induction done_ as [|y done_ IHd]; [by apply elem_of_nil in Hx|].
    simpl in Hd. destruct Hd as [Hy Hd].
    apply elem_of_cons in Hx as [->|Hx].
    - apply Hy. apply elem_of_app. right. by left.
    - by apply IHd. }
  rewrite He. simpl. unfold push.
  rewrite IH; rewrite <- app_assoc; done.
Qed.

(** [uniq(E)(as)] keeps, in order, the elements of [as] that no element
    kept before them equals: no element of the result equals a later one,
    every element of [as] is in the result or equalled by one of its
    elements, and [uniq] leaves its own result as it is. *)
Theorem uniq_distinct (E : Eq.Eq A) (as_ : list A) :
  let r := ReadonlyArrayRest.uniq E as_ in
  distinct (Eq.equals E) r
  /\ r `sublist_of` as_
  /\ (forall a, a ∈ as_ -> a ∈ r \/ ReadonlyArrayRest.elem E a r = true)
  /\ ReadonlyArrayRest.uniq E r = r.
Proof.
  cbv zeta. rewrite !uniq_spec.
  destruct (uniq_fold E as_ [] I) as (Hd & (u & Hu & Hsub) & Hin & _).
  cbv zeta in *. split; [done|]. split; [by rewrite Hu|]. split; [done|].
  apply (uniq_fixpoint E _ []). done.
Qed.

(** [intersection(E)(xs, ys)] and [difference(E)(xs, ys)] split [xs]
    between them according to [elem(E)(x, ys)], and [union(E)(xs, ys)] is
    [xs] followed by [difference(E)(ys, xs)]. *)
Theorem union_intersection_difference (E : Eq.Eq A) (xs ys : list A) (x : A) :
  (x ∈ ReadonlyArrayRest.intersection E xs ys
     <-> x ∈ xs /\ ReadonlyArrayRest.elem E x ys = true)
  /\ (x ∈ ReadonlyArrayRest.difference E xs ys
     <-> x ∈ xs /\ ReadonlyArrayRest.elem E x ys = false)
  /\ (length (ReadonlyArrayRest.intersection E xs ys)
      + length (ReadonlyArrayRest.difference E xs ys))%nat = length xs
  /\ ReadonlyArrayRest.union E xs ys = concat xs (ReadonlyArrayRest.difference E ys xs).
Proof.
  unfold ReadonlyArrayRest.intersection, ReadonlyArrayRest.difference,
    ReadonlyArrayRest.union. cbv zeta.
  rewrite !list_elem_of_In, !filter_In, negb_true_iff.
  split; [done|]. split; [done|]. split; [|done].
  induction xs as [|a xs IH]; simpl; [done|].
  destruct (ReadonlyArrayRest.elem E a ys); simpl; lia.
Qed.

Lemma fold_partition (predicate : A -> bool) (fa ls rs : list A) :
  fold_left (fun (s : list A * list A) a =>
               let '(left_, right_) := s in
               if predicate a then (left_, push right_ a) else (push left_ a, right_))
    fa (ls, rs)
  = (ls ++ List.filter (fun a => negb (predicate a)) fa, rs ++ List.filter predicate fa).
Proof.
  revert ls rs. induction fa as [|a fa IH]; intros ls rs; simpl.
  { by rewrite !app_nil_r. }
  destruct (predicate a); simpl; rewrite IH; unfold push; by rewrite <- app_assoc.
Qed.

(** [partition(p)(fa)] puts the elements that satisfy [p] in [right] and
    the others in [left], both in their order in [fa]: these are
    [filter(p)(fa)] and [filter(not p)(fa)]. *)
Theorem partition_filter (predicate : A -> bool) (fa : list A) :
  ReadonlyArrayRest.partition predicate fa
  = {| Separated.left := ReadonlyArrayRest.filter (fun a => negb (predicate a)) fa;
       Separated.right := ReadonlyArrayRest.filter predicate fa |}.
Proof.
  unfold ReadonlyArrayRest.partition, pipe, ReadonlyArrayRest.partitionWithIndex_.
  cbv zeta.
  rewrite (for_each fa (fun a (s : list A * list A) =>
             let '(left_, right_) := s in
             if predicate a then (left_, push right_ a) else (push left_ a, right_))).
  by rewrite fold_partition.
Qed.
End membership.

Section mapping.
Context {A B : Type} `{Undefined A} `{Undefined B} `{Undefined (list B)}.

Lemma fold_filterMap (f : A -> option B) (fa : list A) (r : list B) :
  fold_left (fun result a => match f a with
                             | Some value => push result value
                             | None => result
                             end) fa r
  = r ++ omap f fa.
Proof.
  revert r. induction fa as [|a fa IH]; intros r; cbn.
  { by rewrite app_nil_r. }
  destruct (f a); rewrite IH; unfold push; [by rewrite <- app_assoc|done].
Qed.

Lemma filterMap_spec (f : A -> option B) (fa : list A) :
  ReadonlyArrayRest.filterMap f fa = omap f fa.
Proof.
  unfold ReadonlyArrayRest.filterMap, ReadonlyArrayRest.filterMapWithIndex_. cbv zeta.
  rewrite (for_each fa (fun a result => match f a with
                                        | Some value => push result value
                                        | None => result
                                        end)).
  apply (fold_filterMap f fa []).
Qed.

Lemma ap_spec (fa : list A) (fab : list (A -> B)) :
  ReadonlyArrayRest.ap fa fab = List.concat (List.map (fun f => List.map f fa) fab).
Proof. unfold ReadonlyArrayRest.ap, pipe. by rewrite flatten_spec. Qed.

(** Applying the one function of [of(f)] is mapping [f], and applying an
    array of functions to [of(a)] is applying each of them to [a]; in
    general the result has [fab.length * fa.length] elements. *)
Theorem ap_of (fa : list A) (fab : list (A -> B)) (f : A -> B) (a : A) :
  ReadonlyArrayRest.ap fa (of_ f) = map f fa
  /\ ReadonlyArrayRest.ap (of_ a) fab = map (fun f => f a) fab
  /\ length (ReadonlyArrayRest.ap fa fab) = (length fab * length fa)%nat.
Proof.
  rewrite !ap_spec. unfold of_, map. split; [|split].
  - simpl. apply app_nil_r.
  - induction fab as [|g fab IH]; simpl in *; [done|]. by rewrite IH.
  - induction fab as [|g fab IH]; simpl in *; [done|].
    by rewrite length_app, length_map, IH.
Qed.

Lemma imap_suffixes {D : Type} (f : list A -> D) (wa : list A) (k : nat) (full : list A) :
  drop k full = wa ->
  imap (fun i (_ : A) => f (slice full (Z.of_nat (k + i)) None)) wa
  = List.map f (suffixes wa).
Proof.
  revert k. induction wa as [|a wa IH]; intros k Hk; [done|].
  rewrite imap_cons. simpl. f_equal.
  - rewrite slice_suffix by lia. by rewrite Nat.add_0_r, Nat2Z.id, Hk.
  - rewrite <- (IH (Datatypes.S k)).
    + apply imap_ext. intros i x _. simpl. do 3 f_equal. lia.
    + replace (Datatypes.S k) with (k + 1)%nat by lia.
      by rewrite <- drop_drop, Hk.
Qed.

(** [extend(f)(wa)] applies [f] to each non-empty suffix of [wa], longest
    first, so it is [map(f)] of [duplicate(wa)] and as long as [wa]. *)
Theorem extend_suffixes (f : list A -> B) (wa : list A) :
  ReadonlyArrayRest.extend f wa = List.map f (suffixes wa)
  /\ ReadonlyArrayRest.duplicate wa = suffixes wa
  /\ ReadonlyArrayRest.extend f wa = map f (ReadonlyArrayRest.duplicate wa)
  /\ length (ReadonlyArrayRest.extend f wa) = length wa.
Proof.
  assert (Hext : forall (C : Type) (g : list A -> C),
            ReadonlyArrayRest.extend g wa = List.map g (suffixes wa)).
  { intros C g. unfold ReadonlyArrayRest.extend, Array_map_i.
    rewrite <- (imap_suffixes g wa 0 wa) by done. apply imap_ext. intros i x _. done. }
  split; [apply Hext|]. split; [|split].
  - unfold ReadonlyArrayRest.duplicate. rewrite Hext. apply map_id.
  - unfold ReadonlyArrayRest.duplicate, map. rewrite !Hext. by rewrite map_id.
  - unfold ReadonlyArrayRest.extend, Array_map_i. apply length_imap.
Qed.

Lemma pair_imap_fold_left {S : Type} (g : S -> A -> S) (s : S) (as_ : list A) (k : nat) :
  fold_left (fun b (ix : nat * A) => g b ix.2) (imap (fun i x => (k + i, x)%nat) as_) s
  = fold_left g as_ s.
Proof.
  revert k s. induction as_ as [|a as_ IH]; intros k s; [done|].
  simpl. rewrite <- (IH (Datatypes.S k)). f_equal.
  apply imap_ext. intros i x _. simpl. f_equal. lia.
Qed.

(** [foldMap(M)(f)] folds from the left, starting with [M.empty]: it is
    [reduce(M.empty, (b, a) => M.concat(b, f(a)))]. *)
Theorem foldMap_reduce (M : Monoid.Monoid B) (f : A -> B) (fa : list A) :
  ReadonlyArrayRest.foldMap M f fa
  = reduce (Monoid.empty M) (fun b a => Monoid.concat M b (f a)) fa.
Proof.
  rewrite reduce_spec.
  unfold ReadonlyArrayRest.foldMap, ReadonlyArrayRest.foldMapWithIndex, Array_reduce_i.
  cbv zeta.
  apply (pair_imap_fold_left (fun b a => Monoid.concat M b (f a)) (Monoid.empty M) fa 0).
Qed.
End mapping.

Section monads.
Context {A B C : Type} `{Undefined A} `{Undefined B} `{Undefined C}
  `{Undefined (list A)} `{Undefined (list B)} `{Undefined (list C)}
  `{Undefined (option A)} `{Undefined (option B)}.

(** [chain] is associative: chaining [g] after [f] is chaining the function
    that chains [g] on what [f] returns. *)
Theorem chain_associative (f : A -> list B) (g : B -> list C) (ma : list A) :
  chain g (chain f ma) = chain (fun a => chain g (f a)) ma.
Proof.
  rewrite !chain_spec.
  induction ma as [|a ma IH]; simpl; [done|].
  by rewrite map_app, List.concat_app, IH, chain_spec.
Qed.

(** [filterMap(f)] is [compact] after [map(f)]; [compact] undoes
    [map(some)], and [filterMap] with a function that never answers [none]
    is [map]. *)
Theorem filterMap_compact (f : A -> option B) (g : A -> B) (fa : list A) :
  ReadonlyArrayRest.filterMap f fa = ReadonlyArrayRest.compact (map f fa)
  /\ ReadonlyArrayRest.compact (map Some fa) = fa
  /\ ReadonlyArrayRest.filterMap (fun a => Some (g a)) fa = map g fa.
Proof.
  unfold ReadonlyArrayRest.compact. rewrite !filterMap_spec. unfold map, identity.
  split; [|split].
  - induction fa as [|a fa IH]; cbn; [done|]. destruct (f a); cbn; by rewrite IH.
  - induction fa as [|a fa IH]; cbn; [done|]. by rewrite IH.
  - induction fa as [|a fa IH]; cbn; [done|]. by rewrite IH.
Qed.

(** [apFirst(fb)(fa)] repeats each element of [fa] once per element of
    [fb], as [chainFirst] with the constant [fb] does; [apSecond(fb)(fa)]
    repeats [fb] once per element of [fa], as [chain] does. *)
Theorem apFirst_apSecond_chain (fa : list A) (fb : list B) :
  ReadonlyArrayRest.apFirst fb fa = ReadonlyArrayRest.chainFirst (fun _ => fb) fa
  /\ ReadonlyArrayRest.apSecond fb fa = chain (fun _ => fb) fa.
Proof.
  unfold ReadonlyArrayRest.apFirst, ReadonlyArrayRest.apSecond,
    ReadonlyArrayRest.chainFirst, pipe.
  rewrite !ap_spec, !chain_spec. unfold map. rewrite !List.map_map. split.
  - done.
  - f_equal. apply map_ext. intros a. apply map_id.
Qed.

(** [toArray] and [fromArray] copy: each returns the elements of its
    argument, so either after the other gives the array back. *)
Theorem fromArray_toArray (as_ : list A) :
  ReadonlyArrayRest.toArray (ReadonlyArrayRest.fromArray as_) = as_
  /\ ReadonlyArrayRest.fromArray (ReadonlyArrayRest.toArray as_) = as_.
Proof.
  assert (Hto : forall xs : list A, ReadonlyArrayRest.toArray xs = xs).
  { intros xs. unfold ReadonlyArrayRest.toArray. cbv zeta.
    rewrite for_copy0 by (rewrite ?length_Array_; lia).
    rewrite firstn_all, drop_ge by (rewrite length_Array_; lia). apply app_nil_r. }
  assert (Hfrom : forall xs : list A, ReadonlyArrayRest.fromArray xs = xs).
  { intros xs. unfold ReadonlyArrayRest.fromArray. cbv zeta.
    destruct (Nat.eqb_spec (length xs) 0) as [Hl|Hl]; [by destruct xs|].
    rewrite for_copy0 by (rewrite ?length_Array_; lia).
    rewrite firstn_all, drop_ge by (rewrite length_Array_; lia). apply app_nil_r. }
  by rewrite !Hto, !Hfrom.
Qed.
End monads.
End ReadonlyArrayRestFacts.

(** ** More on array references: deleting, modifying, reversing *)

Module ReadonlyArrayStoreRestFacts.
Import Host ReadonlyArrayStore ReadonlyArrayFacts ReadonlyArrayStoreFacts.

Section facts.
Context {A : Type} `{Undefined A} `{Undefined (list A)}.
Variable strict_eq : A -> A -> bool.

Lemma insertAt_run (i : Z) (a : A) (s : store A) (as_ : ref) (c : list A) :
  s !! as_ = Some c -> 0 <= i <= Z.of_nat (length c) ->
  insertAt i a as_ s
  = (Some (fresh (dom s)),
     <[fresh (dom s) := take (Z.to_nat i) c ++ a :: drop (Z.to_nat i) c]>
       (<[fresh (dom s) := c]> s)).
Proof.
  intros Hc Hi. unfold insertAt. unfold bind at 1. unfold read. rewrite Hc.
  change (default [] (Some c)) with c.
  destruct (Z.ltb_spec i 0) as [?|_]; [lia|].
  destruct (Z.gtb_spec i (Z.of_nat (length c))) as [?|_]; [lia|]. simpl.
  unfold bind. rewrite (unsafeInsertAt_run i a s as_ c Hc).
  by rewrite spliced_insert.
Qed.

Lemma spliced_delete (c : list A) (i : Z) :
  0 <= i < Z.of_nat (length c) ->
  spliced c i 1 [] = take (Z.to_nat i) c ++ drop (Datatypes.S (Z.to_nat i)) c.
Proof.
  intros Hi. unfold spliced, rel_index. cbv zeta.
  destruct (Z.ltb_spec i 0) as [?|_]; [lia|].
  rewrite (Z.min_l i) by lia.
  replace (Z.min (Z.max 1 0) (Z.of_nat (length c) - i)) with 1 by lia.
  simpl. do 2 f_equal. lia.
Qed.

Lemma deleteAt_run (i : Z) (s : store A) (as_ : ref) (c : list A) :
  s !! as_ = Some c -> 0 <= i < Z.of_nat (length c) ->
  deleteAt i as_ s
  = (Some (fresh (dom s)),
     <[fresh (dom s) := take (Z.to_nat i) c ++ drop (Datatypes.S (Z.to_nat i)) c]>
       (<[fresh (dom s) := c]> s)).
Proof.
  intros Hc Hi. unfold deleteAt. unfold bind at 1. unfold read. rewrite Hc.
  change (default [] (Some c)) with c.
  assert (Hb : ReadonlyArray.isOutOfBound i c = false).
  { destruct (ReadonlyArray.isOutOfBound i c) eqn:Hb; [|done].
    apply isOutOfBound_spec in Hb. lia. }
  rewrite Hb. unfold bind. rewrite (unsafeDeleteAt_run i s as_ c Hc).
  by rewrite spliced_delete.
Qed.

(** Deleting at [i] what was inserted at [i] gives an array with the
    elements of the original, and the original itself is still there
    unchanged. *)
Theorem insertAt_then_deleteAt (i : Z) (a : A) (s : store A) (as_ : ref) (c : list A)
    (Hc : s !! as_ = Some c) (Hi : 0 <= i <= Z.of_nat (length c)) :
  exists (inserted deleted : ref) (s1 s2 : store A),
    insertAt i a as_ s = (Some inserted, s1)
    /\ deleteAt i inserted s1 = (Some deleted, s2)
    /\ s2 !! deleted = Some c
    /\ s2 !! as_ = Some c
    /\ inserted <> as_ /\ deleted <> as_.
Proof.
  rewrite (insertAt_run i a s as_ c Hc Hi).
  set (r := fresh (dom s)).
  set (c1 := take (Z.to_nat i) c ++ a :: drop (Z.to_nat i) c).
  set (s1 := <[r := c1]> (<[r := c]> s)).
  assert (Hr : s1 !! r = Some c1) by apply lookup_insert_eq.
  assert (Hlen : length c1 = Datatypes.S (length c)).
  { unfold c1. rewrite length_app, length_take. simpl. rewrite length_drop. lia. }
  assert (Has1 : s1 !! as_ = Some c).
  { unfold s1. rewrite !lookup_insert_ne by (unfold r; by eapply fresh_ne). done. }
  exists r, (fresh (dom s1)), s1,
    (<[fresh (dom s1) := take (Z.to_nat i) c1 ++ drop (Datatypes.S (Z.to_nat i)) c1]>
       (<[fresh (dom s1) := c1]> s1)).
  split; [done|]. split; [apply (deleteAt_run i s1 r c1 Hr); lia|].
  rewrite lookup_insert_eq.
  split; [|split; [|split]].
  - f_equal. unfold c1.
    assert (Hti : length (take (Z.to_nat i) c) = Z.to_nat i) by (rewrite length_take; lia).
    rewrite take_app_length' by done.
    rewrite (cons_middle a), app_assoc.
    rewrite (drop_app_length' (take (Z.to_nat i) c ++ [a]))
      by (rewrite length_app, Hti; simpl; lia).
    apply take_drop.
  - rewrite !lookup_insert_ne by (by eapply fresh_ne). done.
  - unfold r. by eapply fresh_ne.
  - by eapply fresh_ne.
Qed.

(** [deleteAt(i)(as)] is [none] exactly when [i < 0] or [i >= as.length];
    otherwise it is [some] of a new array, one element shorter, with the
    elements of [as] except the one at [i]. *)
Theorem deleteAt_optional (i : Z) (s : store A) (as_ : ref) (c : list A)
    (Hc : s !! as_ = Some c) :
  ((deleteAt i as_ s).1 = None <-> i < 0 \/ i >= Z.of_nat (length c))
  /\ forall r, (deleteAt i as_ s).1 = Some r ->
       r <> as_
       /\ (deleteAt i as_ s).2 !! r
          = Some (take (Z.to_nat i) c ++ drop (Datatypes.S (Z.to_nat i)) c)
       /\ (deleteAt i as_ s).2 !! as_ = Some c.
Proof.
  destruct (decide (0 <= i < Z.of_nat (length c))) as [Hi|Hi].
  - rewrite (deleteAt_run i s as_ c Hc Hi). simpl. split; [split; [done|lia]|].
    intros r [= <-]. split; [by eapply fresh_ne|]. split; [apply lookup_insert_eq|].
    rewrite !lookup_insert_ne by (by eapply fresh_ne). done.
  - assert (Hb : ReadonlyArray.isOutOfBound i c = true) by (apply isOutOfBound_spec; lia).
    assert (Hrun : deleteAt i as_ s = (None, s)).
    { unfold deleteAt. unfold bind at 1. unfold read. rewrite Hc.
      change (default [] (Some c)) with c. by rewrite Hb. }
    rewrite Hrun. simpl. split; [split; [lia|done]|done].
Qed.

(** [updateAt(i, a)(as)] and [modifyAt(i, f)(as)] return [as] itself, and
    create nothing, when the element at [i] is already [===] the new one. *)
Theorem updateAt_same_reference (i : Z) (a : A) (f : A -> A)
    (s : store A) (as_ : ref) (c : list A)
    (Hc : s !! as_ = Some c) (Hi : 0 <= i < Z.of_nat (length c)) :
  (strict_eq (index c i) a = true -> updateAt strict_eq i a as_ s = (Some as_, s))
  /\ (strict_eq (index c i) (f (index c i)) = true ->
      modifyAt strict_eq i f as_ s = (Some as_, s)).
Proof.
  assert (Hb : ReadonlyArray.isOutOfBound i c = false).
  { destruct (ReadonlyArray.isOutOfBound i c) eqn:Hb; [|done].
    apply isOutOfBound_spec in Hb. lia. }
  split; intros Heq.
  - unfold updateAt. unfold bind at 1. unfold read. rewrite Hc.
    change (default [] (Some c)) with c. rewrite Hb.
    unfold bind. rewrite (unsafeUpdateAt_run strict_eq i a s as_ c Hc), Heq. done.
  - unfold modifyAt. unfold bind at 1. unfold read. rewrite Hc.
    change (default [] (Some c)) with c. rewrite Hb.
    unfold bind. rewrite (unsafeUpdateAt_run strict_eq i _ s as_ c Hc), Heq. done.
Qed.

(** [reverse(as)] is a new array with the elements of [as] in reverse
    order; reversing that one gives the elements of [as] back, and [as]
    itself is unchanged throughout. *)
Theorem reverse_twice (s : store A) (as_ : ref) (c : list A) (Hc : s !! as_ = Some c) :
  exists (r1 r2 : ref) (s1 s2 : store A),
    reverse as_ s = (r1, s1)
    /\ s1 !! r1 = Some (rev c)
    /\ reverse r1 s1 = (r2, s2)
    /\ s2 !! r2 = Some c
    /\ s2 !! r1 = Some (rev c)
    /\ s2 !! as_ = Some c
    /\ r1 <> as_ /\ r2 <> r1 /\ r2 <> as_.
Proof.
  rewrite (reverse_run s as_ c Hc).
  set (r1 := fresh (dom s)). set (s1 := <[r1 := rev c]> (<[r1 := c]> s)).
  assert (H1 : s1 !! r1 = Some (rev c)) by apply lookup_insert_eq.
  exists r1, (fresh (dom s1)), s1,
    (<[fresh (dom s1) := rev (rev c)]> (<[fresh (dom s1) := rev c]> s1)).
  split; [done|]. split; [done|]. split; [apply (reverse_run s1 r1 (rev c) H1)|].
  rewrite lookup_insert_eq, rev_involutive. split; [done|].
  assert (Has1 : s1 !! as_ = Some c).
  { unfold s1. rewrite !lookup_insert_ne by (unfold r1; by eapply fresh_ne). done. }
  split; [rewrite !lookup_insert_ne by (by eapply fresh_ne); done|].
  split; [rewrite !lookup_insert_ne by (by eapply fresh_ne); done|].
  split; [unfold r1; by eapply fresh_ne|].
  split; by eapply fresh_ne.
Qed.
End facts.
End ReadonlyArrayStoreRestFacts.

(** ** More on tasks: timers, parallel and sequential application,
    identities *)

Module TaskRestFacts.
Import Promises Task TaskRest TaskFacts.

Section facts.
Context {E : Type} `{JobOrder E}.

(** [delay(millis)(ma)] never throws and never rejects, whatever [ma]
    does; when it resolves, it is with the value [ma] resolved with, [ma]
    having been called [millis] after the call, and not before then. *)
Theorem delay_settles {A : Type} (millis : nat) (ma : Task (E:=E) A) (now : nat) :
  exists p, delay millis ma now = Returns p
    /\ (forall at_ e, p <> Settled at_ (Rejected e))
    /\ forall at_ a, p = Settled at_ (Resolved a) ->
         (now + millis <= at_)%nat
         /\ exists t, ma (now + millis)%nat = Returns (Settled t (Resolved a))
                      /\ at_ = Nat.max (now + millis) t.
Proof.
  unfold delay. eexists. split; [done|]. unfold Promise_after_timeout.
  destruct (ma (now + millis)%nat) as [[|t [a|e]]|e]; split; try done.
  intros at_ a' [= <- <-]. split; [lia|]. by exists t.
Qed.

(** [ap] starts both tasks at once, [monadTaskSeq.ap] starts the argument
    only when the function has arrived: with a function that takes [n] and
    an argument that takes [m], neither of them a promise, and a result
    that is no promise either, [ap] resolves after [max n m] and
    [monadTaskSeq.ap] after [n + m], both with the function applied to the
    argument. *)
Theorem ap_parallel_sequential {A B : Type} `{Thenable E A} `{Thenable E B}
    `{Thenable E (A -> Completion E B)} (n m now : nat) (f : A -> Completion E B)
    (a : A) (b : B) (Hf : f a = Returns b)
    (Ha : thenable a = None) (Hb : thenable b = None) (Hfun : thenable f = None) :
  ap (delay m (of_ a)) (delay n (of_ f)) now
  = Returns (Settled (now + Nat.max n m) (Resolved b))
  /\ monadTaskSeq_ap (delay m (of_ a)) (delay n (of_ f)) now
    = Returns (Settled (now + (n + m)) (Resolved b)).
Proof.
  unfold ap, monadTaskSeq_ap, delay, Promise_after_timeout, of_.
  rewrite !Promise_resolve_plain by done.
  unfold Promise_all, then_, plain. simpl. rewrite !Hf.
  rewrite !Promise_resolve_plain by done. simpl. rewrite !Hf.
  rewrite !Promise_resolve_plain by done. simpl.
  split; f_equal; f_equal; lia.
Qed.

(** Left and right identity of the task monad, up to the instant of the
    call.  For a value [a] that is not a promise, [chain(f)(of(a))]
    settles like [f(a)], except that a throw of [f] becomes a rejection;
    for an [a] that is a promise, [f] is handed what that promise resolves
    with, not [a].  [chain(of)(ma)] settles like [ma]. *)
Theorem chain_of_identities {A B : Type} `{Thenable E A}
    (f : A -> Completion E (Task (E:=E) B)) (a : A) (ma : Task (E:=E) A) (now : nat) :
  (thenable a = None ->
   (forall mb q, f a = Returns mb -> mb now = Returns q ->
      chain f (of_ a) now = Returns (adopt now q))
   /\ (forall e, f a = Throws e -> chain f (of_ a) now = Returns (Settled now (Rejected e))))
  /\ (forall p, thenable a = Some p ->
        chain f (of_ a) now
        = Returns (then_ now p (fun now a' =>
            match f a' with
            | Throws e => Throws e
            | Returns mb => mb now
            end)))
  /\ (forall p, ma now = Returns p ->
        (forall t a', p = Settled t (Resolved a') -> thenable a' = None) ->
        chain (fun a => Returns (of_ a)) ma now = Returns (adopt now p)).
Proof.
  split; [|split].
  - intros Ha. unfold chain, of_. rewrite Promise_resolve_plain by done.
    unfold then_. simpl. rewrite Nat.max_id. split.
    + by intros mb q -> ->.
    + by intros e ->.
  - intros p Hp. unfold chain, of_, Promise_resolve. rewrite Hp.
    unfold then_. by rewrite adopt_adopt, Nat.max_id.
  - intros p Hma Hp. unfold chain. rewrite Hma. f_equal.
    destruct p as [|t [x|e]]; unfold then_; simpl; try done.
    unfold of_. rewrite (Promise_resolve_plain _ x (Hp t x eq_refl)). simpl.
    f_equal. lia.
Qed.

(** [never] is the identity of the race monoid: racing a task against
    [never], on either side, settles as the task does. *)
Theorem race_never_identity {A : Type} (x : Task (E:=E) A) (now : nat)
    (p : Promise E A) (Hx : x now = Returns p) :
  exists l r : Task A,
    TaskMonoid.concat getRaceMonoid x (TaskMonoid.empty getRaceMonoid) = Returns l
    /\ TaskMonoid.concat getRaceMonoid (TaskMonoid.empty getRaceMonoid) x = Returns r
    /\ l now = Returns (adopt now p)
    /\ r now = Returns (adopt now p).
Proof.
  do 2 eexists. split; [done|]. split; [done|]. simpl. unfold never. rewrite Hx.
  unfold Promise_race. simpl. by destruct p.
Qed.

(** [apFirst] and [apSecond] wait for both tasks, started at once, and
    resolve with the value of the first and of the second, when the
    values and the functions made from them are not promises. *)
Lemma apFirst_apSecond {A B : Type} `{Thenable E A} `{Thenable E B}
    `{Thenable E (B -> Completion E A)} `{Thenable E (B -> Completion E B)}
    (fa : Task (E:=E) A) (fb : Task (E:=E) B)
    (now t1 t2 : nat) (a : A) (b : B)
    (Ha : fa now = Returns (Settled t1 (Resolved a)))
    (Hb : fb now = Returns (Settled t2 (Resolved b)))
    (Hplain_a : thenable a = None) (Hplain_b : thenable b = None)
    (Hfun_a : forall g : B -> Completion E A, thenable g = None)
    (Hfun_b : forall g : B -> Completion E B, thenable g = None) :
  apFirst fb fa now = Returns (Settled (Nat.max now (Nat.max t1 t2)) (Resolved a))
  /\ apSecond fb fa now = Returns (Settled (Nat.max now (Nat.max t1 t2)) (Resolved b)).
Proof.
  unfold apFirst, apSecond, ap, map, then_, plain, Promise_all.
  rewrite Ha, Hb. simpl. rewrite !Promise_resolve_plain by done. simpl.
  rewrite !Promise_resolve_plain by done. simpl.
  split; do 2 f_equal; lia.
Qed.

(** [chainIOK(f)(ma)] runs the [IO] that [f] makes from the value of [ma];
    what the [IO] returns, if it is not a promise, is the value of the
    task, and an [IO] that throws makes the task reject. *)
Lemma chainIOK_runs_io {A B : Type} `{Thenable E B} (f : A -> Completion E (IO (E:=E) B))
    (ma : Task (E:=E) A) (now t : nat) (a : A) (io : IO (E:=E) B)
    (Ha : ma now = Returns (Settled t (Resolved a))) (Hf : f a = Returns io)
    (Hplain : forall b, io tt = Returns b -> thenable b = None) :
  chainIOK f ma now
  = Returns (Settled (Nat.max now t)
               match io tt with
               | Returns b => Resolved b
               | Throws e => Rejected e
               end).
Proof.
  unfold chainIOK, chain, fromIOK, fromIO, then_.
  rewrite Ha. simpl. rewrite Hf. destruct (io tt) as [b|e] eqn:Hio; simpl; [|done].
  rewrite Promise_resolve_plain by (by apply Hplain). simpl.
  do 2 f_equal. lia.
Qed.
End facts.
End TaskRestFacts.

(** ** More examples of the documentation, and closed instances *)

Module RestExamples.
Import Host Promises Sample SampleRest.

Example makeBy_doc : ReadonlyArrayRest.makeBy 5 (fun n => n * 2) = [0; 2; 4; 6; 8].
Proof. reflexivity. Qed.

Example range_doc : ReadonlyArrayRest.range 1 5 = [1; 2; 3; 4; 5].
Proof. reflexivity. Qed.

(** Past [2 ^ 53] the sums are rounded: [range(2 ** 53, 2 ** 53 + 2)]
    holds [2 ** 53] twice. *)
Example range_rounds :
  ReadonlyArrayRest.range (2 ^ 53) (2 ^ 53 + 2) = [2 ^ 53; 2 ^ 53; 2 ^ 53 + 2].
Proof. vm_compute. reflexivity. Qed.

Example replicate_doc : ReadonlyArrayRest.replicate 3 7 = [7; 7; 7].
Proof. reflexivity. Qed.

Example scanRight_doc :
  ReadonlyArrayRest.scanRight 10 (fun a b => b - a) [1; 2; 3] = [4; 5; 7; 10].
Proof. reflexivity. Qed.

Example head_last_doc :
  ReadonlyArrayRest.head [1; 2; 3] = Some 1 /\ ReadonlyArrayRest.head ([] : list Z) = None
  /\ ReadonlyArrayRest.last [1; 2; 3] = Some 3 /\ ReadonlyArrayRest.last ([] : list Z) = None.
Proof. repeat split; reflexivity. Qed.

Example tail_init_doc :
  ReadonlyArrayRest.tail [1; 2; 3] = Some [2; 3]
  /\ ReadonlyArrayRest.init [1; 2; 3] = Some [1; 2].
Proof. split; reflexivity. Qed.

Example take_drop_doc :
  ReadonlyArrayRest.takeLeft 2 [1; 2; 3] = [1; 2]
  /\ ReadonlyArrayRest.takeRight 2 [1; 2; 3; 4; 5] = [4; 5]
  /\ ReadonlyArrayRest.dropLeft 2 [1; 2; 3] = [3]
  /\ ReadonlyArrayRest.dropRight 2 [1; 2; 3; 4; 5] = [1; 2; 3].
Proof. repeat split; reflexivity. Qed.

Example dropLeftWhile_doc :
  ReadonlyArrayRest.dropLeftWhile Z.odd [1; 3; 2; 4; 5] = [2; 4; 5].
Proof. reflexivity. Qed.

Example findIndex_doc :
  ReadonlyArrayRest.findIndex (Z.eqb 2) [1; 2; 3] = Some 1%nat
  /\ ReadonlyArrayRest.findIndex (Z.eqb 2) [] = None.
Proof. split; reflexivity. Qed.

Example rights_lefts_doc :
  ReadonlyArrayRest.rights [Either.Right 1; Either.Left 9; Either.Right 2] = [1; 2]
  /\ ReadonlyArrayRest.lefts [Either.Right 1; Either.Left 9; Either.Right 2] = [9].
Proof. split; reflexivity. Qed.

Example zip_unzip_doc :
  ReadonlyArrayRest.zip [1; 2; 3] [10; 20; 30; 40] = [(1, 10); (2, 20); (3, 30)]
  /\ ReadonlyArrayRest.unzip [(1, 10); (2, 20); (3, 30)] = ([1; 2; 3], [10; 20; 30]).
Proof. split; reflexivity. Qed.

Example rotate_doc : ReadonlyArrayRest.rotate 2 2 [1; 2; 3; 4; 5] = Some [4; 5; 1; 2; 3].
Proof. reflexivity. Qed.

(** [rotate(-7)] on three elements calls itself with [-4], [-1] and [2]. *)
Example rotate_negative_doc :
  ReadonlyArrayRest.rotate 3 (- 7) [1; 2; 3] = None
  /\ ReadonlyArrayRest.rotate 4 (- 7) [1; 2; 3] = Some [2; 3; 1].
Proof. split; reflexivity. Qed.

Example elem_uniq_doc :
  ReadonlyArrayRest.elem eqNumber 1 [1; 2; 3] = true
  /\ ReadonlyArrayRest.elem eqNumber 4 [1; 2; 3] = false
  /\ ReadonlyArrayRest.uniq eqNumber [1; 2; 1] = [1; 2].
Proof. repeat split; reflexivity. Qed.

Example union_intersection_difference_doc :
  ReadonlyArrayRest.union eqNumber [1; 2] [2; 3] = [1; 2; 3]
  /\ ReadonlyArrayRest.intersection eqNumber [1; 2] [2; 3] = [2]
  /\ ReadonlyArrayRest.difference eqNumber [1; 2] [2; 3] = [1].
Proof. repeat split; reflexivity. Qed.

Example getShow_doc :
  Show.show (ReadonlyArrayClasses.getShow showBoolean) [true; false] = shown_true_false.
Proof. reflexivity. Qed.

Example getOrd_doc :
  let O := ReadonlyArrayClasses.getOrd fromCompare Sample.ordNumber Sample.ordNumber in
  Ord.compare O [2] [1] = 1 /\ Ord.compare O [1] [1] = 0 /\ Ord.compare O [1] [2] = -1
  /\ Ord.compare O [1] [1; 0] = -1.
Proof. repeat split; reflexivity. Qed.

Example sequence_traverse_doc :
  ReadonlyArrayClasses.sequence applicativeOption [Some 1; Some 2] = Some [1; 2]
  /\ ReadonlyArrayClasses.sequence applicativeOption [Some 1; None] = None
  /\ ReadonlyArrayClasses.traverse applicativeOption
       (fun n => if 0 <=? n then Some n else None) [1; 2] = Some [1; 2]
  /\ ReadonlyArrayClasses.wither applicativeOption
       (fun n => Some (if 0 <? n then Some n else None)) [1; 0; 2] = Some [1; 2].
Proof. repeat split; reflexivity. Qed.

Lemma range_endpoints_witness :
  length (ReadonlyArrayRest.range 1 5) = Z.to_nat (5 - 1 + 1)
  /\ ReadonlyArrayRest.head (ReadonlyArrayRest.range 1 5) = Some 1
  /\ ReadonlyArrayRest.last (ReadonlyArrayRest.range 1 5) = Some 5
  /\ forall i, 0 <= i <= 5 - 1 -> ReadonlyArray.lookup i (ReadonlyArrayRest.range 1 5) = Some (1 + i).
Proof.
  assert (H53 : 2 ^ 53 = 9007199254740992) by reflexivity.
  apply (ReadonlyArrayRestFacts.range_endpoints 1 5); lia.
Defined.

Lemma dropRight_takeRight_witness :
  ReadonlyArray.concat (ReadonlyArrayRest.dropRight 2 [1; 2; 3; 4; 5])
    (ReadonlyArrayRest.takeRight 2 [1; 2; 3; 4; 5]) = [1; 2; 3; 4; 5]
  /\ length (ReadonlyArrayRest.takeRight 2 [1; 2; 3; 4; 5]) = Z.to_nat 2.
Proof.
  apply (ReadonlyArrayRestFacts.dropRight_takeRight 2 [1; 2; 3; 4; 5]). simpl. lia.
Defined.

Lemma dropRight_past_length_witness :
  ReadonlyArrayRest.dropRight 5 [1; 2; 3]
  = take (Z.to_nat (2 * Z.of_nat (length [1; 2; 3]) - 5)) [1; 2; 3].
Proof.
  apply (ReadonlyArrayRestFacts.dropRight_past_length 5 [1; 2; 3]). simpl. lia.
Defined.

Lemma scanRight_steps_witness :
  let r := ReadonlyArrayRest.scanRight 10 (fun a b => b - a) [1; 2; 3] in
  length r = (length [1; 2; 3] + 1)%nat
  /\ get r (length [1; 2; 3]) = 10
  /\ get r 1 = get r (1 + 1) - get [1; 2; 3] 1
  /\ get r 0 = ReadonlyArrayRest.reduceRight 10 (fun a b => b - a) [1; 2; 3].
Proof.
  destruct (ReadonlyArrayRestFacts.scanRight_steps 10 (fun a b => b - a) [1; 2; 3])
    as (Hlen & Hlast & Hstep & Hfirst).
  split; [exact Hlen|]. split; [exact Hlast|]. split; [|exact Hfirst].
  apply (Hstep 1%nat). simpl. lia.
Defined.

Lemma rotate_moves_last_to_front_witness :
  ReadonlyArrayRest.rotate 1 2 [1; 2; 3; 4; 5]
  = Some (ReadonlyArray.concat (ReadonlyArrayRest.takeRight 2 [1; 2; 3; 4; 5])
            (ReadonlyArrayRest.dropRight 2 [1; 2; 3; 4; 5])).
Proof.
  apply (ReadonlyArrayRestFacts.rotate_moves_last_to_front 1 2 [1; 2; 3; 4; 5]).
  - simpl. lia.
  - lia.
Defined.

Lemma rotate_back_witness :
  ReadonlyArrayRest.rotate 2 (- 2) [4; 5; 1; 2; 3] = Some [1; 2; 3; 4; 5].
Proof.
  apply (ReadonlyArrayRestFacts.rotate_back 2 2 [1; 2; 3; 4; 5] [4; 5; 1; 2; 3]).
  - simpl. lia.
  - lia.
  - reflexivity.
Defined.

Lemma rotate_past_length_witness :
  ReadonlyArrayRest.rotate 1 4 [1; 2; 3]
  = Some ([1; 2; 3] ++ take (Z.to_nat (2 * Z.of_nat (length [1; 2; 3]) - 4)) [1; 2; 3]).
Proof.
  apply (ReadonlyArrayRestFacts.rotate_past_length 1 4 [1; 2; 3]); simpl; lia.
Defined.

Lemma insertAt_then_deleteAt_witness :
  exists (inserted deleted : positive) (s1 s2 : gmap positive (list Z)),
    ReadonlyArrayStore.insertAt 1 7 1%positive store312 = (Some inserted, s1)
    /\ ReadonlyArrayStore.deleteAt 1 inserted s1 = (Some deleted, s2)
    /\ s2 !! deleted = Some [3; 1; 2]
    /\ s2 !! 1%positive = Some [3; 1; 2]
    /\ inserted <> 1%positive /\ deleted <> 1%positive.
Proof.
  apply (ReadonlyArrayStoreRestFacts.insertAt_then_deleteAt 1 7 store312 1%positive
           [3; 1; 2]).
  - reflexivity.
  - simpl. lia.
Defined.

Lemma deleteAt_optional_witness :
  (ReadonlyArrayStore.deleteAt 5 1%positive store312).1 = None
  <-> 5 < 0 \/ 5 >= Z.of_nat (length [3; 1; 2]).
Proof.
  assert (Hc : store312 !! 1%positive = Some [3; 1; 2]) by reflexivity.
  pose proof (ReadonlyArrayStoreRestFacts.deleteAt_optional 5 store312 1%positive
                [3; 1; 2] Hc) as [Hnone _].
  exact Hnone.
Defined.

Lemma updateAt_same_reference_witness :
  ReadonlyArrayStore.updateAt Z.eqb 1 1 1%positive store312 = (Some 1%positive, store312).
Proof.
  assert (Hc : store312 !! 1%positive = Some [3; 1; 2]) by reflexivity.
  assert (Hi : 0 <= 1 < Z.of_nat (length [3; 1; 2])) by (simpl; lia).
  pose proof (ReadonlyArrayStoreRestFacts.updateAt_same_reference Z.eqb 1 1 Z.succ
                store312 1%positive [3; 1; 2] Hc Hi) as [Hsame _].
  apply Hsame. reflexivity.
Defined.

Lemma reverse_twice_witness :
  exists (r1 r2 : positive) (s1 s2 : gmap positive (list Z)),
    ReadonlyArrayStore.reverse 1%positive store312 = (r1, s1)
    /\ s1 !! r1 = Some (rev [3; 1; 2])
    /\ ReadonlyArrayStore.reverse r1 s1 = (r2, s2)
    /\ s2 !! r2 = Some [3; 1; 2]
    /\ s2 !! r1 = Some (rev [3; 1; 2])
    /\ s2 !! 1%positive = Some [3; 1; 2]
    /\ r1 <> 1%positive /\ r2 <> r1 /\ r2 <> 1%positive.
Proof.
  apply (ReadonlyArrayStoreRestFacts.reverse_twice store312 1%positive [3; 1; 2]).
  reflexivity.
Defined.

Lemma ap_parallel_sequential_witness :
  Task.ap (E:=unit) (Task.delay 20 (Task.of_ 1))
    (Task.delay 30 (Task.of_ (fun n : Z => Returns (n + 1)))) 0%nat
  = Returns (Settled (0 + Nat.max 30 20) (Resolved 2))
  /\ TaskRest.monadTaskSeq_ap (E:=unit) (Task.delay 20 (Task.of_ 1))
       (Task.delay 30 (Task.of_ (fun n : Z => Returns (n + 1)))) 0%nat
     = Returns (Settled (0 + (30 + 20)) (Resolved 2)).
Proof.
  apply (TaskRestFacts.ap_parallel_sequential 30 20 0 (fun n : Z => Returns (n + 1)) 1 2);
    reflexivity.
Defined.

Lemma race_never_identity_witness :
  exists l r : Task.Task (E:=unit) Z,
    TaskMonoid.concat Task.getRaceMonoid (Task.of_ 1) (TaskMonoid.empty Task.getRaceMonoid)
      = Returns l
    /\ TaskMonoid.concat Task.getRaceMonoid (TaskMonoid.empty Task.getRaceMonoid) (Task.of_ 1)
      = Returns r
    /\ l 4%nat = Returns (adopt 4 (Settled 4 (Resolved 1)))
    /\ r 4%nat = Returns (adopt 4 (Settled 4 (Resolved 1))).
Proof.
  apply (TaskRestFacts.race_never_identity (Task.of_ 1) 4 (Settled 4 (Resolved 1))).
  reflexivity.
Defined.
End RestExamples.
